(** * llm-graph: the conversation graph engine

    A shallow embedding of the hook [useChatGraph] (context resolution,
    branch creation, submit, cancel, edge handles while dragging,
    serialisation, import and the durable slot), of the keyboard navigation
    of the [ChatGraph] component, of the input node, of the search overlay
    and of the backend route, followed by the properties proved about
    them.

    Conventions of the embedding.
    - React state ([nodes], [edges]) is passed explicitly; a functional
      updater [setNodes(f)] is the application of [f] to the current list.
    - [Date.now()] is a parameter of the operation that reads it.
    - JavaScript numbers that occur (timestamps, coordinates, sizes) are
      integers of [Z]; floating point is not modelled, and the halves that
      the centre of a node needs are rationals of [Q].
    - A closure stored in node data ([onSend], [onCancel]) is represented by
      the arguments it has captured.
    - The [while] loop of the context resolver takes a fuel argument and
      returns [None] when the fuel runs out.

    The file has three parts: the embedding of the source, the vocabulary
    in which the properties are stated, and the properties with their
    proofs. *)

From Stdlib Require Import QArith.
From Stdlib Require Import List String Ascii ZArith Bool Lia.
From Stdlib Require Import Permutation DecimalString DecimalZ.
From Stdlib Require Import Sorted.
From Stdlib Require Import Qabs.
Import ListNotations.
Open Scope string_scope.
Open Scope Z_scope.
Open Scope list_scope.

Set Implicit Arguments.

(** ** Data model (src/types/chat.ts and the Node / Edge types of the
       rendering library) *)

Inductive MessageRole : Type :=
| user
| assistant
| system.

Record ChatMessage : Type := mkChatMessage {
  msg_role : MessageRole;
  msg_content : string
}.

Record XYPosition : Type := mkXY {
  x : Z;
  y : Z
}.

Record Viewport : Type := mkViewport {
  vx : Z;
  vy : Z;
  zoom : Z
}.

(** [onSend: (text) => handleSend(text, parentId, inputId)]: the closure is
    the pair of ids it has captured. *)
Record SendBinding : Type := mkSendBinding {
  send_parentId : string;
  send_inputId : string
}.

Record ChatNodeData : Type := mkData {
  label : option string;
  content : string;
  role : MessageRole;
  timestamp : Z;
  isInput : option bool;
  onSend : option SendBinding;
  onCancel : option string
}.

Record ChatNode : Type := mkNode {
  id : string;
  type : option string;
  position : XYPosition;
  data : ChatNodeData;
  origin : option (Q * Q)
}.

Record EdgeMarker : Type := mkMarker {
  marker_type : string
}.

Record Edge : Type := mkEdge {
  edge_id : string;
  source : string;
  target : string;
  edge_type : option string;
  markerEnd : option EdgeMarker;
  sourceHandle : option string;
  targetHandle : option string
}.

Record GraphState : Type := mkState {
  nodes : list ChatNode;
  edges : list Edge;
  viewport : Viewport
}.

Definition MarkerType_ArrowClosed : string := "arrowclosed".

(** [origin: [0.5, 0.0]] *)
Definition origin_top_centre : Q * Q := ((1 # 2)%Q, 0%Q).

(** JavaScript truthiness of a string and of a [string | null]. *)
Definition truthy (s : string) : bool := negb (s =? "")%string.

Definition truthy_opt (o : option string) : bool :=
  match o with
  | Some s => truthy s
  | None => false
  end.

(** [`${n}`] for an integer [n]: its decimal digits. *)
Definition Number_toString (n : Z) : string :=
  NilEmpty.string_of_int (Z.to_int n).

(** [getInitialNodes()] *)
Definition root_greeting : string :=
  "Hello! I am your graph-based AI assistant. Drag from this node to start a new conversation branch.".

Definition getInitialNodes (now : Z) : list ChatNode :=
  [ mkNode "root" (Some "message") (mkXY 250 50)
      (mkData None root_greeting assistant now None None None)
      None ].

Definition initialState (now : Z) : GraphState :=
  mkState (getInitialNodes now) [] (mkViewport 0 0 1).

(** ** Context resolver: [getContextForNode] *)

Definition findNode (nodeId : string) (currentNodes : list ChatNode) : option ChatNode :=
  find (fun n => (id n =? nodeId)%string) currentNodes.

Definition findParentEdge (nodeId : string) (currentEdges : list Edge) : option Edge :=
  find (fun e => (target e =? nodeId)%string) currentEdges.

Definition isMessage (node : ChatNode) : bool :=
  match type node with
  | Some t => (t =? "message")%string
  | None => false
  end.

Definition toMessage (node : ChatNode) : ChatMessage :=
  mkChatMessage (role (data node)) (content (data node)).

(** The body of [while (currentNodeId) { ... }]; [history.unshift] is a cons
    at the head.  One unit of fuel is spent per test of the loop condition. *)
Fixpoint getContextForNode_loop (fuel : nat) (currentNodeId : option string)
    (currentNodes : list ChatNode) (currentEdges : list Edge)
    (history : list ChatMessage) : option (list ChatMessage) :=
  match fuel with
  | O => None
  | S fuel' =>
      match currentNodeId with
      | None => Some history
      | Some cid =>
          if truthy cid then
            match findNode cid currentNodes with
            | None => Some history
            | Some node =>
                let history' :=
                  if isMessage node then toMessage node :: history else history in
                let next :=
                  match findParentEdge cid currentEdges with
                  | Some parentEdge => Some (source parentEdge)
                  | None => None
                  end in
                getContextForNode_loop fuel' next currentNodes currentEdges history'
            end
          else Some history
      end
  end.

Definition getContextForNode (fuel : nat) (nodeId : string)
    (currentNodes : list ChatNode) (currentEdges : list Edge)
    : option (list ChatMessage) :=
  getContextForNode_loop fuel (Some nodeId) currentNodes currentEdges [].

(** ** Branch controller

    [part_000] holds two revisions of the hook.  The embedding follows the
    first one and takes from the second what the first lacks: the connection
    handles of an edge and the [onCancel] closure of an input node. *)

(** [addEdge] belongs to the rendering library (a dependency, not
    repository code) and is modelled after the library's behaviour: an edge
    without source or target is refused, and so is one that repeats an
    existing connection (same ends, same handles, where two absent or empty
    handles count as the same); otherwise the edge is appended. *)
Definition sameHandle (a b : option string) : bool :=
  match a, b with
  | Some s, Some t => (s =? t)%string || (negb (truthy s) && negb (truthy t))
  | Some s, None | None, Some s => negb (truthy s)
  | None, None => true
  end.

Definition connectionExists (edge : Edge) (currentEdges : list Edge) : bool :=
  existsb (fun el =>
    (source el =? source edge)%string && (target el =? target edge)%string
    && sameHandle (sourceHandle el) (sourceHandle edge)
    && sameHandle (targetHandle el) (targetHandle edge)) currentEdges.

Definition addEdge (edgeParams : Edge) (currentEdges : list Edge) : list Edge :=
  if negb (truthy (source edgeParams)) || negb (truthy (target edgeParams))
  then currentEdges
  else if connectionExists edgeParams currentEdges then currentEdges
  else currentEdges ++ [edgeParams].

(** [onConnect]: connecting two existing nodes by hand. *)
Definition onConnect (params : Edge) (st : GraphState) : GraphState :=
  mkState (nodes st) (addEdge params (edges st)) (viewport st).

(** [`input-${Date.now()}`] *)
Definition inputIdOf (now_id : Z) : string := ("input-" ++ Number_toString now_id)%string.

(** The target handle facing the source handle that was used. *)
Definition oppositeHandle (handleId : string) : string :=
  if (handleId =? "left")%string then "right"
  else if (handleId =? "right")%string then "left"
  else "top".

Definition newInputNode (parentId : string) (position : XYPosition)
    (now_id now_ts : Z) : ChatNode :=
  let inputId := inputIdOf now_id in
  mkNode inputId (Some "inputNode") position
    (mkData None "" user now_ts (Some true)
       (Some (mkSendBinding parentId inputId)) (Some inputId))
    (Some origin_top_centre).

Definition newInputEdge (parentId handleId : string) (now_id : Z) : Edge :=
  let inputId := inputIdOf now_id in
  mkEdge ("e-" ++ parentId ++ "-" ++ inputId)%string parentId inputId
    (Some "smoothstep") (Some (mkMarker MarkerType_ArrowClosed))
    (Some handleId) (Some (oppositeHandle handleId)).

(** [onConnectEnd], the end of a connection drag ("startBranch").
    [connectingNodeId] and [connectingHandleId] are the two refs set by
    [onConnectStart], [targetIsPane] says whether the drag ended on the
    empty canvas, [position] is the drop position in flow coordinates, and
    [now_id] and [now_ts] are the two readings of [Date.now()]. *)
Definition onConnectEnd (connectingNodeId connectingHandleId : option string)
    (targetIsPane : bool) (position : XYPosition) (now_id now_ts : Z)
    (st : GraphState) : GraphState :=
  match connectingNodeId with
  | None => st
  | Some parentId =>
      if negb (truthy parentId) then st
      else if targetIsPane then
        let handleId :=
          match connectingHandleId with
          | Some h => if truthy h then h else "bottom"
          | None => "bottom"
          end in
        mkState (nodes st ++ [newInputNode parentId position now_id now_ts])
                (addEdge (newInputEdge parentId handleId now_id) (edges st))
                (viewport st)
      else st
  end.

(** [onCancel] of an input node: the node and the edge into it are dropped. *)
Definition onCancel_body (inputId : string) (st : GraphState) : GraphState :=
  mkState (filter (fun n => negb (id n =? inputId)%string) (nodes st))
          (filter (fun e => negb (target e =? inputId)%string) (edges st))
          (viewport st).

(** [`ai-${Date.now()}`] *)
Definition assistantIdOf (now_id : Z) : string := ("ai-" ++ Number_toString now_id)%string.

(** The first updater of [handleSend]: the input node becomes a user
    message, in place. *)
Definition toUserMessage (text inputNodeId : string) (node : ChatNode) : ChatNode :=
  if (id node =? inputNodeId)%string then
    mkNode (id node) (Some "message") (position node)
      (mkData (label (data node)) text user (timestamp (data node))
         (Some false) (onSend (data node)) (onCancel (data node)))
      (origin node)
  else node.

(** The placeholder of the reply, placed 200 below the input node when
    that node is found in the list being updated. *)
Definition assistantPlaceholder (prevNodes : list ChatNode) (inputNodeId : string)
    (now_id now_ts : Z) : ChatNode :=
  let position :=
    match findNode inputNodeId prevNodes with
    | Some inputNode => mkXY (x (position inputNode)) (y (position inputNode) + 200)
    | None => mkXY 0 0
    end in
  mkNode (assistantIdOf now_id) (Some "message") position
    (mkData None "Thinking..." assistant now_ts None None None)
    (Some origin_top_centre).

Definition assistantEdge (userNodeId : string) (now_id : Z) : Edge :=
  let assistantId := assistantIdOf now_id in
  mkEdge ("e-" ++ userNodeId ++ "-" ++ assistantId)%string userNodeId assistantId
    (Some "smoothstep") (Some (mkMarker MarkerType_ArrowClosed)) None None.

(** [handleSend(text, parentId, inputNodeId)], the part that runs before
    the request is awaited: three state updates, in this order. *)
Definition handleSend_begin (text parentId inputNodeId : string)
    (now_id now_ts : Z) (st : GraphState) : GraphState :=
  let nodes1 := map (toUserMessage text inputNodeId) (nodes st) in
  let nodes2 := nodes1 ++ [assistantPlaceholder nodes1 inputNodeId now_id now_ts] in
  mkState nodes2 (addEdge (assistantEdge inputNodeId now_id) (edges st)) (viewport st).

(** The request body: the context of the parent, resolved on the snapshot
    the closure holds, followed by the new user turn. *)
Definition contextMessages (fuel : nat) (text parentId : string)
    (closureNodes : list ChatNode) (closureEdges : list Edge)
    : option (list ChatMessage) :=
  match getContextForNode fuel parentId closureNodes closureEdges with
  | Some parentContext => Some (parentContext ++ [mkChatMessage user text])
  | None => None
  end.

(** ** JSON values as the program sees them

    [JSON.parse] and [response.json()] are represented by their result: a
    value of [json], or [None] when they throw. *)

#[local] Unset Elimination Schemes.
Inductive json : Type :=
| JNull
| JBool (b : bool)
| JNum (n : Z)
| JStr (s : string)
| JArr (items : list json)
| JObj (members : list (string * json)).
#[local] Set Elimination Schemes.

(** The result of reading [v.key]: a [TypeError] on [null], [undefined] when
    the value has no such member. *)
Inductive PropResult : Type :=
| PropThrows
| PropUndefined
| PropValue (v : json).

Definition getProp (v : json) (key : string) : PropResult :=
  match v with
  | JNull => PropThrows
  | JObj members =>
      match find (fun kv => (fst kv =? key)%string) members with
      | Some kv => PropValue (snd kv)
      | None => PropUndefined
      end
  | _ => PropUndefined
  end.

(** JavaScript truthiness of a parsed value, and of the result of a
    member read ([undefined] is falsy). *)
Definition json_truthy (v : json) : bool :=
  match v with
  | JNull => false
  | JBool b => b
  | JNum n => negb (n =? 0)%Z
  | JStr s => truthy s
  | JArr _ | JObj _ => true
  end.

Definition prop_truthy (p : PropResult) : bool :=
  match p with
  | PropValue v => json_truthy v
  | _ => false
  end.

(** ** Completion of [handleSend]: the reply write *)

(** How the request ends: [fetch] rejects, or a response arrives whose
    [ok] flag the handler never reads and whose body parses or not. *)
Inductive FetchOutcome : Type :=
| FetchThrows                                     (* [fetch] rejects *)
| FetchResponds (ok : bool) (body : option json). (* [body]: what [response.json()] yields *)

Definition fetchErrorText : string := "Error: Could not fetch response.".
Definition noResponseText : string := "Error: No response".

(** What ends up as the [content] argument of the write. *)
Inductive Written : Type :=
| WriteText (s : string)
| WriteValue (v : json).   (* a truthy [reply] that is not a string *)

(** [data.reply || "Error: No response"] inside the [try], the fixed text
    of the [catch] branch otherwise. *)
Definition replyContent (outcome : FetchOutcome) : Written :=
  match outcome with
  | FetchThrows => WriteText fetchErrorText
  | FetchResponds _ None => WriteText fetchErrorText
  | FetchResponds _ (Some data) =>
      match getProp data "reply" with
      | PropThrows => WriteText fetchErrorText
      | PropUndefined => WriteText noResponseText
      | PropValue v =>
          if json_truthy v then
            match v with
            | JStr s => WriteText s
            | _ => WriteValue v
            end
          else WriteText noResponseText
      end
  end.

(** [prevNodes.map((n) => n.id === assistantId ? {...n, data: {...n.data, content}} : n)] *)
Definition setContent (newContent : string) (n : ChatNode) : ChatNode :=
  mkNode (id n) (type n) (position n)
    (mkData (label (data n)) newContent (role (data n)) (timestamp (data n))
       (isInput (data n)) (onSend (data n)) (onCancel (data n)))
    (origin n).

(** The updater of the completion handler. *)
Definition writeContent (assistantId newContent : string)
    (prevNodes : list ChatNode) : list ChatNode :=
  map (fun n => if (id n =? assistantId)%string then setContent newContent n else n)
      prevNodes.

Definition writeReply (assistantId newContent : string) (st : GraphState) : GraphState :=
  mkState (writeContent assistantId newContent (nodes st)) (edges st) (viewport st).

(** The state after the completion handler has run; [None] when the value
    written is not a string, which [ChatNodeData] cannot hold. *)
Definition handleSend_complete (assistantId : string) (outcome : FetchOutcome)
    (st : GraphState) : option GraphState :=
  match replyContent outcome with
  | WriteText s => Some (writeReply assistantId s st)
  | WriteValue _ => None
  end.

(** [startNewConversation] *)
Definition startNewConversation (now : Z) (st : GraphState) : GraphState :=
  mkState (getInitialNodes now) [] (viewport st).

(** ** Persistence codec *)

Definition role_string (r : MessageRole) : string :=
  match r with
  | user => "user"
  | assistant => "assistant"
  | system => "system"
  end.

(** [JSON.stringify] leaves out a member whose value is [undefined]. *)
Definition member (A : Type) (key : string) (enc : A -> json) (o : option A)
    : list (string * json) :=
  match o with
  | Some a => [(key, enc a)]
  | None => []
  end.

Definition serializePosition (p : XYPosition) : json :=
  JObj [("x", JNum (x p)); ("y", JNum (y p))].

Definition serializeNode (node : ChatNode) : json :=
  JObj ([("id", JStr (id node))]
        ++ member "type" JStr (type node)
        ++ [("position", serializePosition (position node));
            ("data",
             JObj ([("role", JStr (role_string (role (data node))));
                    ("content", JStr (content (data node)));
                    ("timestamp", JNum (timestamp (data node)))]
                   ++ member "isInput" JBool (isInput (data node))
                   ++ member "label" JStr (label (data node))))]).

Definition serializeMarker (m : EdgeMarker) : json :=
  JObj [("type", JStr (marker_type m))].

Definition serializeEdge (edge : Edge) : json :=
  JObj ([("id", JStr (edge_id edge));
         ("source", JStr (source edge));
         ("target", JStr (target edge))]
        ++ member "type" JStr (edge_type edge)
        ++ member "markerEnd" serializeMarker (markerEnd edge)).

Definition serializeViewport (v : Viewport) : json :=
  JObj [("x", JNum (vx v)); ("y", JNum (vy v)); ("zoom", JNum (zoom v))].

(** [serializeState()] as the document that [JSON.stringify] writes;
    [exportedAt] is [new Date().toISOString()]. *)
Definition serializeState (exportedAt : string) (st : GraphState) : json :=
  JObj [("nodes", JArr (map serializeNode (nodes st)));
        ("edges", JArr (map serializeEdge (edges st)));
        ("viewport", serializeViewport (viewport st));
        ("exportedAt", JStr exportedAt);
        ("version", JStr "1.0")].

(** Reading a document back.  The TypeScript casts of [importState] check
    nothing at run time, so a member may hold a value of another type than
    the one declared; [Untyped] records that the element was built without
    an exception but is no [ChatNode] (or [Edge]). *)
Inductive Decoded (A : Type) : Type :=
| Throws
| Typed (a : A)
| Untyped.
Arguments Throws {A}.
Arguments Typed {A} a.
Arguments Untyped {A}.

Definition reqString (p : PropResult) : option string :=
  match p with
  | PropValue (JStr s) => Some s
  | _ => None
  end.

Definition reqNum (p : PropResult) : option Z :=
  match p with
  | PropValue (JNum n) => Some n
  | _ => None
  end.

Definition optString (p : PropResult) : option (option string) :=
  match p with
  | PropUndefined => Some None
  | PropValue (JStr s) => Some (Some s)
  | _ => None
  end.

Definition optBool (p : PropResult) : option (option bool) :=
  match p with
  | PropUndefined => Some None
  | PropValue (JBool b) => Some (Some b)
  | _ => None
  end.

Definition reqRole (p : PropResult) : option MessageRole :=
  match p with
  | PropValue (JStr s) =>
      if (s =? "user")%string then Some user
      else if (s =? "assistant")%string then Some assistant
      else if (s =? "system")%string then Some system
      else None
  | _ => None
  end.

Definition reqPosition (p : PropResult) : option XYPosition :=
  match p with
  | PropValue (JObj m) =>
      match reqNum (getProp (JObj m) "x"), reqNum (getProp (JObj m) "y") with
      | Some px, Some py => Some (mkXY px py)
      | _, _ => None
      end
  | _ => None
  end.

(** [...(node.origin && { origin: node.origin })] *)
Definition optOrigin (p : PropResult) : option (option (Q * Q)) :=
  if prop_truthy p then
    match p with
    | PropValue (JArr [JNum a; JNum b]) => Some (Some (inject_Z a, inject_Z b))
    | _ => None
    end
  else Some None.

(** [s.replace(pat, rep)] with a string pattern: the first occurrence. *)
Fixpoint replace_first (pat rep s : string) : string :=
  if String.prefix pat s then
    (rep ++ substring (String.length pat) (String.length s - String.length pat) s)%string
  else
    match s with
    | EmptyString => EmptyString
    | String c s' => String c (replace_first pat rep s')
    end.

(** The function mapped over [state.nodes].  It raises an exception when
    the element is [null] or has no [data] to read from; [onSend] is
    reattached when [isInput] is true (and [onCancel] with it, as in the
    second revision), with the parent id cut out of the node's own id. *)
Definition decodeNode (node : json) : Decoded ChatNode :=
  match getProp node "data" with
  | PropThrows => Throws
  | PropUndefined => Throws
  | PropValue JNull => Throws
  | PropValue d =>
      match reqString (getProp node "id"), optString (getProp node "type"),
            reqPosition (getProp node "position"), optOrigin (getProp node "origin") with
      | Some nid, Some ty, Some pos, Some org =>
          match reqRole (getProp d "role"), reqString (getProp d "content"),
                reqNum (getProp d "timestamp"), optBool (getProp d "isInput"),
                optString (getProp d "label") with
          | Some r, Some c, Some ts, Some inp, Some lbl =>
              let reattach := match inp with Some true => true | _ => false end in
              Typed (mkNode nid ty pos
                       (mkData lbl c r ts inp
                          (if reattach
                           then Some (mkSendBinding (replace_first "input-" "" nid) nid)
                           else None)
                          (if reattach then Some nid else None))
                       org)
          | _, _, _, _, _ => Untyped
          end
      | _, _, _, _ => Untyped
      end
  end.

(** [edge.type || "smoothstep"], [edge.markerEnd || { type: ArrowClosed }] *)
Definition edgeTypeOrDefault (p : PropResult) : option string :=
  if prop_truthy p then reqString p else Some "smoothstep".

Definition markerOrDefault (p : PropResult) : option EdgeMarker :=
  if prop_truthy p then
    match p with
    | PropValue (JObj m) =>
        match reqString (getProp (JObj m) "type") with
        | Some t => Some (mkMarker t)
        | None => None
        end
    | _ => None
    end
  else Some (mkMarker MarkerType_ArrowClosed).

(** The function mapped over [state.edges]; it raises an exception only on
    [null]. *)
Definition decodeEdge (edge : json) : Decoded Edge :=
  match edge with
  | JNull => Throws
  | _ =>
      match reqString (getProp edge "id"), reqString (getProp edge "source"),
            reqString (getProp edge "target"), edgeTypeOrDefault (getProp edge "type"),
            markerOrDefault (getProp edge "markerEnd") with
      | Some eid, Some src, Some tgt, Some ty, Some mk =>
          Typed (mkEdge eid src tgt (Some ty) (Some mk) None None)
      | _, _, _, _, _ => Untyped
      end
  end.

(** [items.map(dec)]: the first exception aborts the whole map. *)
Fixpoint decodeAll (A : Type) (dec : json -> Decoded A) (items : list json)
    : Decoded (list A) :=
  match items with
  | [] => Typed []
  | item :: rest =>
      match dec item with
      | Throws => Throws
      | Typed a =>
          match decodeAll dec rest with
          | Throws => Throws
          | Typed l => Typed (a :: l)
          | Untyped => Untyped
          end
      | Untyped =>
          match decodeAll dec rest with
          | Throws => Throws
          | _ => Untyped
          end
      end
  end.

(** [(v as T[]).map(dec)]: a value without a callable [map] throws. *)
Definition decodeArray (A : Type) (dec : json -> Decoded A) (v : json)
    : Decoded (list A) :=
  match v with
  | JArr items => decodeAll dec items
  | _ => Throws
  end.

(** A piece of React state after a write that was never checked against
    the declared type: it holds a value of the type, or some other value. *)
Inductive Slot (A : Type) : Type :=
| Holds (a : A)
| HoldsUntyped.
Arguments Holds {A} a.
Arguments HoldsUntyped {A}.

Record Store : Type := mkStore {
  store_nodes : Slot (list ChatNode);
  store_edges : Slot (list Edge);
  store_viewport : Slot Viewport
}.

Definition storeOf (st : GraphState) : Store :=
  mkStore (Holds (nodes st)) (Holds (edges st)) (Holds (viewport st)).

Definition decodeViewport (p : PropResult) : Slot Viewport :=
  match p with
  | PropValue (JObj m) =>
      match reqNum (getProp (JObj m) "x"), reqNum (getProp (JObj m) "y"),
            reqNum (getProp (JObj m) "zoom") with
      | Some a, Some b, Some c => Holds (mkViewport a b c)
      | _, _, _ => HoldsUntyped
      end
  | _ => HoldsUntyped
  end.

(** The body of the [try] block runs in a state-and-exception monad: the
    store is threaded through, and an exception keeps the store as it was
    when it was raised. *)
Inductive Completion (A : Type) : Type :=
| Normal (a : A)
| Abrupt.
Arguments Normal {A} a.
Arguments Abrupt {A}.

Definition Eff (A : Type) : Type := Store -> Completion A * Store.

Definition ret (A : Type) (a : A) : Eff A := fun s => (Normal a, s).

Definition bind (A B : Type) (c : Eff A) (k : A -> Eff B) : Eff B :=
  fun s =>
    match c s with
    | (Normal a, s') => k a s'
    | (Abrupt, s') => (Abrupt, s')
    end.

Definition throw (A : Type) : Eff A := fun s => (Abrupt, s).

Notation "x <- c ;; k" := (bind c (fun x => k))
  (at level 61, c at next level, right associativity).
Notation "c ;;; k" := (bind c (fun _ => k))
  (at level 61, right associativity).

Definition JSON_parse (parsed : option json) : Eff json :=
  match parsed with
  | Some v => ret v
  | None => throw json
  end.

Definition readProp (v : json) (key : string) : Eff PropResult :=
  match getProp v key with
  | PropThrows => throw PropResult
  | p => ret p
  end.

Definition mapArray (A : Type) (dec : json -> Decoded A) (p : PropResult)
    : Eff (Slot (list A)) :=
  match p with
  | PropValue v =>
      match decodeArray dec v with
      | Throws => throw (Slot (list A))
      | Typed l => ret (Holds l)
      | Untyped => ret HoldsUntyped
      end
  | _ => throw (Slot (list A))
  end.

Definition setNodes (v : Slot (list ChatNode)) : Eff unit :=
  fun s => (Normal tt, mkStore v (store_edges s) (store_viewport s)).

Definition setEdges (v : Slot (list Edge)) : Eff unit :=
  fun s => (Normal tt, mkStore (store_nodes s) v (store_viewport s)).

Definition setViewport (v : Slot Viewport) : Eff unit :=
  fun s => (Normal tt, mkStore (store_nodes s) (store_edges s) v).

Definition importState_try (parsed : option json) : Eff bool :=
  state <- JSON_parse parsed ;;
  ns <- readProp state "nodes" ;;
  (if negb (prop_truthy ns) then throw unit else
     es <- readProp state "edges" ;;
     if negb (prop_truthy es) then throw unit else ret tt) ;;;
  es <- readProp state "edges" ;;
  restoredNodes <- mapArray decodeNode ns ;;
  restoredEdges <- mapArray decodeEdge es ;;
  setNodes restoredNodes ;;;
  setEdges restoredEdges ;;;
  vp <- readProp state "viewport" ;;
  (if prop_truthy vp then setViewport (decodeViewport vp) else ret tt) ;;;
  ret true.

(** [importState(jsonString)], on the result of [JSON.parse(jsonString)]:
    the [catch] branch returns [false]. *)
Definition importState (parsed : option json) (s : Store) : bool * Store :=
  match importState_try parsed s with
  | (Normal b, s') => (b, s')
  | (Abrupt, s') => (false, s')
  end.

(** ** Keyboard navigation ([handleKeyDown] of the [ChatGraph] component)

    The state is [focusedNodeIdRef.current]; what follows is the branch of
    the handler taken for Tab and the four arrow keys without modifier. *)

Inductive NavKey : Type :=
| Tab
| ArrowUp
| ArrowDown
| ArrowLeft
| ArrowRight.

(** [Array.prototype.sort(cmp)] is stable: an insertion sort that keeps the
    earlier of two elements which compare equal in front. *)
Section Sort.
Variable A : Type.
Variable cmp : A -> A -> Z.

Fixpoint insertBy (a : A) (l : list A) : list A :=
  match l with
  | [] => [a]
  | b :: l' => if (cmp a b <=? 0)%Z then a :: b :: l' else b :: insertBy a l'
  end.

Fixpoint sortBy (l : list A) : list A :=
  match l with
  | [] => []
  | a :: l' => insertBy a (sortBy l')
  end.
End Sort.

(** [n || 0] on a number *)
Definition orZero (n : Z) : Z := if (n =? 0)%Z then 0%Z else n.

Definition byTimestampAsc (a b : ChatNode) : Z :=
  (orZero (timestamp (data a)) - orZero (timestamp (data b)))%Z.

Definition byTimestampDesc (a b : ChatNode) : Z :=
  (orZero (timestamp (data b)) - orZero (timestamp (data a)))%Z.

Definition byTimestampTab (a b : ChatNode) : Z :=
  (timestamp (data a) - timestamp (data b))%Z.

(** [l.findIndex(f)]: -1 when no element satisfies [f]. *)
Fixpoint findIndex (A : Type) (f : A -> bool) (l : list A) : Z :=
  match l with
  | [] => (-1)%Z
  | a :: l' =>
      if f a then 0%Z
      else let i := findIndex f l' in if (i <? 0)%Z then (-1)%Z else (i + 1)%Z
  end.

(** [l[i]]: [undefined] out of range. *)
Definition at_index (A : Type) (l : list A) (i : Z) : option A :=
  if (i <? 0)%Z then None else nth_error l (Z.to_nat i).

(** [l.filter(Boolean)] on a list of [ChatNode | undefined] *)
Fixpoint filterBoolean (A : Type) (l : list (option A)) : list A :=
  match l with
  | [] => []
  | Some a :: l' => a :: filterBoolean l'
  | None :: l' => filterBoolean l'
  end.

(** [es.map((e) => currentNodes.find((n) => n.id === e.target)).filter(Boolean)] *)
Definition targetNodes (es : list Edge) (currentNodes : list ChatNode) : list ChatNode :=
  filterBoolean (map (fun e => findNode (target e) currentNodes) es).

Definition outgoingEdges (nodeId : string) (currentEdges : list Edge) : list Edge :=
  filter (fun e => (source e =? nodeId)%string) currentEdges.

(** [focusNode(nodeId)]: the ref is set only when the node exists. *)
Definition focusNode (nodeId : string) (currentNodes : list ChatNode)
    (focused : option string) : option string :=
  match findNode nodeId currentNodes with
  | Some _ => Some nodeId
  | None => focused
  end.

(** The start of the move: the focused id, or the default when nothing is
    focused or the focused node is gone. *)
Definition startNodeId (currentNodes : list ChatNode) (focused : option string)
    : option string :=
  let found :=
    match focused with
    | Some f => if truthy f then findNode f currentNodes else None
    | None => None
    end in
  match found, focused with
  | Some _, Some f => Some f
  | _, _ =>
      match findNode "root" currentNodes with
      | Some root => Some (id root)
      | None =>
          match currentNodes with
          | first :: _ => Some (id first)
          | [] => None
          end
      end
  end.

(** The siblings of [currentNodeId] below its parent, oldest first. *)
Definition siblingsOf (parentId : string) (currentNodes : list ChatNode)
    (currentEdges : list Edge) : list ChatNode :=
  sortBy byTimestampAsc (targetNodes (outgoingEdges parentId currentEdges) currentNodes).

(** [nextNodeId] as the key computes it from [currentNodeId]. *)
Definition nextNodeId (key : NavKey) (currentNodeId : string)
    (currentNodes : list ChatNode) (currentEdges : list Edge) : option string :=
  match key with
  | Tab =>
      let sortedNodes := sortBy byTimestampTab currentNodes in
      let currentIndex := findIndex (fun n => (id n =? currentNodeId)%string) sortedNodes in
      let nextIndex := ((currentIndex + 1) mod (Z.of_nat (List.length sortedNodes)))%Z in
      match at_index sortedNodes nextIndex with
      | Some n => Some (id n)
      | None => None
      end
  | ArrowDown =>
      let children :=
        sortBy byTimestampDesc
          (targetNodes (outgoingEdges currentNodeId currentEdges) currentNodes) in
      match children with
      | child :: _ => Some (id child)
      | [] => None
      end
  | ArrowUp =>
      match findParentEdge currentNodeId currentEdges with
      | Some incomingEdge => Some (source incomingEdge)
      | None => None
      end
  | ArrowLeft | ArrowRight =>
      match findParentEdge currentNodeId currentEdges with
      | Some incomingEdge =>
          let siblings := siblingsOf (source incomingEdge) currentNodes currentEdges in
          let currentIndex := findIndex (fun n => (id n =? currentNodeId)%string) siblings in
          if (currentIndex =? -1)%Z then None
          else
            let nextIndex :=
              match key with
              | ArrowLeft => (currentIndex - 1)%Z
              | _ => (currentIndex + 1)%Z
              end in
            match at_index siblings nextIndex with
            | Some n => Some (id n)
            | None => None
            end
      | None => None
      end
  end.

(** The new value of the focus ref after the key. *)
Definition handleKeyDown (key : NavKey) (currentNodes : list ChatNode)
    (currentEdges : list Edge) (focused : option string) : option string :=
  match startNodeId currentNodes focused with
  | None => focused                       (* [currentNodes.length === 0] *)
  | Some currentNodeId =>
      match nextNodeId key currentNodeId currentNodes currentEdges with
      | Some next =>
          if truthy next then focusNode next currentNodes focused
          else if negb (truthy_opt focused)
               then focusNode currentNodeId currentNodes focused
               else focused
      | None =>
          if negb (truthy_opt focused)
          then focusNode currentNodeId currentNodes focused
          else focused
      end
  end.

(** Cmd/Ctrl + ArrowUp: the node ["root"], else the oldest node. *)
Definition jumpToRoot (currentNodes : list ChatNode) (focused : option string)
    : option string :=
  match currentNodes with
  | [] => focused
  | _ =>
      let targetNode :=
        match findNode "root" currentNodes with
        | Some r => Some r
        | None => hd_error (sortBy byTimestampAsc currentNodes)
        end in
      match targetNode with
      | Some t => focusNode (id t) currentNodes focused
      | None => focused
      end
  end.

(** ** More of the keyboard handler *)

(** Cmd/Ctrl + ArrowDown: the most recent node of the whole snapshot. *)
Definition jumpToLatest (currentNodes : list ChatNode) (focused : option string)
    : option string :=
  match currentNodes with
  | [] => focused
  | _ =>
      match sortBy byTimestampDesc currentNodes with
      | latest :: _ => focusNode (id latest) currentNodes focused
      | [] => focused
      end
  end.

(** Cmd/Ctrl + "=": the assistant node that gets the new input node, the
    most recent of the assistant nodes. *)
Definition isAssistant (n : ChatNode) : bool :=
  match role (data n) with
  | assistant => true
  | _ => false
  end.

Definition mostRecentAssistant (currentNodes : list ChatNode) : option ChatNode :=
  hd_error (sortBy byTimestampDesc (filter isAssistant currentNodes)).

(** ** The durable slot ([localStorage] under [STORAGE_KEY])

    The slot holds no item, or a text, which is represented by what
    [JSON.parse] makes of it ([None] when it does not parse; the empty
    text, which [loadFromLocalStorage] skips, does not parse either). *)
Definition LocalStorage : Type := option (option json).

(** [saveToLocalStorage()]; [setItem] may throw (quota), which is logged and
    swallowed. *)
Definition saveToLocalStorage (exportedAt : string) (setItemThrows : bool)
    (st : GraphState) (slot : LocalStorage) : LocalStorage :=
  if setItemThrows then slot else Some (Some (serializeState exportedAt st)).

(** [loadFromLocalStorage()] *)
Definition loadFromLocalStorage (slot : LocalStorage) (s : Store) : bool * Store :=
  match slot with
  | Some savedState => importState savedState s
  | None => (false, s)
  end.

(** ** Edge handles while a node is dragged: [getOptimalHandles], [onNodeDrag]

    The size that the rendering library has measured for a node is not part
    of [ChatNode]; it is read through [measured]. *)

Record Measured : Type := mkMeasured {
  measured_width : option Z;
  measured_height : option Z
}.

(** [v || d] on a number that may be missing. *)
Definition orElse (v : option Z) (d : Z) : Z :=
  match v with
  | Some w => if (w =? 0)%Z then d else w
  | None => d
  end.

(** [node.measured?.width] and [node.measured?.height] *)
Definition widthOf (measured : ChatNode -> option Measured) (n : ChatNode) : option Z :=
  match measured n with
  | Some m => measured_width m
  | None => None
  end.

Definition heightOf (measured : ChatNode -> option Measured) (n : ChatNode) : option Z :=
  match measured n with
  | Some m => measured_height m
  | None => None
  end.

Definition centerX (measured : ChatNode -> option Measured) (n : ChatNode) : Q :=
  (inject_Z (x (position n)) + inject_Z (orElse (widthOf measured n) 300) / 2)%Q.

Definition centerY (measured : ChatNode -> option Measured) (n : ChatNode) : Q :=
  (inject_Z (y (position n)) + inject_Z (orElse (heightOf measured n) 100) / 2)%Q.

(** [a > b] on numbers. *)
Definition Qgtb (a b : Q) : bool := negb (Qle_bool a b).

Definition getOptimalHandles (measured : ChatNode -> option Measured)
    (sourceNode targetNode : ChatNode) : string * string :=
  let dx := (centerX measured targetNode - centerX measured sourceNode)%Q in
  let dy := (centerY measured targetNode - centerY measured sourceNode)%Q in
  if Qgtb (Qabs dx) (Qabs dy) then
    if Qgtb dx 0 then ("right", "left") else ("left", "right")
  else
    if Qgtb dy 0 then ("bottom", "top") else ("bottom", "top").

Definition hasType (t : string) (n : ChatNode) : bool :=
  match type n with
  | Some t' => (t' =? t)%string
  | None => false
  end.

(** The handle id on the side of the target: message nodes name their
    incoming side handles [left-target] and [right-target]. *)
Definition finalTargetHandle (targetNode : ChatNode) (target : string) : string :=
  if hasType "message" targetNode
     && ((target =? "left")%string || (target =? "right")%string)
  then (target ++ "-target")%string
  else if hasType "inputNode" targetNode then target
  else if (target =? "top")%string then "top"
  else target.

(** [edge.sourceHandle !== source] *)
Definition handleDiffers (current : option string) (wanted : string) : bool :=
  match current with
  | Some h => negb (h =? wanted)%string
  | None => true
  end.

(** The end of the edge with the given id: the dragged node itself, or the
    node of that id in the list the callback has closed over. *)
Definition endNode (node : ChatNode) (closureNodes : list ChatNode) (endId : string)
    : option ChatNode :=
  if (endId =? id node)%string then Some node else findNode endId closureNodes.

(** The function mapped over the edges. *)
Definition dragEdge (measured : ChatNode -> option Measured) (node : ChatNode)
    (closureNodes : list ChatNode) (edge : Edge) : Edge :=
  if (source edge =? id node)%string || (target edge =? id node)%string then
    match endNode node closureNodes (source edge),
          endNode node closureNodes (target edge) with
    | Some sourceNode, Some targetNode =>
        let (source_h, target_h) := getOptimalHandles measured sourceNode targetNode in
        let final := finalTargetHandle targetNode target_h in
        if handleDiffers (sourceHandle edge) source_h
           || handleDiffers (targetHandle edge) final
        then mkEdge (edge_id edge) (source edge) (target edge) (edge_type edge)
               (markerEnd edge) (Some source_h) (Some final)
        else edge
    | _, _ => edge
    end
  else edge.


(** ** Text helpers

    A string is a sequence of code units below 256; among these the white
    space of [String.prototype.trim] and of the regular expression class
    [\s] is: tab, line feed, vertical tab, form feed, carriage return,
    space and no-break space. *)

Definition isWhiteSpace (c : ascii) : bool :=
  let n := nat_of_ascii c in
  ((9 <=? n)%nat && (n <=? 13)%nat) || (n =? 32)%nat || (n =? 160)%nat.

Fixpoint trimStart (s : string) : string :=
  match s with
  | EmptyString => EmptyString
  | String c s' => if isWhiteSpace c then trimStart s' else s
  end.

Fixpoint trimEnd (s : string) : string :=
  match s with
  | EmptyString => EmptyString
  | String c s' =>
      match trimEnd s' with
      | EmptyString => if isWhiteSpace c then EmptyString else String c EmptyString
      | rest => String c rest
      end
  end.

(** [s.trim()] *)
Definition trim (s : string) : string := trimEnd (trimStart s).

(** ** The input node (src/app/components/nodes/InputNode.tsx)

    The component state ([text], [mode]) is passed explicitly; a call of
    one of the closures of the node data is returned as a value. *)

Inductive ResponseMode : Type :=
| concise
| regular
| explanatory.

Definition MODE_PREFIXES (mode : ResponseMode) : string :=
  match mode with
  | concise => "Be concise and brief in your response. "
  | regular => ""
  | explanatory => "Please provide a detailed and explanatory response. "
  end.

Definition ResponseMode_eqb (a b : ResponseMode) : bool :=
  match a, b with
  | concise, concise | regular, regular | explanatory, explanatory => true
  | _, _ => false
  end.

Inductive Direction : Type :=
| dir_next
| dir_prev.

Definition modes : list ResponseMode := [concise; regular; explanatory].

(** [cycleMode(direction)]: the mode that [setMode] receives.  [modes[i]]
    is [undefined] out of range, which leaves no mode to set; the index
    computed here is always in range. *)
Definition cycleMode (direction : Direction) (mode : ResponseMode) : ResponseMode :=
  let currentIndex := findIndex (ResponseMode_eqb mode) modes in
  let newIndex :=
    match direction with
    | dir_next => Z.rem (currentIndex + 1) (Z.of_nat (List.length modes))
    | dir_prev =>
        if (currentIndex =? 0)%Z then (Z.of_nat (List.length modes) - 1)%Z
        else (currentIndex - 1)%Z
    end in
  match at_index modes newIndex with
  | Some m => m
  | None => mode
  end.

Record InputState : Type := mkInput {
  input_text : string;
  input_mode : ResponseMode
}.

Inductive Call : Type :=
| CallOnSend (modifiedText : string)
| CallOnCancel.

Definition present (A : Type) (o : option A) : bool :=
  match o with
  | Some _ => true
  | None => false
  end.

(** [handleSend()] of the input node *)
Definition InputNode_handleSend (nodeData : ChatNodeData) (s : InputState)
    : InputState * list Call :=
  if truthy (trim (input_text s)) && present (onSend nodeData) then
    (mkInput "" (input_mode s),
     [CallOnSend (MODE_PREFIXES (input_mode s) ++ input_text s)%string])
  else (s, []).

Record KeyEvent : Type := mkKeyEvent {
  ev_key : string;
  metaKey : bool;
  ctrlKey : bool;
  shiftKey : bool
}.

(** [handleKeyDown(e)] of the input node *)
Definition InputNode_handleKeyDown (e : KeyEvent) (nodeData : ChatNodeData)
    (s : InputState) : InputState * list Call :=
  if (metaKey e || ctrlKey e) && (ev_key e =? "]")%string then
    (mkInput (input_text s) (cycleMode dir_next (input_mode s)), [])
  else if (metaKey e || ctrlKey e) && (ev_key e =? "[")%string then
    (mkInput (input_text s) (cycleMode dir_prev (input_mode s)), [])
  else
    let sent :=
      if (ev_key e =? "Enter")%string && negb (shiftKey e)
      then InputNode_handleSend nodeData s
      else (s, []) in
    let cancelled :=
      if (ev_key e =? "Escape")%string then
        if (trim (input_text s) =? "")%string && present (onCancel nodeData)
        then [CallOnCancel] else []
      else [] in
    (fst sent, snd sent ++ cancelled).

(** The events of the component that reach its handlers: a key pressed in
    the text area ([onKeyDown]), a click on the Ask button ([onClick], the
    button being disabled while the text is blank), an edit of the text
    ([onChange]). *)
Inductive InputEvent : Type :=
| KeyPressed (e : KeyEvent)
| AskClicked
| TextChanged (value : string).

Definition InputNode_onEvent (ev : InputEvent) (nodeData : ChatNodeData)
    (s : InputState) : InputState * list Call :=
  match ev with
  | KeyPressed e => InputNode_handleKeyDown e nodeData s
  | AskClicked =>
      if negb (truthy (trim (input_text s))) then (s, [])
      else InputNode_handleSend nodeData s
  | TextChanged value => (mkInput value (input_mode s), [])
  end.

(** The closure of the node data that a call runs, on the graph: [onSend]
    is [handleSend] with the ids the closure has captured (up to the
    request), [onCancel] removes the node. *)
Definition runCall (nodeData : ChatNodeData) (call : Call) (now_id now_ts : Z)
    (st : GraphState) : GraphState :=
  match call with
  | CallOnSend modifiedText =>
      match onSend nodeData with
      | Some binding =>
          handleSend_begin modifiedText (send_parentId binding) (send_inputId binding)
            now_id now_ts st
      | None => st
      end
  | CallOnCancel =>
      match onCancel nodeData with
      | Some inputId => onCancel_body inputId st
      | None => st
      end
  end.

(** ** The backend route: [POST] of /api/chat

    What the handler receives is represented by its outcome: [req.json()]
    and the call of the completions API either throw or yield a value.  A
    thrown value is an [Error] with its message, or something else.  The
    text of the system message and the message of the [TypeError] of a
    member read on [undefined] or [null] are arguments. *)















(** ** The node search overlay (src/app/components/NodeSearchOverlay.tsx) *)

(** [toLowerCase] on a code unit below 256. *)
Definition lowerUnit (c : ascii) : ascii :=
  let n := nat_of_ascii c in
  if ((65 <=? n)%nat && (n <=? 90)%nat)
     || ((192 <=? n)%nat && (n <=? 222)%nat && negb (n =? 215)%nat)
  then ascii_of_nat (n + 32) else c.

Fixpoint toLowerCase (s : string) : string :=
  match s with
  | EmptyString => EmptyString
  | String c s' => String (lowerUnit c) (toLowerCase s')
  end.

(** [s.replace(/\s+/g, " ")]; [inRun] tells that the unit before was white
    space. *)
Fixpoint collapseWhiteSpace (inRun : bool) (s : string) : string :=
  match s with
  | EmptyString => EmptyString
  | String c s' =>
      if isWhiteSpace c then
        if inRun then collapseWhiteSpace true s'
        else String " " (collapseWhiteSpace true s')
      else String c (collapseWhiteSpace false s')
  end.

Definition normalizeText (s : string) : string :=
  trim (collapseWhiteSpace false (toLowerCase s)).

(** [[label, role, content].filter(Boolean).join(" ").trim()] *)
Definition getNodeSearchText (node : ChatNode) : string :=
  let label_text := match label (data node) with Some l => l | None => "" end in
  trim (String.concat " "
          (filter truthy [label_text; role_string (role (data node));
                          content (data node)])).

Inductive MatchType : Type :=
| substring_match
| subsequence_match.

Record ScoreResult : Type := mkScore {
  score : Z;
  matchType : MatchType
}.

(** The loop of the subsequence match: [ti] is where the search for the
    next character starts, [gaps] the characters skipped so far; [None]
    when a character is not found. *)
Fixpoint subsequenceGaps (query text : string) (ti gaps : nat) : option nat :=
  match query with
  | EmptyString => Some gaps
  | String ch rest =>
      match index ti (String ch EmptyString) text with
      | None => None
      | Some foundAt =>
          subsequenceGaps rest text (foundAt + 1) (gaps + Nat.max 0 (foundAt - ti))
      end
  end.

(** [scoreMatch(queryRaw, textRaw)]; a lower score is a better match. *)
Definition scoreMatch (queryRaw textRaw : string) : option ScoreResult :=
  let query := normalizeText queryRaw in
  let text := normalizeText textRaw in
  if negb (truthy query) then None
  else if negb (truthy text) then None
  else
    let excess :=
      Z.max 0 (Z.of_nat (String.length text) - Z.of_nat (String.length query)) in
    match index 0 query text with
    | Some idx =>
        Some (mkScore (Z.of_nat idx * 10 + Z.min 2000 excess) substring_match)
    | None =>
        match subsequenceGaps query text 0 0 with
        | None => None
        | Some gaps =>
            Some (mkScore (2000 + Z.of_nat gaps * 5 + excess) subsequence_match)
        end
    end.

Record SearchResult : Type := mkResult {
  result_node : ChatNode;
  result_score : Z;
  result_matchType : MatchType
}.

(** The loop that collects the nodes with a match. *)
Fixpoint ranked (q : string) (searchedNodes : list ChatNode) : list SearchResult :=
  match searchedNodes with
  | [] => []
  | node :: rest =>
      match scoreMatch q (getNodeSearchText node) with
      | None => ranked q rest
      | Some scored => mkResult node (score scored) (matchType scored) :: ranked q rest
      end
  end.

Definition byScore (a b : SearchResult) : Z := (result_score a - result_score b)%Z.

(** The [results] memo. *)
Definition searchResults (searchedNodes : list ChatNode) (query : string)
    : list SearchResult :=
  let q := normalizeText query in
  if negb (truthy q) then []
  else firstn 12 (sortBy byScore (ranked q searchedNodes)).

Definition safeSelectedIndex (results : list SearchResult) (selectedIndex : Z) : Z :=
  if (Z.of_nat (List.length results) =? 0)%Z then (-1)%Z
  else Z.min (Z.max selectedIndex 0) (Z.of_nat (List.length results) - 1).

Definition selected (results : list SearchResult) (selectedIndex : Z)
    : option SearchResult :=
  if (0 <=? safeSelectedIndex results selectedIndex)%Z
  then at_index results (safeSelectedIndex results selectedIndex)
  else None.

Inductive OverlayCall : Type :=
| CallOnClose
| CallOnSelectNode (nodeId : string).

(** [handleKeyDown(e)] of the overlay: the new [selectedIndex] and the
    callback that is called. *)
Definition Overlay_handleKeyDown (pressed : string) (results : list SearchResult)
    (selectedIndex : Z) : Z * list OverlayCall :=
  let count := Z.of_nat (List.length results) in
  if (pressed =? "Escape")%string then (selectedIndex, [CallOnClose])
  else if (pressed =? "ArrowDown")%string then
    if (count =? 0)%Z then (selectedIndex, [])
    else (Z.rem (selectedIndex + 1) count, [])
  else if (pressed =? "ArrowUp")%string then
    if (count =? 0)%Z then (selectedIndex, [])
    else (Z.rem (selectedIndex - 1 + count) count, [])
  else if (pressed =? "Enter")%string then
    match selected results selectedIndex with
    | None => (selectedIndex, [])
    | Some r => (selectedIndex, [CallOnSelectNode (id (result_node r))])
    end
  else (selectedIndex, []).

(** * Vocabulary of the properties

    Definitions used to state the properties, and the concrete states on
    which they are exercised. *)

(** The state after one branch has been started below the root and
    submitted: the assistant node still shows its placeholder. *)
Definition placeholderState : GraphState :=
  handleSend_begin "hi" "root" (inputIdOf 1000) 2000 2000
    (onConnectEnd (Some "root") None true (mkXY 0 0) 1000 1000 (initialState 1)).

(** ** Persistence *)

(** What [importState] rebuilds from a serialised node: the data members,
    no [origin], and the two closures again when [isInput] is true. *)
Definition restoredNode (n : ChatNode) : ChatNode :=
  let reattach := match isInput (data n) with Some true => true | _ => false end in
  mkNode (id n) (type n) (position n)
    (mkData (label (data n)) (content (data n)) (role (data n))
       (timestamp (data n)) (isInput (data n))
       (if reattach
        then Some (mkSendBinding (replace_first "input-" "" (id n)) (id n))
        else None)
       (if reattach then Some (id n) else None))
    None.

(** What it rebuilds from a serialised edge: the handles are gone, and a
    missing type or marker is replaced by the default. *)
Definition restoredEdge (e : Edge) : Edge :=
  mkEdge (edge_id e) (source e) (target e)
    (Some (match edge_type e with
           | Some t => if truthy t then t else "smoothstep"
           | None => "smoothstep"
           end))
    (Some (match markerEnd e with
           | Some m => m
           | None => mkMarker MarkerType_ArrowClosed
           end))
    None None.

(** The elements on which the two mapping functions raise an exception: a
    node that is [null] or whose [data] is missing or [null]; an edge that
    is [null]. *)
Definition nodeElementThrows (v : json) : bool :=
  match getProp v "data" with
  | PropValue JNull => true
  | PropValue _ => false
  | _ => true
  end.

Definition edgeElementThrows (v : json) : bool :=
  match v with
  | JNull => true
  | _ => false
  end.

(** A member that is an array on none of whose elements the mapping
    function raises an exception. *)
Definition arrayAccepted (elementThrows : json -> bool) (p : PropResult) : bool :=
  match p with
  | PropValue (JArr items) => forallb (fun v => negb (elementThrows v)) items
  | _ => false
  end.

(** The documents that [importState] accepts. *)
Definition accepts (parsed : option json) : bool :=
  match parsed with
  | None => false
  | Some doc =>
      arrayAccepted nodeElementThrows (getProp doc "nodes")
      && arrayAccepted edgeElementThrows (getProp doc "edges")
  end.

(** ** The ancestor chain *)

(** The parent of an id: the source of the first edge that targets it. *)
Definition parentOf (cid : string) (currentEdges : list Edge) : option string :=
  match findParentEdge cid currentEdges with
  | Some parentEdge => Some (source parentEdge)
  | None => None
  end.

(** The (role, content) pairs of the message nodes of a path. *)
Definition messagesOf (path : list ChatNode) : list ChatMessage :=
  map toMessage (filter isMessage path).

(** The nodes that the walk visits, root first.  The walk ends at [null],
    at an empty id, at an id that no node of the list has, and after a node
    into which no edge leads; the parent of a node is the source of the
    first edge of the list that targets it. *)
Inductive AncestorChain (ns : list ChatNode) (es : list Edge)
    : option string -> list ChatNode -> Prop :=
| chain_null : AncestorChain ns es None []
| chain_falsy (cid : string) :
    truthy cid = false -> AncestorChain ns es (Some cid) []
| chain_missing (cid : string) :
    truthy cid = true -> findNode cid ns = None -> AncestorChain ns es (Some cid) []
| chain_step (cid : string) (node : ChatNode) (path : list ChatNode) :
    truthy cid = true -> findNode cid ns = Some node ->
    AncestorChain ns es (parentOf cid es) path ->
    AncestorChain ns es (Some cid) (path ++ [node]).

(** ** Operations on the graph *)

(** The operations of the branch controller, with the clock readings they
    take. *)
Inductive Op : Type :=
| StartBranch (parentId : string) (handleId : option string)
    (dropPosition : XYPosition) (now_id now_ts : Z)
| Submit (text parentId inputNodeId : string) (now_id now_ts : Z)
| Reply (assistantId text : string)
| Cancel (inputId : string).

Definition applyOp (op : Op) (st : GraphState) : GraphState :=
  match op with
  | StartBranch parentId handleId dropPosition now_id now_ts =>
      onConnectEnd (Some parentId) handleId true dropPosition now_id now_ts st
  | Submit text parentId inputNodeId now_id now_ts =>
      handleSend_begin text parentId inputNodeId now_id now_ts st
  | Reply assistantId text => writeReply assistantId text st
  | Cancel inputId => onCancel_body inputId st
  end.

Definition run (ops : list Op) (st : GraphState) : GraphState :=
  fold_left (fun s op => applyOp op s) ops st.

(** The clock readings that name the input nodes and the assistant nodes. *)
Definition inputReadingOf (op : Op) : list Z :=
  match op with
  | StartBranch _ _ _ now_id _ => [now_id]
  | _ => []
  end.

Definition assistantReadingOf (op : Op) : list Z :=
  match op with
  | Submit _ _ _ now_id _ => [now_id]
  | _ => []
  end.

Definition inputReadings (ops : list Op) : list Z := flat_map inputReadingOf ops.

Definition assistantReadings (ops : list Op) : list Z := flat_map assistantReadingOf ops.

(** The number of edges into a node. *)
Definition inDegree (nodeId : string) (es : list Edge) : nat :=
  List.length (filter (fun e => (target e =? nodeId)%string) es).

(** Every edge target was named by one of the readings seen so far. *)
Definition namedBy (seenInput seenAssistant : list Z) (es : list Edge) : Prop :=
  forall e, In e es ->
    (exists k, In k seenInput /\ target e = inputIdOf k) \/
    (exists k, In k seenAssistant /\ target e = assistantIdOf k).

(** Two branches below the root and one below the first reply, one of them
    cancelled. *)
Definition branchAndCancel : list Op :=
  [ StartBranch "root" None (mkXY 0 300) 1000 1000;
    Submit "hi" "root" (inputIdOf 1000) 2000 2000;
    Reply (assistantIdOf 2000) "hello";
    StartBranch (assistantIdOf 2000) (Some "right") (mkXY 400 500) 3000 3001;
    StartBranch "root" None (mkXY 600 300) 4000 4000;
    Cancel (inputIdOf 3000);
    Submit "again" "root" (inputIdOf 4000) 5000 5001 ].

(** Two branches below the root, submitted within the same millisecond. *)
Definition sameMillisecond : list Op :=
  [ StartBranch "root" None (mkXY 0 300) 1 1;
    StartBranch "root" None (mkXY 300 300) 2 2;
    Submit "a" "root" (inputIdOf 1) 5 5;
    Submit "b" "root" (inputIdOf 2) 5 5 ].

(** ** A chain of submits along one branch *)

Record Round : Type := mkRound {
  round_text : string;           (* what the user submits *)
  round_reply : string;          (* what the completion writes *)
  round_handle : option string;
  round_position : XYPosition;
  branch_now_id : Z;
  branch_now_ts : Z;
  submit_now_id : Z;
  submit_now_ts : Z
}.

(** Start a branch below [parentId], submit it, and let the request
    complete. *)
Definition playRound (parentId : string) (r : Round) (st : GraphState) : GraphState :=
  let st1 := onConnectEnd (Some parentId) (round_handle r) true (round_position r)
               (branch_now_id r) (branch_now_ts r) st in
  let st2 := handleSend_begin (round_text r) parentId (inputIdOf (branch_now_id r))
               (submit_now_id r) (submit_now_ts r) st1 in
  writeReply (assistantIdOf (submit_now_id r)) (round_reply r) st2.

(** Each round hangs below the assistant node of the round before. *)
Fixpoint playRounds (parentId : string) (rounds : list Round) (st : GraphState)
    : GraphState * string :=
  match rounds with
  | [] => (st, parentId)
  | r :: rest => playRounds (assistantIdOf (submit_now_id r)) rest (playRound parentId r st)
  end.

(** The user and assistant turns of the rounds, in the order of creation. *)
Definition turnsOf (rounds : list Round) : list ChatMessage :=
  flat_map (fun r => [mkChatMessage user (round_text r);
                      mkChatMessage assistant (round_reply r)]) rounds.

(** The ids that the rounds give to their nodes. *)
Definition newIdsOf (rounds : list Round) : list string :=
  flat_map (fun r => [inputIdOf (branch_now_id r); assistantIdOf (submit_now_id r)]) rounds.

(** An id occurs in a state as the id of a node or as an end of an edge. *)
Definition occurs (i : string) (st : GraphState) : Prop :=
  In i (map id (nodes st)) \/ In i (map source (edges st)) \/ In i (map target (edges st)).

(** [connectingHandleId.current || "bottom"] *)
Definition handleOf (connectingHandleId : option string) : string :=
  match connectingHandleId with
  | Some h => if truthy h then h else "bottom"
  | None => "bottom"
  end.

(** The two nodes a round leaves in the graph. *)
Definition userNodeOf (parentId : string) (r : Round) : ChatNode :=
  toUserMessage (round_text r) (inputIdOf (branch_now_id r))
    (newInputNode parentId (round_position r) (branch_now_id r) (branch_now_ts r)).

Definition assistantNodeOf (r : Round) : ChatNode :=
  setContent (round_reply r)
    (mkNode (assistantIdOf (submit_now_id r)) (Some "message")
       (mkXY (x (round_position r)) (y (round_position r) + 200))
       (mkData None "Thinking..." assistant (submit_now_ts r) None None None)
       (Some origin_top_centre)).

(** ** The scenario: root, one branch, one reply *)

Section Scenario.
Variables (rootContent : string) (rootTs : Z) (rootPosition : XYPosition).
Variables (view : Viewport) (handleId : option string) (dropPosition : XYPosition).
Variables (t1 t1' t2 t2' : Z).

Definition R : ChatNode :=
  mkNode "root" (Some "message") rootPosition
    (mkData None rootContent assistant rootTs None None None) None.

Definition scenario0 : GraphState := mkState [R] [] view.

(** [startBranch(R)] gives the pending node [P1]. *)
Definition P1 : string := inputIdOf t1.

Definition scenario1 : GraphState :=
  onConnectEnd (Some "root") handleId true dropPosition t1 t1' scenario0.

(** [submit(P1, "hi")] creates [A1]. *)
Definition A1 : string := assistantIdOf t2.

Definition scenario2 : GraphState := handleSend_begin "hi" "root" P1 t2 t2' scenario1.

(** The backend returns [{ reply: "hello" }]. *)
Definition scenario3 : option GraphState :=
  handleSend_complete A1 (FetchResponds true (Some (JObj [("reply", JStr "hello")])))
    scenario2.
End Scenario.

(** ** Concrete graphs *)

Definition twoRounds : list Round :=
  [ mkRound "hi" "hello" None (mkXY 0 300) 1000 1000 2000 2000;
    mkRound "more" "sure" (Some "right") (mkXY 400 600) 3000 3000 4000 4001 ].

(** A state the interface can reach: after one round, [onConnect] joins
    the assistant node back to the root. *)
Definition loopedState : GraphState :=
  onConnect (mkEdge "xy-edge__ai-2000-root" "ai-2000" "root" None None None None)
    (playRound "root" (mkRound "hi" "hello" None (mkXY 0 300) 1000 1000 2000 2000)
       (initialState 1)).

(** Three children below the root, created at 1000, 3000 and 2000. *)
Definition threeChildren : GraphState :=
  run [ StartBranch "root" None (mkXY 0 300) 1000 1000;
        StartBranch "root" None (mkXY 300 300) 3000 3000;
        StartBranch "root" None (mkXY 600 300) 2000 2000 ] (initialState 1).

(** ** Navigation *)

(** The node a key starts from when nothing is focused: the node ["root"],
    else the first node of the list. *)
Definition defaultStart (currentNodes : list ChatNode) : option ChatNode :=
  match findNode "root" currentNodes with
  | Some r => Some r
  | None => hd_error currentNodes
  end.

(** No focus is recorded, or the recorded id has no node any more. *)
Definition unfocused (currentNodes : list ChatNode) (focused : option string) : Prop :=
  focused = None \/ focused = Some "" \/
  exists f, focused = Some f /\ findNode f currentNodes = None.

(** The head of a list has the least key. *)
Definition headLeast (A : Type) (key : A -> Z) (l : list A) : Prop :=
  match l with
  | [] => True
  | h :: _ => forall m, In m l -> (key h <= key m)%Z
  end.

(** ** More navigation *)

(** The nodes in the order in which Tab goes through them. *)
Definition tabOrder (currentNodes : list ChatNode) : list ChatNode :=
  sortBy byTimestampTab currentNodes.

(** Ascending and descending order of timestamps. *)
Definition olderFirst (a b : ChatNode) : Prop :=
  (timestamp (data a) <= timestamp (data b))%Z.

Definition newerFirst (a b : ChatNode) : Prop :=
  (timestamp (data b) <= timestamp (data a))%Z.

(** ** Ids of the application *)

(** The ids that the hook gives to nodes. *)
Definition appId (i : string) : Prop :=
  i = "root" \/ (exists k, i = inputIdOf k) \/ (exists k, i = assistantIdOf k).

(** The state that an import of the exported document leaves. *)
Definition restoredState (st : GraphState) : GraphState :=
  mkState (map restoredNode (nodes st)) (map restoredEdge (edges st)) (viewport st).

(** ** Graphs grown by the operations *)

(** An operation that starts from a node the state has: the drag leaves a
    handle of an existing node, the prompt is sent from an existing input
    node. *)
Definition fromExistingNode (op : Op) (st : GraphState) : Prop :=
  match op with
  | StartBranch parentId _ _ _ _ => In parentId (map id (nodes st))
  | Submit _ _ inputNodeId _ _ => In inputNodeId (map id (nodes st))
  | Reply _ _ => True
  | Cancel _ => True
  end.

Fixpoint runsFromExisting (ops : list Op) (st : GraphState) : Prop :=
  match ops with
  | [] => True
  | op :: rest => fromExistingNode op st /\ runsFromExisting rest (applyOp op st)
  end.

(** The ids given out so far. *)
Definition named (seenInput seenAssistant : list Z) (i : string) : Prop :=
  i = "root" \/
  (exists k, In k seenInput /\ i = inputIdOf k) \/
  (exists k, In k seenAssistant /\ i = assistantIdOf k).

(** Edges in the order of their creation, each one leading into an id that
    nothing before it mentions. *)
Fixpoint layered (es : list Edge) : Prop :=
  match es with
  | [] => True
  | e :: later =>
      target e <> source e /\
      (forall e', In e' later -> target e' <> source e /\ target e' <> target e) /\
      layered later
  end.

Definition grown (seenInput seenAssistant : list Z) (st : GraphState) : Prop :=
  (forall i, In i (map id (nodes st)) -> named seenInput seenAssistant i) /\
  (forall e, In e (edges st) ->
     named seenInput seenAssistant (source e) /\
     named seenInput seenAssistant (target e)) /\
  layered (edges st).

(** ** Dragging *)

(** Twice the distance between the centres of two nodes, along each axis. *)
Definition twiceDx (measured : ChatNode -> option Measured) (s t : ChatNode) : Z :=
  2 * (x (position t) - x (position s))
  + (orElse (widthOf measured t) 300 - orElse (widthOf measured s) 300).

Definition twiceDy (measured : ChatNode -> option Measured) (s t : ChatNode) : Z :=
  2 * (y (position t) - y (position s))
  + (orElse (heightOf measured t) 100 - orElse (heightOf measured s) 100).

(** The handles that face each other for a target of the given kind. *)
Definition facingHandles (horizontal rightwards : bool) (targetNode : ChatNode)
    : option string * option string :=
  let suffix := if hasType "message" targetNode then "-target" else "" in
  if horizontal then
    if rightwards then (Some "right", Some ("left" ++ suffix)%string)
    else (Some "left", Some ("right" ++ suffix)%string)
  else (Some "bottom", Some "top").

(** No size measured yet. *)
Definition unmeasured (n : ChatNode) : option Measured := None.

(** The assistant node of [placeholderState], dragged far to the right. *)
Definition draggedReply : ChatNode :=
  mkNode "ai-2000" (Some "message") (mkXY 900 210)
    (mkData None "Thinking..." assistant 2000 None None None)
    (Some origin_top_centre).

(** ** The input node *)

(** The Enter key, nothing held. *)
Definition plainEnter : KeyEvent := mkKeyEvent "Enter" false false false.

(** ** The backend *)


(** ** Search *)

(** [q] can be read in [t] from position [from] on, in order, with
    characters skipped in between. *)
Inductive Subsequence (t : string) : string -> nat -> Prop :=
| subsequence_done (from : nat) : Subsequence t "" from
| subsequence_step (c : ascii) (rest : string) (from p : nat) :
    (from <= p)%nat -> get p t = Some c -> Subsequence t rest (S p) ->
    Subsequence t (String c rest) from.

Definition cheaperFirst (a b : SearchResult) : Prop :=
  (result_score a <= result_score b)%Z.

(** ** Children and siblings *)

(** [n] is a child of [parentId]: the node found for the target of an edge
    that leaves [parentId]. *)
Definition childOf (parentId : string) (currentNodes : list ChatNode)
    (currentEdges : list Edge) (n : ChatNode) : Prop :=
  exists e, In e currentEdges /\ source e = parentId /\
            findNode (target e) currentNodes = Some n.

(** A snapshot, as an imported file can hold it, in which the newest of the
    two children of the root has the empty string as its id. *)
Definition emptyIdChild : GraphState :=
  mkState
    [ mkNode "root" (Some "message") (mkXY 250 50)
        (mkData None root_greeting assistant 1 None None None) None;
      mkNode "a" (Some "message") (mkXY 0 300)
        (mkData None "first" user 10 None None None) None;
      mkNode "" (Some "message") (mkXY 300 300)
        (mkData None "second" user 20 None None None) None ]
    [ mkEdge "e-root-a" "root" "a" (Some "smoothstep") None None None;
      mkEdge "e-root-" "root" "" (Some "smoothstep") None None None ]
    (mkViewport 0 0 1).

(** * Properties *)

(** ** The reply write *)

Section ReplyWrite.
Variables (assistantId newContent : string).

Lemma writeContent_length (ns : list ChatNode) :
  List.length (writeContent assistantId newContent ns) = List.length ns.
Proof. unfold writeContent. apply length_map. Qed.

Lemma writeContent_ids (ns : list ChatNode) :
  map id (writeContent assistantId newContent ns) = map id ns.
Proof.
  unfold writeContent. rewrite map_map. apply map_ext.
  intros n. destruct (id n =? assistantId)%string; reflexivity.
Qed.

Lemma writeContent_nth (ns : list ChatNode) (i : nat) :
  nth_error (writeContent assistantId newContent ns) i =
  option_map
    (fun n => if (id n =? assistantId)%string then setContent newContent n else n)
    (nth_error ns i).
Proof. unfold writeContent. apply nth_error_map. Qed.

Lemma writeContent_absent (ns : list ChatNode) :
  findNode assistantId ns = None ->
  writeContent assistantId newContent ns = ns.
Proof.
  unfold findNode, writeContent. intros Hnone.
  rewrite <- (map_id ns) at 2. apply map_ext_in.
  intros n Hin. now rewrite (find_none _ _ Hnone n Hin).
Qed.

Lemma findNode_writeContent (nodeId : string) (ns : list ChatNode) :
  findNode nodeId (writeContent assistantId newContent ns) =
  option_map
    (fun n => if (id n =? assistantId)%string then setContent newContent n else n)
    (findNode nodeId ns).
Proof.
  unfold findNode, writeContent.
  induction ns as [|n ns IH]; simpl; [reflexivity|].
  rewrite IH.
  destruct (id n =? assistantId)%string eqn:Hn; simpl;
    destruct (id n =? nodeId)%string; simpl; try rewrite Hn; reflexivity.
Qed.
End ReplyWrite.


(** C8.  The completion write touches nothing but the content of the nodes
    whose id is the assistant id: edges and viewport are kept, the node list
    keeps its length and order, a node with another id is kept as it is, a
    node with that id keeps every field but [content], and when no node has
    that id the whole state is returned unchanged.  Every outcome that
    yields a text (a reply or one of the two error texts) performs exactly
    this write. *)
Theorem reply_write_frame (assistantId newContent : string) (st : GraphState) :
  let st' := writeReply assistantId newContent st in
  edges st' = edges st /\
  viewport st' = viewport st /\
  List.length (nodes st') = List.length (nodes st) /\
  (forall i n, nth_error (nodes st) i = Some n -> id n <> assistantId ->
     nth_error (nodes st') i = Some n) /\
  (forall i n, nth_error (nodes st) i = Some n -> id n = assistantId ->
     nth_error (nodes st') i = Some (setContent newContent n) /\
     id (setContent newContent n) = id n /\
     type (setContent newContent n) = type n /\
     position (setContent newContent n) = position n /\
     origin (setContent newContent n) = origin n /\
     role (data (setContent newContent n)) = role (data n) /\
     timestamp (data (setContent newContent n)) = timestamp (data n) /\
     label (data (setContent newContent n)) = label (data n) /\
     isInput (data (setContent newContent n)) = isInput (data n) /\
     content (data (setContent newContent n)) = newContent) /\
  (findNode assistantId (nodes st) = None -> st' = st) /\
  (forall outcome, replyContent outcome = WriteText newContent ->
     handleSend_complete assistantId outcome st = Some st').
Proof.
  cbv zeta. unfold writeReply; simpl.
  repeat split; simpl.
  - apply writeContent_length.
  - intros i n Hnth Hid. rewrite writeContent_nth, Hnth. simpl.
    apply String.eqb_neq in Hid. now rewrite Hid.
  - rewrite writeContent_nth, H. simpl.
    apply String.eqb_eq in H0. now rewrite H0.
  - intros Hnone. rewrite writeContent_absent by assumption.
    now destruct st.
  - intros outcome Hout. unfold handleSend_complete. now rewrite Hout.
Qed.

Lemma reply_write_frame_witness :
  findNode "ai-7" (nodes placeholderState) = None /\
  writeReply "ai-7" "late" placeholderState = placeholderState.
Proof.
  split; [reflexivity|].
  destruct (reply_write_frame "ai-7" "late" placeholderState)
    as (_ & _ & _ & _ & _ & Habsent & _).
  apply Habsent. reflexivity.
Defined.




(** C10 as the code has it.  A body that parses to a value other than
    [null] and whose [reply] is absent, [null] or the empty string makes the
    completion write "Error: No response", a text different from the one
    written when the fetch fails; a node with the assistant id then shows
    exactly this text.  The body [null] parses too and has no [reply], but
    reading [data.reply] on it throws, and the text of the [catch] branch is
    written. *)
Theorem missing_reply_fallback (assistantId : string) (st : GraphState)
    (ok : bool) (body : json) :
  getProp body "reply" = PropUndefined \/
  getProp body "reply" = PropValue JNull \/
  getProp body "reply" = PropValue (JStr "") ->
  handleSend_complete assistantId (FetchResponds ok (Some body)) st
    = Some (writeReply assistantId "Error: No response" st) /\
  (forall n, findNode assistantId (nodes st) = Some n ->
     option_map (fun m => content (data m))
       (findNode assistantId (nodes (writeReply assistantId "Error: No response" st)))
     = Some "Error: No response") /\
  "Error: No response" <> fetchErrorText /\
  handleSend_complete assistantId FetchThrows st
    = Some (writeReply assistantId fetchErrorText st) /\
  body <> JNull /\
  (forall ok', handleSend_complete assistantId (FetchResponds ok' (Some JNull)) st
     = Some (writeReply assistantId fetchErrorText st)).
Proof.
  intros Hreply.
  assert (Hbody : body <> JNull).
  { intros ->. destruct Hreply as [H | [H | H]]; discriminate H. }
  repeat split; try exact Hbody.
  - unfold handleSend_complete, replyContent.
    destruct Hreply as [-> | [-> | ->]]; reflexivity.
  - intros n Hfind. unfold writeReply; simpl.
    rewrite findNode_writeContent, Hfind. simpl.
    destruct (find_some _ _ Hfind) as [_ Heq]. simpl in Heq.
    now rewrite Heq.
  - discriminate.
Qed.

Lemma missing_reply_fallback_witness :
  handleSend_complete "ai-2000" (FetchResponds true (Some (JObj [("reply", JNull)])))
    placeholderState
  = Some (writeReply "ai-2000" "Error: No response" placeholderState).
Proof.
  apply (missing_reply_fallback "ai-2000" placeholderState true
           (JObj [("reply", JNull)])).
  right; left; reflexivity.
Defined.

(** C10 as the spec words it fails on the body [null]: it parses as JSON and
    has no [reply], yet the assistant node does not get "Error: No response"
    but the text of the failed fetch. *)
Lemma null_body_gets_fetch_error_text :
  handleSend_complete "ai-2000" (FetchResponds true (Some JNull)) placeholderState
    = Some (writeReply "ai-2000" "Error: Could not fetch response." placeholderState) /\
  option_map (fun st => option_map (fun n => content (data n))
                          (findNode "ai-2000" (nodes st)))
    (handleSend_complete "ai-2000" (FetchResponds true (Some JNull)) placeholderState)
    = Some (Some "Error: Could not fetch response.") /\
  (forall v, getProp JNull "reply" <> PropValue v) /\
  "Error: Could not fetch response." <> "Error: No response".
Proof. repeat split; try reflexivity; discriminate. Qed.

(** ** Serialise, then import *)

Lemma decodeNode_serializeNode (n : ChatNode) :
  decodeNode (serializeNode n) = Typed (restoredNode n).
Proof.
  destruct n as [nid ty [px py] [lbl c r ts inp snd cnl] org].
  destruct ty as [ty|], inp as [[|]|], lbl as [lbl|], r; reflexivity.
Qed.

Lemma decodeEdge_serializeEdge (e : Edge) :
  decodeEdge (serializeEdge e) = Typed (restoredEdge e).
Proof.
  destruct e as [eid src tgt ty mk sh th].
  destruct ty as [ty|], mk as [[mt]|];
    unfold restoredEdge, decodeEdge, edgeTypeOrDefault; simpl;
    try destruct (truthy ty); reflexivity.
Qed.

Lemma decodeAll_map (A B : Type) (dec : json -> Decoded B) (ser : A -> json)
    (restored : A -> B) (l : list A) :
  (forall a, dec (ser a) = Typed (restored a)) ->
  decodeAll dec (map ser l) = Typed (map restored l).
Proof.
  intros Hdec. induction l as [|a l IH]; simpl; [reflexivity|].
  now rewrite Hdec, IH.
Qed.

Lemma importState_serializeState (exportedAt : string) (st : GraphState) (s0 : Store) :
  importState (Some (serializeState exportedAt st)) s0 =
  (true, mkStore (Holds (map restoredNode (nodes st)))
                 (Holds (map restoredEdge (edges st)))
                 (Holds (viewport st))).
Proof.
  unfold importState, importState_try, serializeState, bind; simpl.
  unfold mapArray, decodeArray.
  rewrite (decodeAll_map decodeNode serializeNode restoredNode (nodes st)
             decodeNode_serializeNode).
  rewrite (decodeAll_map decodeEdge serializeEdge restoredEdge (edges st)
             decodeEdge_serializeEdge).
  simpl. destruct (viewport st); reflexivity.
Qed.

(** C3.  Importing the document that serialisation writes succeeds and
    stores nodes with the same ids, kinds, positions, roles, contents and
    timestamps (and flags and labels), in the same order, and edges with the
    same ids, sources and targets; the viewport is restored too.  The
    closures of node data are not part of the comparison. *)
Theorem serialize_import_roundtrip (exportedAt : string) (st : GraphState) (s0 : Store) :
  exists restoredNodes restoredEdges,
    importState (Some (serializeState exportedAt st)) s0 =
      (true, mkStore (Holds restoredNodes) (Holds restoredEdges) (Holds (viewport st))) /\
    map id restoredNodes = map id (nodes st) /\
    map type restoredNodes = map type (nodes st) /\
    map position restoredNodes = map position (nodes st) /\
    map (fun n => role (data n)) restoredNodes = map (fun n => role (data n)) (nodes st) /\
    map (fun n => content (data n)) restoredNodes
      = map (fun n => content (data n)) (nodes st) /\
    map (fun n => timestamp (data n)) restoredNodes
      = map (fun n => timestamp (data n)) (nodes st) /\
    map (fun n => isInput (data n)) restoredNodes
      = map (fun n => isInput (data n)) (nodes st) /\
    map (fun n => label (data n)) restoredNodes = map (fun n => label (data n)) (nodes st) /\
    map edge_id restoredEdges = map edge_id (edges st) /\
    map source restoredEdges = map source (edges st) /\
    map target restoredEdges = map target (edges st).
Proof.
  exists (map restoredNode (nodes st)), (map restoredEdge (edges st)).
  split; [apply importState_serializeState|].
  repeat split; rewrite map_map; reflexivity.
Qed.

(** ** Import of an arbitrary document *)

Lemma decodeNode_throws (v : json) :
  decodeNode v = Throws <-> nodeElementThrows v = true.
Proof.
  unfold decodeNode, nodeElementThrows.
  destruct (getProp v "data") as [| |d]; try tauto.
  destruct d;
    repeat match goal with
           | |- context [match ?c with _ => _ end] => destruct c
           end;
    split; intros H; try discriminate H; reflexivity.
Qed.

Lemma decodeEdge_throws (v : json) :
  decodeEdge v = Throws <-> edgeElementThrows v = true.
Proof.
  unfold decodeEdge, edgeElementThrows.
  destruct v;
    repeat match goal with
           | |- context [match ?c with _ => _ end] => destruct c
           end;
    split; intros H; try discriminate H; reflexivity.
Qed.

Lemma decodeAll_throws (A : Type) (dec : json -> Decoded A)
    (elementThrows : json -> bool) (items : list json) :
  (forall v, dec v = Throws <-> elementThrows v = true) ->
  decodeAll dec items = Throws <->
  forallb (fun v => negb (elementThrows v)) items = false.
Proof.
  intros Hdec. induction items as [|v items IH]; simpl.
  - split; discriminate.
  - destruct (elementThrows v) eqn:Hv; simpl.
    + apply Hdec in Hv. rewrite Hv. tauto.
    + assert (Hnot : dec v <> Throws) by (intros H; apply Hdec in H; congruence).
      destruct (dec v) as [|a|]; [congruence| |];
        destruct (decodeAll dec items); split; intros H;
          try discriminate H; try reflexivity;
          try (apply IH; reflexivity);
          try (exfalso; apply IH in H; discriminate H).
Qed.

Lemma mapArray_abrupt (A : Type) (dec : json -> Decoded A)
    (elementThrows : json -> bool) (p : PropResult) (s : Store) :
  (forall v, dec v = Throws <-> elementThrows v = true) ->
  (arrayAccepted elementThrows p = false -> mapArray dec p s = (Abrupt, s)) /\
  (arrayAccepted elementThrows p = true ->
     exists slot, mapArray dec p s = (Normal slot, s)).
Proof.
  intros Hdec. unfold mapArray, arrayAccepted, decodeArray.
  destruct p as [| |v]; try (split; [reflexivity | discriminate]).
  destruct v; try (split; [reflexivity | discriminate]).
  pose proof (decodeAll_throws dec elementThrows items Hdec) as Hall.
  split; intros Hacc.
  - apply Hall in Hacc. now rewrite Hacc.
  - destruct (decodeAll dec items) as [|l|] eqn:Hd.
    + assert (Hf : forallb (fun v => negb (elementThrows v)) items = false)
        by (apply Hall; reflexivity).
      congruence.
    + now exists (Holds l).
    + now exists HoldsUntyped.
Qed.

Lemma arrayAccepted_truthy (elementThrows : json -> bool) (p : PropResult) :
  arrayAccepted elementThrows p = true -> prop_truthy p = true /\ p <> PropThrows.
Proof.
  destruct p as [| |v]; simpl; try discriminate.
  destruct v; simpl; try discriminate. split; [reflexivity | discriminate].
Qed.

Lemma getProp_total (v : json) (key : string) :
  v <> JNull -> getProp v key <> PropThrows.
Proof.
  destruct v; simpl; try congruence; try discriminate.
  intros _. destruct (find _ members); discriminate.
Qed.

Lemma importState_rejects (parsed : option json) (s : Store) :
  accepts parsed = false -> importState parsed s = (false, s).
Proof.
  unfold accepts, importState, importState_try, bind, JSON_parse, readProp.
  destruct parsed as [doc|]; [|reflexivity].
  intros Hacc. unfold ret at 1.
  destruct (getProp doc "nodes") as [| |ns] eqn:Hns; try reflexivity.
  unfold ret at 1.
  destruct (prop_truthy (PropValue ns)) eqn:Htn; cbn [negb]; [|reflexivity].
  destruct (getProp doc "edges") as [| |es] eqn:Hes; try reflexivity.
  unfold ret at 1 2.
  destruct (prop_truthy (PropValue es)) eqn:Hte; cbn [negb]; [|reflexivity].
  unfold ret at 1.
  destruct (arrayAccepted nodeElementThrows (PropValue ns)) eqn:Han.
  - simpl in Hacc.
    destruct (mapArray_abrupt decodeNode nodeElementThrows (PropValue ns) s
                decodeNode_throws) as [_ Hok].
    destruct (Hok Han) as [slot ->].
    destruct (mapArray_abrupt decodeEdge edgeElementThrows (PropValue es) s
                decodeEdge_throws) as [Hko _].
    now rewrite (Hko Hacc).
  - destruct (mapArray_abrupt decodeNode nodeElementThrows (PropValue ns) s
                decodeNode_throws) as [Hko _].
    now rewrite (Hko Han).
Qed.

Lemma importState_accepts (parsed : option json) (s : Store) :
  accepts parsed = true ->
  exists restoredNodes restoredEdges restoredViewport,
    importState parsed s = (true, mkStore restoredNodes restoredEdges restoredViewport).
Proof.
  unfold accepts, importState, importState_try, bind, JSON_parse, readProp.
  destruct parsed as [doc|]; [|discriminate].
  intros Hacc. apply andb_true_iff in Hacc. destruct Hacc as [Han Hae].
  destruct (arrayAccepted_truthy _ _ Han) as [Htn Hnn].
  destruct (arrayAccepted_truthy _ _ Hae) as [Hte Hne].
  destruct (mapArray_abrupt decodeNode nodeElementThrows (getProp doc "nodes") s
              decodeNode_throws) as [_ Hokn].
  destruct (Hokn Han) as [rn Hrn].
  destruct (mapArray_abrupt decodeEdge edgeElementThrows (getProp doc "edges") s
              decodeEdge_throws) as [_ Hoke].
  destruct (Hoke Hae) as [re Hre].
  unfold ret at 1.
  destruct (getProp doc "nodes") as [| |ns] eqn:Hns;
    try (simpl in Htn; congruence).
  unfold ret at 1. rewrite Htn. cbn [negb].
  destruct (getProp doc "edges") as [| |es] eqn:Hes;
    try (simpl in Hte; congruence).
  unfold ret at 1 2. rewrite Hte. cbn [negb]. unfold ret at 1.
  rewrite Hrn, Hre. unfold setNodes, setEdges.
  assert (Hvp : getProp doc "viewport" <> PropThrows)
    by (apply getProp_total; intros ->; discriminate Hns).
  destruct (getProp doc "viewport") as [| |vp] eqn:Hv; [congruence| |].
  - simpl. now exists rn, re, (store_viewport s).
  - unfold ret at 1. destruct (prop_truthy (PropValue vp)).
    + unfold setViewport; simpl. now exists rn, re, (decodeViewport (PropValue vp)).
    + simpl. now exists rn, re, (store_viewport s).
Qed.







(** ** The ancestor chain *)

Lemma messagesOf_snoc (path : list ChatNode) (node : ChatNode) :
  messagesOf (path ++ [node]) =
  messagesOf path ++ (if isMessage node then [toMessage node] else []).
Proof.
  unfold messagesOf. rewrite filter_app, map_app. simpl.
  now destruct (isMessage node).
Qed.

Lemma loop_of_chain (ns : list ChatNode) (es : list Edge)
    (cur : option string) (path : list ChatNode) :
  AncestorChain ns es cur path ->
  forall history, exists fuel, forall fuel', (fuel <= fuel')%nat ->
    getContextForNode_loop fuel' cur ns es history = Some (messagesOf path ++ history).
Proof.
  induction 1 as [|cid Hf|cid Ht Hnone|cid node path Ht Hfind Hchain IH];
    intros history.
  - exists 1%nat. intros [|f] Hle; [lia|reflexivity].
  - exists 1%nat. intros [|f] Hle; [lia|]. simpl. now rewrite Hf.
  - exists 1%nat. intros [|f] Hle; [lia|]. simpl. now rewrite Ht, Hnone.
  - destruct (IH (if isMessage node then toMessage node :: history else history))
      as [fuel Hfuel].
    exists (S fuel). intros [|f] Hle; [lia|]. simpl. rewrite Ht, Hfind.
    fold (parentOf cid es). rewrite Hfuel by lia.
    rewrite messagesOf_snoc, <- app_assoc. now destruct (isMessage node).
Qed.

Lemma chain_of_loop (ns : list ChatNode) (es : list Edge) (fuel : nat) :
  forall cur history result,
    getContextForNode_loop fuel cur ns es history = Some result ->
    exists path, AncestorChain ns es cur path /\ result = messagesOf path ++ history.
Proof.
  induction fuel as [|fuel IH]; intros cur history result Hrun; [discriminate|].
  simpl in Hrun. destruct cur as [cid|].
  - destruct (truthy cid) eqn:Ht.
    + destruct (findNode cid ns) as [node|] eqn:Hfind.
      * fold (parentOf cid es) in Hrun. apply IH in Hrun.
        destruct Hrun as (path & Hchain & ->).
        exists (path ++ [node]). split; [now apply chain_step|].
        rewrite messagesOf_snoc, <- app_assoc. now destruct (isMessage node).
      * injection Hrun as <-. exists []. split; [now apply chain_missing|reflexivity].
    + injection Hrun as <-. exists []. split; [now apply chain_falsy|reflexivity].
  - injection Hrun as <-. exists []. split; [constructor|reflexivity].
Qed.

Lemma chain_unique (ns : list ChatNode) (es : list Edge)
    (cur : option string) (p q : list ChatNode) :
  AncestorChain ns es cur p -> AncestorChain ns es cur q -> p = q.
Proof.
  intros Hp. revert q.
  induction Hp as [|cid Hf|cid Ht Hnone|cid node path Ht Hfind Hchain IH];
    intros q Hq; inversion Hq; subst; try reflexivity; try congruence.
  assert (node0 = node) by congruence. subst node0.
  f_equal. now apply IH.
Qed.

(** ** Look-ups in a growing graph *)

Lemma findNode_app (j : string) (l l' : list ChatNode) :
  findNode j (l ++ l') =
  match findNode j l with
  | Some n => Some n
  | None => findNode j l'
  end.
Proof.
  unfold findNode. induction l as [|n l IH]; simpl; [reflexivity|].
  now destruct (id n =? j)%string.
Qed.

Lemma findParentEdge_app (j : string) (l l' : list Edge) :
  findParentEdge j (l ++ l') =
  match findParentEdge j l with
  | Some e => Some e
  | None => findParentEdge j l'
  end.
Proof.
  unfold findParentEdge. induction l as [|e l IH]; simpl; [reflexivity|].
  now destruct (target e =? j)%string.
Qed.

Lemma findNode_absent (j : string) (l : list ChatNode) :
  ~ In j (map id l) -> findNode j l = None.
Proof.
  unfold findNode. induction l as [|n l IH]; simpl; intros Hnot; [reflexivity|].
  destruct (id n =? j)%string eqn:Heq.
  - apply String.eqb_eq in Heq. tauto.
  - apply IH. tauto.
Qed.

Lemma findNode_present (j : string) (l : list ChatNode) :
  In j (map id l) -> exists n, findNode j l = Some n /\ id n = j.
Proof.
  unfold findNode. induction l as [|n l IH]; simpl; intros Hin; [tauto|].
  destruct (id n =? j)%string eqn:Heq.
  - apply String.eqb_eq in Heq. now exists n.
  - apply String.eqb_neq in Heq. apply IH. tauto.
Qed.

Lemma findNode_id (j : string) (l : list ChatNode) (n : ChatNode) :
  findNode j l = Some n -> id n = j /\ In n l.
Proof.
  unfold findNode. intros Hfind. apply find_some in Hfind.
  destruct Hfind as [Hin Heq]. apply String.eqb_eq in Heq. tauto.
Qed.

Lemma findParentEdge_absent (j : string) (l : list Edge) :
  ~ In j (map target l) -> findParentEdge j l = None.
Proof.
  unfold findParentEdge. induction l as [|e l IH]; simpl; intros Hnot; [reflexivity|].
  destruct (target e =? j)%string eqn:Heq.
  - apply String.eqb_eq in Heq. tauto.
  - apply IH. tauto.
Qed.

Lemma findParentEdge_target (j : string) (l : list Edge) (e : Edge) :
  findParentEdge j l = Some e -> target e = j /\ In e l.
Proof.
  unfold findParentEdge. intros Hfind. apply find_some in Hfind.
  destruct Hfind as [Hin Heq]. apply String.eqb_eq in Heq. tauto.
Qed.

(** A map that keeps ids and leaves the nodes called [j] alone does not
    change what a look-up of [j] finds. *)
Lemma findNode_map_other (f : ChatNode -> ChatNode) (j : string) (l : list ChatNode) :
  (forall n, id (f n) = id n) ->
  (forall n, id n = j -> f n = n) ->
  findNode j (map f l) = findNode j l.
Proof.
  intros Hid Hsame. unfold findNode.
  induction l as [|n l IH]; simpl; [reflexivity|].
  rewrite Hid. destruct (id n =? j)%string eqn:Heq; [|exact IH].
  apply String.eqb_eq in Heq. now rewrite Hsame.
Qed.

Lemma toUserMessage_id (text inputNodeId : string) (n : ChatNode) :
  id (toUserMessage text inputNodeId n) = id n.
Proof. unfold toUserMessage. now destruct (id n =? inputNodeId)%string. Qed.

Lemma toUserMessage_other (text inputNodeId : string) (n : ChatNode) :
  id n <> inputNodeId -> toUserMessage text inputNodeId n = n.
Proof.
  unfold toUserMessage. intros Hneq. apply String.eqb_neq in Hneq. now rewrite Hneq.
Qed.

Lemma connectionExists_fresh (e : Edge) (es : list Edge) :
  ~ In (target e) (map target es) -> connectionExists e es = false.
Proof.
  unfold connectionExists. induction es as [|el es IH]; simpl; intros Hnot;
    [reflexivity|].
  rewrite IH by tauto.
  destruct (target el =? target e)%string eqn:Heq.
  - apply String.eqb_eq in Heq. tauto.
  - now rewrite andb_false_r.
Qed.

Lemma addEdge_cases (e : Edge) (es : list Edge) :
  addEdge e es = es \/ addEdge e es = es ++ [e].
Proof.
  unfold addEdge.
  destruct (negb (truthy (source e)) || negb (truthy (target e))); [now left|].
  destruct (connectionExists e es); [now left | now right].
Qed.

Lemma addEdge_fresh (e : Edge) (es : list Edge) :
  truthy (source e) = true -> truthy (target e) = true ->
  ~ In (target e) (map target es) ->
  addEdge e es = es ++ [e].
Proof.
  intros Hs Ht Hfresh. unfold addEdge.
  now rewrite Hs, Ht, (connectionExists_fresh e es Hfresh).
Qed.

(** ** Generated ids *)

Lemma Number_toString_inj (a b : Z) :
  Number_toString a = Number_toString b -> a = b.
Proof.
  unfold Number_toString. intros Heq.
  assert (Hs : Some (Z.to_int a) = Some (Z.to_int b)).
  { rewrite <- (NilEmpty.isi (Z.to_int a)), <- (NilEmpty.isi (Z.to_int b)).
    now rewrite Heq. }
  injection Hs as Hs.
  rewrite <- (DecimalZ.of_to a), <- (DecimalZ.of_to b). now rewrite Hs.
Qed.

Lemma inputIdOf_inj (a b : Z) : inputIdOf a = inputIdOf b -> a = b.
Proof.
  unfold inputIdOf. simpl. intros Heq.
  apply Number_toString_inj. congruence.
Qed.

Lemma assistantIdOf_inj (a b : Z) : assistantIdOf a = assistantIdOf b -> a = b.
Proof.
  unfold assistantIdOf. simpl. intros Heq.
  apply Number_toString_inj. congruence.
Qed.

Lemma inputIdOf_neq_assistantIdOf (a b : Z) : inputIdOf a <> assistantIdOf b.
Proof. unfold inputIdOf, assistantIdOf. simpl. discriminate. Qed.

Lemma truthy_inputIdOf (a : Z) : truthy (inputIdOf a) = true.
Proof. reflexivity. Qed.

Lemma truthy_assistantIdOf (a : Z) : truthy (assistantIdOf a) = true.
Proof. reflexivity. Qed.

Lemma truthy_true (s : string) : s <> "" -> truthy s = true.
Proof.
  unfold truthy. intros Hne. apply String.eqb_neq in Hne. now rewrite Hne.
Qed.

(** ** The in-degree invariant *)

Lemma inDegree_NoDup (nodeId : string) (es : list Edge) :
  NoDup (map target es) -> (inDegree nodeId es <= 1)%nat.
Proof.
  unfold inDegree. induction es as [|e es IH]; simpl; intros Hnd; [lia|].
  inversion Hnd as [|t ts Hnotin Hrest]; subst.
  destruct (target e =? nodeId)%string eqn:Heq; [|now apply IH].
  apply String.eqb_eq in Heq. simpl.
  assert (Hnone : filter (fun e' => (target e' =? nodeId)%string) es = []).
  { clear IH Hnd Hrest. induction es as [|e' es IH]; simpl; [reflexivity|].
    destruct (target e' =? nodeId)%string eqn:Heq'.
    - apply String.eqb_eq in Heq'. exfalso. apply Hnotin. simpl. left. congruence.
    - apply IH. intros Hin. apply Hnotin. simpl. now right. }
  rewrite Hnone. simpl. lia.
Qed.

(** Dropping edges keeps the targets distinct. *)
Lemma NoDup_targets_filter (keep : Edge -> bool) (es : list Edge) :
  NoDup (map target es) -> NoDup (map target (filter keep es)).
Proof.
  intros Hnd. induction es as [|e es IH]; simpl; [constructor|].
  apply NoDup_cons_iff in Hnd. destruct Hnd as [Hfresh Hrest].
  destruct (keep e); simpl; auto.
  constructor; auto.
  rewrite in_map_iff. intros (e' & Heq & Hin).
  apply filter_In in Hin. apply Hfresh.
  rewrite <- Heq. apply in_map. tauto.
Qed.

Lemma NoDup_targets_snoc (e : Edge) (es : list Edge) :
  NoDup (map target es) -> ~ In (target e) (map target es) ->
  NoDup (map target (es ++ [e])).
Proof.
  intros Hnd Hfresh. rewrite map_app. simpl.
  apply NoDup_app; [exact Hnd | repeat constructor; tauto |].
  intros a Hin [<- | []]. tauto.
Qed.

Lemma namedBy_fresh_input (seenI seenA : list Z) (es : list Edge) (k : Z) :
  namedBy seenI seenA es -> ~ In k seenI -> ~ In (inputIdOf k) (map target es).
Proof.
  intros Hnamed Hnew Hin. apply in_map_iff in Hin. destruct Hin as (e & Heq & Hin).
  destruct (Hnamed e Hin) as [(k' & Hk' & Ht) | (k' & Hk' & Ht)].
  - rewrite Ht in Heq. apply inputIdOf_inj in Heq. congruence.
  - rewrite Ht in Heq. symmetry in Heq. now apply inputIdOf_neq_assistantIdOf in Heq.
Qed.

Lemma namedBy_fresh_assistant (seenI seenA : list Z) (es : list Edge) (k : Z) :
  namedBy seenI seenA es -> ~ In k seenA -> ~ In (assistantIdOf k) (map target es).
Proof.
  intros Hnamed Hnew Hin. apply in_map_iff in Hin. destruct Hin as (e & Heq & Hin).
  destruct (Hnamed e Hin) as [(k' & Hk' & Ht) | (k' & Hk' & Ht)].
  - rewrite Ht in Heq. now apply inputIdOf_neq_assistantIdOf in Heq.
  - rewrite Ht in Heq. apply assistantIdOf_inj in Heq. congruence.
Qed.

Lemma namedBy_weaken (seenI seenI' seenA seenA' : list Z) (es : list Edge) :
  incl seenI seenI' -> incl seenA seenA' ->
  namedBy seenI seenA es -> namedBy seenI' seenA' es.
Proof.
  intros HI HA Hnamed e Hin.
  destruct (Hnamed e Hin) as [(k & Hk & Ht) | (k & Hk & Ht)];
    [left | right]; exists k; auto.
Qed.

(** One operation keeps the targets distinct, provided the reading that
    names its new node was not used before for a node of the same kind. *)
Lemma applyOp_targets (op : Op) (st : GraphState) (seenI seenA : list Z) :
  NoDup (map target (edges st)) ->
  namedBy seenI seenA (edges st) ->
  (forall k, In k (inputReadingOf op) -> ~ In k seenI) ->
  (forall k, In k (assistantReadingOf op) -> ~ In k seenA) ->
  NoDup (map target (edges (applyOp op st))) /\
  namedBy (inputReadingOf op ++ seenI) (assistantReadingOf op ++ seenA)
          (edges (applyOp op st)).
Proof.
  intros Hnd Hnamed HfreshI HfreshA.
  destruct op as [parentId handleId pos now_id now_ts
                 |text parentId inputNodeId now_id now_ts
                 |assistantId text
                 |inputId]; simpl in *.
  - (* StartBranch *)
    assert (Hweak : namedBy (now_id :: seenI) seenA (edges st))
      by (apply (namedBy_weaken (seenI:=seenI) (seenA:=seenA));
          [apply incl_tl, incl_refl | apply incl_refl | exact Hnamed]).
    unfold onConnectEnd.
    destruct (negb (truthy parentId)); simpl; [now split|].
    match goal with
    | |- context [addEdge ?e ?es] => destruct (addEdge_cases e es) as [-> | ->]
    end; [now split|].
    split.
    + apply NoDup_targets_snoc; [exact Hnd|]. simpl.
      apply (namedBy_fresh_input now_id Hnamed). apply HfreshI. now left.
    + intros e Hin. apply in_app_or in Hin. destruct Hin as [Hin | [<- | []]].
      * now apply Hweak.
      * left. exists now_id. simpl. tauto.
  - (* Submit *)
    assert (Hweak : namedBy seenI (now_id :: seenA) (edges st))
      by (apply (namedBy_weaken (seenI:=seenI) (seenA:=seenA));
          [apply incl_refl | apply incl_tl, incl_refl | exact Hnamed]).
    match goal with
    | |- context [addEdge ?e ?es] => destruct (addEdge_cases e es) as [-> | ->]
    end; [now split|].
    split.
    + apply NoDup_targets_snoc; [exact Hnd|]. simpl.
      apply (namedBy_fresh_assistant now_id Hnamed). apply HfreshA. now left.
    + intros e Hin. apply in_app_or in Hin. destruct Hin as [Hin | [<- | []]].
      * now apply Hweak.
      * right. exists now_id. simpl. tauto.
  - (* Reply *) now split.
  - (* Cancel *)
    split; [now apply NoDup_targets_filter|].
    intros e Hin. apply filter_In in Hin. now apply Hnamed.
Qed.

Lemma run_targets (ops : list Op) :
  forall (st : GraphState) (seenI seenA : list Z),
    NoDup (map target (edges st)) ->
    namedBy seenI seenA (edges st) ->
    NoDup (inputReadings ops) -> NoDup (assistantReadings ops) ->
    (forall k, In k (inputReadings ops) -> ~ In k seenI) ->
    (forall k, In k (assistantReadings ops) -> ~ In k seenA) ->
    NoDup (map target (edges (run ops st))).
Proof.
  induction ops as [|op ops IH]; intros st seenI seenA Hnd Hnamed HndI HndA HfI HfA;
    [exact Hnd|].
  change (run (op :: ops) st) with (run ops (applyOp op st)).
  change (inputReadings (op :: ops)) with (inputReadingOf op ++ inputReadings ops) in *.
  change (assistantReadings (op :: ops))
    with (assistantReadingOf op ++ assistantReadings ops) in *.
  destruct (@applyOp_targets op st seenI seenA Hnd Hnamed) as [Hnd' Hnamed'].
  - intros k Hk. apply HfI. apply in_or_app. now left.
  - intros k Hk. apply HfA. apply in_or_app. now left.
  - apply (IH _ _ _ Hnd' Hnamed').
    + eapply NoDup_app_remove_l; eauto.
    + eapply NoDup_app_remove_l; eauto.
    + intros k Hk Hin. apply in_app_or in Hin. destruct Hin as [Hin | Hin].
      * revert Hin Hk. clear -HndI.
        destruct op; simpl in *; try tauto.
        intros [<- | []] Hk. inversion HndI; subst. tauto.
      * apply (HfI k); [apply in_or_app; now right | exact Hin].
    + intros k Hk Hin. apply in_app_or in Hin. destruct Hin as [Hin | Hin].
      * revert Hin Hk. clear -HndA.
        destruct op; simpl in *; try tauto.
        intros [<- | []] Hk. inversion HndA; subst. tauto.
      * apply (HfA k); [apply in_or_app; now right | exact Hin].
Qed.

(** C9 as the code has it.  From the single-root state, after any sequence
    of branch starts, submits, reply writes and cancels in which no two
    input nodes are named by the same clock reading and no two assistant
    nodes are, no two edges share a target; so every node has at most one
    incoming edge. *)
Theorem in_degree_at_most_one (now0 : Z) (ops : list Op) :
  NoDup (inputReadings ops) ->
  NoDup (assistantReadings ops) ->
  NoDup (map target (edges (run ops (initialState now0)))) /\
  forall n, In n (nodes (run ops (initialState now0))) ->
    (inDegree (id n) (edges (run ops (initialState now0))) <= 1)%nat.
Proof.
  intros HndI HndA.
  assert (Hnd : NoDup (map target (edges (run ops (initialState now0))))).
  { apply (@run_targets ops (initialState now0) [] []); simpl; auto.
    - constructor.
    - intros e []. }
  split; [exact Hnd|]. intros n _. now apply inDegree_NoDup.
Qed.

Lemma in_degree_at_most_one_witness :
  NoDup (map target (edges (run branchAndCancel (initialState 1)))) /\
  forall n, In n (nodes (run branchAndCancel (initialState 1))) ->
    (inDegree (id n) (edges (run branchAndCancel (initialState 1))) <= 1)%nat.
Proof.
  apply (in_degree_at_most_one 1 branchAndCancel).
  - simpl. repeat constructor; simpl; intuition discriminate.
  - simpl. repeat constructor; simpl; intuition discriminate.
Defined.

(** C9 as the spec words it fails: node ids are made of [Date.now()], and
    two submits from different input nodes that read the same millisecond
    name the same assistant id, which then has two incoming edges. *)
Lemma same_reading_two_parents :
  In (assistantIdOf 5) (map id (nodes (run sameMillisecond (initialState 0)))) /\
  inDegree (assistantIdOf 5) (edges (run sameMillisecond (initialState 0))) = 2%nat.
Proof. split; [simpl; tauto | reflexivity]. Qed.

(** ** Rounds of branch, submit and completion *)

Lemma map_toUserMessage_absent (text inputNodeId : string) (ns : list ChatNode) :
  ~ In inputNodeId (map id ns) -> map (toUserMessage text inputNodeId) ns = ns.
Proof.
  intros Hnot. rewrite <- (map_id ns) at 2. apply map_ext_in.
  intros n Hin. apply toUserMessage_other. intros Heq. apply Hnot.
  rewrite <- Heq. now apply in_map.
Qed.

Lemma playRound_shape (parentId : string) (r : Round) (st : GraphState) :
  truthy parentId = true ->
  ~ occurs (inputIdOf (branch_now_id r)) st ->
  ~ occurs (assistantIdOf (submit_now_id r)) st ->
  playRound parentId r st =
  mkState (nodes st ++ [userNodeOf parentId r; assistantNodeOf r])
          (edges st ++ [newInputEdge parentId (handleOf (round_handle r)) (branch_now_id r);
                        assistantEdge (inputIdOf (branch_now_id r)) (submit_now_id r)])
          (viewport st).
Proof.
  intros Hp Hi Ha. unfold occurs in Hi, Ha.
  set (i := inputIdOf (branch_now_id r)) in *.
  set (a := assistantIdOf (submit_now_id r)) in *.
  assert (Hia : i <> a) by apply inputIdOf_neq_assistantIdOf.
  unfold playRound, onConnectEnd. rewrite Hp. simpl negb. cbv iota.
  fold (handleOf (round_handle r)).
  rewrite addEdge_fresh; [|exact Hp|reflexivity|simpl; fold i; tauto].
  unfold handleSend_begin, writeReply. simpl nodes. simpl edges. simpl viewport.
  fold i a.
  rewrite addEdge_fresh;
    [|reflexivity|reflexivity
     |simpl; fold a; rewrite map_app; simpl; fold i;
      intros Hin; apply in_app_or in Hin; destruct Hin as [Hin|[Hin|[]]];
      [tauto|congruence]].
  rewrite map_app, map_toUserMessage_absent by tauto. simpl map.
  change (toUserMessage (round_text r) i
            (newInputNode parentId (round_position r) (branch_now_id r) (branch_now_ts r)))
    with (userNodeOf parentId r).
  assert (Hidu : id (userNodeOf parentId r) = i)
    by (unfold userNodeOf; now rewrite toUserMessage_id).
  assert (Hposu : position (userNodeOf parentId r) = round_position r).
  { unfold userNodeOf, toUserMessage. simpl. now rewrite String.eqb_refl. }
  assert (Hfind : findNode i (nodes st ++ [userNodeOf parentId r])
                  = Some (userNodeOf parentId r)).
  { rewrite findNode_app, findNode_absent by tauto.
    unfold findNode. simpl. now rewrite Hidu, String.eqb_refl. }
  unfold assistantPlaceholder. rewrite Hfind, Hposu.
  unfold writeContent. rewrite !map_app.
  fold (writeContent a (round_reply r) (nodes st)).
  rewrite writeContent_absent by (apply findNode_absent; tauto).
  rewrite <- !app_assoc. simpl. rewrite Hidu.
  assert (Hne : (i =? a)%string = false) by now apply String.eqb_neq.
  rewrite Hne. fold a. rewrite String.eqb_refl.
  reflexivity.
Qed.

(** The chain of an id is not disturbed by changes that leave alone every
    id of a set [P] which contains the id and is closed under parents. *)
Lemma chain_stable (ns ns' : list ChatNode) (es es' : list Edge) (P : string -> Prop) :
  (forall j, P j -> findNode j ns' = findNode j ns) ->
  (forall j, P j -> findParentEdge j es' = findParentEdge j es) ->
  (forall j e, P j -> findParentEdge j es = Some e -> P (source e)) ->
  forall cur path, AncestorChain ns es cur path ->
    (forall j, cur = Some j -> P j) -> AncestorChain ns' es' cur path.
Proof.
  intros Hnodes Hedges Hclosed cur path Hchain.
  induction Hchain as [|cid Hf|cid Ht Hnone|cid node path Ht Hfind Hchain IH];
    intros HP.
  - constructor.
  - now apply chain_falsy.
  - apply chain_missing; [exact Ht|]. rewrite Hnodes; auto.
  - apply chain_step; [exact Ht | rewrite Hnodes; auto |].
    unfold parentOf in *. rewrite Hedges by auto.
    apply IH. intros j Hj.
    destruct (findParentEdge cid es) as [e|] eqn:He; [|discriminate].
    injection Hj as <-. apply (Hclosed cid e); auto.
Qed.

Lemma playRound_chain (parentId : string) (r : Round) (st : GraphState)
    (path : list ChatNode) :
  truthy parentId = true ->
  In parentId (map id (nodes st)) ->
  ~ occurs (inputIdOf (branch_now_id r)) st ->
  ~ occurs (assistantIdOf (submit_now_id r)) st ->
  AncestorChain (nodes st) (edges st) (Some parentId) path ->
  AncestorChain (nodes (playRound parentId r st)) (edges (playRound parentId r st))
    (Some (assistantIdOf (submit_now_id r)))
    (path ++ [userNodeOf parentId r; assistantNodeOf r]).
Proof.
  intros Hp Hin Hi Ha Hchain.
  rewrite playRound_shape by assumption. simpl nodes. simpl edges.
  pose proof (@inputIdOf_neq_assistantIdOf (branch_now_id r) (submit_now_id r)) as Hia.
  set (i := inputIdOf (branch_now_id r)) in *.
  set (a := assistantIdOf (submit_now_id r)) in *.
  set (u := userNodeOf parentId r). set (s := assistantNodeOf r).
  set (e1 := newInputEdge parentId (handleOf (round_handle r)) (branch_now_id r)).
  set (e2 := assistantEdge i (submit_now_id r)).
  assert (Hidu : id u = i) by (unfold u, userNodeOf; now rewrite toUserMessage_id).
  assert (Hids : id s = a) by reflexivity.
  assert (Ht1 : target e1 = i) by reflexivity.
  assert (Ht2 : target e2 = a) by reflexivity.
  assert (Hfu : forall j, j <> i -> j <> a -> findNode j [u; s] = None).
  { intros j Hji Hja. unfold findNode. cbn [find]. rewrite Hidu, Hids.
    apply not_eq_sym, String.eqb_neq in Hji. apply not_eq_sym, String.eqb_neq in Hja.
    now rewrite Hji, Hja. }
  assert (Hfe : forall j, j <> i -> j <> a -> findParentEdge j [e1; e2] = None).
  { intros j Hji Hja. unfold findParentEdge. cbn [find]. rewrite Ht1, Ht2.
    apply not_eq_sym, String.eqb_neq in Hji. apply not_eq_sym, String.eqb_neq in Hja.
    now rewrite Hji, Hja. }
  assert (Hold : AncestorChain (nodes st ++ [u; s]) (edges st ++ [e1; e2])
                   (Some parentId) path).
  { apply (@chain_stable (nodes st) _ (edges st) _ (fun j => occurs j st)); auto.
    - intros j Hj. rewrite findNode_app.
      destruct (findNode j (nodes st)); [reflexivity|].
      apply Hfu; intros ->; tauto.
    - intros j Hj. rewrite findParentEdge_app.
      destruct (findParentEdge j (edges st)); [reflexivity|].
      apply Hfe; intros ->; tauto.
    - intros j e _ He. apply findParentEdge_target in He. destruct He as [_ He].
      right; left. now apply in_map.
    - intros j Hj. injection Hj as <-. now left. }
  unfold occurs in Hi, Ha.
  assert (Hchain_i : AncestorChain (nodes st ++ [u; s]) (edges st ++ [e1; e2])
                       (Some i) (path ++ [u])).
  { apply chain_step; [reflexivity| |].
    - rewrite findNode_app, findNode_absent by tauto.
      unfold findNode. cbn [find]. now rewrite Hidu, String.eqb_refl.
    - unfold parentOf. rewrite findParentEdge_app, findParentEdge_absent by tauto.
      unfold findParentEdge. cbn [find]. rewrite Ht1, String.eqb_refl. exact Hold. }
  change (path ++ [u; s]) with (path ++ [u] ++ [s]). rewrite app_assoc.
  apply chain_step; [reflexivity| |].
  - rewrite findNode_app, findNode_absent by tauto.
    unfold findNode. cbn [find]. rewrite Hidu, Hids.
    assert (Hne : (i =? a)%string = false) by now apply String.eqb_neq.
    now rewrite Hne, String.eqb_refl.
  - unfold parentOf. rewrite findParentEdge_app, findParentEdge_absent by tauto.
    unfold findParentEdge. cbn [find]. rewrite Ht1, Ht2.
    assert (Hne : (i =? a)%string = false) by now apply String.eqb_neq.
    rewrite Hne, String.eqb_refl. exact Hchain_i.
Qed.

Lemma playRound_occurs (parentId : string) (r : Round) (st : GraphState) (j : string) :
  truthy parentId = true ->
  In parentId (map id (nodes st)) ->
  ~ occurs (inputIdOf (branch_now_id r)) st ->
  ~ occurs (assistantIdOf (submit_now_id r)) st ->
  occurs j (playRound parentId r st) ->
  occurs j st \/ j = inputIdOf (branch_now_id r) \/ j = assistantIdOf (submit_now_id r).
Proof.
  intros Hp Hin Hi Ha. rewrite playRound_shape by assumption.
  unfold occurs. simpl. rewrite !map_app. simpl.
  assert (Hidu : id (userNodeOf parentId r) = inputIdOf (branch_now_id r))
    by (unfold userNodeOf; now rewrite toUserMessage_id).
  rewrite Hidu.
  intros [H | [H | H]]; apply in_app_or in H; simpl in H;
    destruct H as [H | [H | [H | []]]]; subst; tauto.
Qed.

Lemma messagesOf_round (parentId : string) (r : Round) (path : list ChatNode) :
  messagesOf (path ++ [userNodeOf parentId r; assistantNodeOf r]) =
  messagesOf path ++ [mkChatMessage user (round_text r);
                      mkChatMessage assistant (round_reply r)].
Proof.
  unfold messagesOf. rewrite filter_app, map_app. f_equal.
  unfold userNodeOf, toUserMessage. simpl. now rewrite String.eqb_refl.
Qed.

Lemma playRounds_chain (rounds : list Round) :
  forall (parentId : string) (st : GraphState) (path : list ChatNode),
    truthy parentId = true ->
    In parentId (map id (nodes st)) ->
    NoDup (newIdsOf rounds) ->
    (forall j, In j (newIdsOf rounds) -> ~ occurs j st) ->
    AncestorChain (nodes st) (edges st) (Some parentId) path ->
    exists path',
      AncestorChain (nodes (fst (playRounds parentId rounds st)))
                    (edges (fst (playRounds parentId rounds st)))
                    (Some (snd (playRounds parentId rounds st))) path' /\
      messagesOf path' = messagesOf path ++ turnsOf rounds.
Proof.
  induction rounds as [|r rounds IH]; intros parentId st path Hp Hin Hnd Hfresh Hchain.
  - exists path. simpl. now rewrite app_nil_r.
  - simpl newIdsOf in Hnd, Hfresh.
    assert (Hi : ~ occurs (inputIdOf (branch_now_id r)) st)
      by (apply Hfresh; simpl; tauto).
    assert (Ha : ~ occurs (assistantIdOf (submit_now_id r)) st)
      by (apply Hfresh; simpl; tauto).
    inversion Hnd as [|i0 l0 Hni Hnd1]; subst.
    inversion Hnd1 as [|a0 l1 Hna Hnd2]; subst.
    destruct (IH (assistantIdOf (submit_now_id r)) (playRound parentId r st)
                 (path ++ [userNodeOf parentId r; assistantNodeOf r]))
      as (path' & Hchain' & Hmsgs).
    + reflexivity.
    + rewrite playRound_shape by assumption. simpl. rewrite map_app.
      apply in_or_app. right. simpl. tauto.
    + exact Hnd2.
    + intros j Hj Hocc.
      apply playRound_occurs in Hocc; try assumption.
      destruct Hocc as [Hocc | [-> | ->]].
      * apply (Hfresh j); [simpl; tauto | exact Hocc].
      * simpl in Hni. tauto.
      * tauto.
    + now apply playRound_chain.
    + exists path'. split; [exact Hchain'|].
      rewrite Hmsgs, messagesOf_round, <- app_assoc. reflexivity.
Qed.

(** ** The context resolver *)

(** C1 as the code has it.  Whenever the walk from the node along the first
    matching parent edges comes to an end (at an empty id, at an id without
    a node in the list, or after a node without incoming edge), the resolver
    returns, for every sufficient fuel, exactly the (role, content) pairs of
    the message nodes that the walk visits, root first, input nodes left
    out; and whatever it returns is of this form.  After N rounds of branch,
    submit and completion along one branch below a node [parentId] of any
    state in which the new ids do not occur, the context of the last
    assistant node is the context of [parentId] followed by the N user and N
    assistant turns in the order of creation: 2N entries after those of the
    parent, which begin with the root's greeting. *)
Theorem context_is_ancestor_chain :
  (forall nodeId ns es path,
     AncestorChain ns es (Some nodeId) path ->
     exists fuel, forall fuel', (fuel <= fuel')%nat ->
       getContextForNode fuel' nodeId ns es = Some (messagesOf path)) /\
  (forall fuel nodeId ns es result,
     getContextForNode fuel nodeId ns es = Some result ->
     exists path, AncestorChain ns es (Some nodeId) path /\ result = messagesOf path) /\
  (forall rounds parentId st path,
     parentId <> "" ->
     In parentId (map id (nodes st)) ->
     NoDup (newIdsOf rounds) ->
     (forall j, In j (newIdsOf rounds) -> ~ occurs j st) ->
     AncestorChain (nodes st) (edges st) (Some parentId) path ->
     exists fuel, forall fuel', (fuel <= fuel')%nat ->
       getContextForNode fuel' (snd (playRounds parentId rounds st))
         (nodes (fst (playRounds parentId rounds st)))
         (edges (fst (playRounds parentId rounds st)))
       = Some (messagesOf path ++ turnsOf rounds)).
Proof.
  split; [|split].
  - intros nodeId ns es path Hchain.
    destruct (loop_of_chain Hchain []) as [fuel Hfuel].
    exists fuel. intros fuel' Hle. unfold getContextForNode.
    now rewrite Hfuel, app_nil_r.
  - intros fuel nodeId ns es result Hrun.
    destruct (@chain_of_loop ns es fuel _ _ _ Hrun) as (path & Hchain & ->).
    exists path. now rewrite app_nil_r.
  - intros rounds parentId st path Hne Hin Hnd Hfresh Hchain.
    destruct (@playRounds_chain rounds parentId st path) as (path' & Hchain' & Hmsgs);
      auto using truthy_true.
    destruct (loop_of_chain Hchain' []) as [fuel Hfuel].
    exists fuel. intros fuel' Hle. unfold getContextForNode.
    now rewrite Hfuel, app_nil_r, Hmsgs.
Qed.

Lemma root_chain (now : Z) :
  AncestorChain (nodes (initialState now)) (edges (initialState now)) (Some "root")
    (getInitialNodes now).
Proof.
  change (getInitialNodes now) with ([] ++ getInitialNodes now).
  apply chain_step; [reflexivity | reflexivity | constructor].
Qed.

Lemma context_is_ancestor_chain_witness :
  exists fuel, forall fuel', (fuel <= fuel')%nat ->
    getContextForNode fuel' (snd (playRounds "root" twoRounds (initialState 1)))
      (nodes (fst (playRounds "root" twoRounds (initialState 1))))
      (edges (fst (playRounds "root" twoRounds (initialState 1))))
    = Some [ mkChatMessage assistant root_greeting;
             mkChatMessage user "hi"; mkChatMessage assistant "hello";
             mkChatMessage user "more"; mkChatMessage assistant "sure" ].
Proof.
  apply (proj2 (proj2 context_is_ancestor_chain)
           twoRounds "root" (initialState 1) (getInitialNodes 1)).
  - discriminate.
  - simpl. tauto.
  - simpl. repeat constructor; simpl; intuition discriminate.
  - intros j Hj Hocc. unfold occurs in Hocc. simpl in Hj, Hocc.
    intuition (subst; discriminate).
  - apply root_chain.
Defined.

Lemma looped_never_returns (fuel : nat) :
  forall cur history,
    cur = "root" \/ cur = "input-1000" \/ cur = "ai-2000" ->
    getContextForNode_loop fuel (Some cur) (nodes loopedState) (edges loopedState) history
    = None.
Proof.
  induction fuel as [|fuel IH]; intros cur history Hcur; [reflexivity|].
  destruct Hcur as [-> | [-> | ->]]; simpl; apply IH; tauto.
Qed.

(** C1 as the spec words it fails on three counts.  On an edge list with a
    cycle the resolver returns nothing, whatever the fuel.  After one
    submit along a branch below the root, the context of the last node has
    three entries, the first of which is the root's greeting, not the one
    user/assistant exchange alone.  And the walk also stops at an id that
    has an incoming edge when no node of the list has that id. *)
Lemma context_not_for_every_graph :
  (forall fuel,
     getContextForNode fuel "ai-2000" (nodes loopedState) (edges loopedState) = None) /\
  getContextForNode 9 "ai-2000"
    (nodes (playRound "root" (mkRound "hi" "hello" None (mkXY 0 300) 1000 1000 2000 2000)
              (initialState 1)))
    (edges (playRound "root" (mkRound "hi" "hello" None (mkXY 0 300) 1000 1000 2000 2000)
              (initialState 1)))
  = Some [ mkChatMessage assistant root_greeting;
           mkChatMessage user "hi"; mkChatMessage assistant "hello" ] /\
  (findParentEdge "gone"
     [ mkEdge "e1" "root" "gone" None None None None;
       mkEdge "e2" "gone" "leaf" None None None None ] <> None /\
   getContextForNode 9 "leaf"
     [ mkNode "root" (Some "message") (mkXY 0 0)
         (mkData None "greeting" assistant 1 None None None) None;
       mkNode "leaf" (Some "message") (mkXY 0 0)
         (mkData None "question" user 3 None None None) None ]
     [ mkEdge "e1" "root" "gone" None None None None;
       mkEdge "e2" "gone" "leaf" None None None None ]
   = Some [ mkChatMessage user "question" ]).
Proof.
  split; [|split; [reflexivity | split; [discriminate | reflexivity]]].
  intros fuel. apply looped_never_returns. tauto.
Qed.

(** ** The scenario *)

Lemma scenario3_is_round (rootContent : string) (rootTs : Z)
    (rootPosition : XYPosition) (view : Viewport) (handleId : option string)
    (dropPosition : XYPosition) (t1 t1' t2 t2' : Z) :
  scenario3 rootContent rootTs rootPosition view handleId dropPosition t1 t1' t2 t2' =
  Some (playRound "root" (mkRound "hi" "hello" handleId dropPosition t1 t1' t2 t2')
          (scenario0 rootContent rootTs rootPosition view)).
Proof. reflexivity. Qed.

Lemma scenario_fresh (rootContent : string) (rootTs : Z) (rootPosition : XYPosition)
    (view : Viewport) (t1 t2 : Z) (j : string) :
  j = P1 t1 \/ j = A1 t2 -> ~ occurs j (scenario0 rootContent rootTs rootPosition view).
Proof.
  unfold occurs, P1, A1, inputIdOf, assistantIdOf. simpl.
  intros [-> | ->] [[H | []] | [[] | []]]; discriminate H.
Qed.

(** C4 as the code has it.  In the scenario, resolving the context at [A1]
    returns three turns: the root's content, the user's "hi" and [A1]'s own
    "hello".  The two turns of the spec are what the submit sends to the
    backend: the context of the parent [R], taken on the snapshot the
    closure holds, followed by the new user turn. *)
Theorem scenario_context (rootContent : string) (rootTs : Z) (rootPosition : XYPosition)
    (view : Viewport) (handleId : option string) (dropPosition : XYPosition)
    (t1 t1' t2 t2' : Z) :
  exists st3,
    scenario3 rootContent rootTs rootPosition view handleId dropPosition t1 t1' t2 t2'
      = Some st3 /\
    option_map (fun n => content (data n)) (findNode (A1 t2) (nodes st3)) = Some "hello" /\
    (exists fuel, forall fuel', (fuel <= fuel')%nat ->
       getContextForNode fuel' (A1 t2) (nodes st3) (edges st3)
       = Some [ mkChatMessage assistant rootContent;
                mkChatMessage user "hi";
                mkChatMessage assistant "hello" ]) /\
    (forall fuel', (2 <= fuel')%nat ->
       contextMessages fuel' "hi" "root"
         (nodes (scenario0 rootContent rootTs rootPosition view))
         (edges (scenario0 rootContent rootTs rootPosition view))
       = Some [ mkChatMessage assistant rootContent; mkChatMessage user "hi" ]).
Proof.
  set (r := mkRound "hi" "hello" handleId dropPosition t1 t1' t2 t2').
  set (st0 := scenario0 rootContent rootTs rootPosition view).
  exists (playRound "root" r st0).
  assert (Hi : ~ occurs (inputIdOf (branch_now_id r)) st0)
    by (apply (@scenario_fresh rootContent rootTs rootPosition view t1 t2); now left).
  assert (Ha : ~ occurs (assistantIdOf (submit_now_id r)) st0)
    by (apply (@scenario_fresh rootContent rootTs rootPosition view t1 t2); now right).
  split; [apply scenario3_is_round|]. split; [|split].
  - rewrite playRound_shape by (assumption || reflexivity).
    unfold findNode, A1. simpl. unfold userNodeOf. rewrite toUserMessage_id. simpl.
    now rewrite String.eqb_refl.
  - assert (Hchain : AncestorChain (nodes st0) (edges st0) (Some "root")
                       ([] ++ [R rootContent rootTs rootPosition]))
      by (apply chain_step; [reflexivity | reflexivity | constructor]).
    pose proof (@playRound_chain "root" r st0 _ eq_refl (or_introl eq_refl) Hi Ha Hchain)
      as Hfull.
    destruct (loop_of_chain Hfull []) as [fuel Hfuel].
    exists fuel. intros fuel' Hle. unfold getContextForNode, A1.
    etransitivity; [exact (Hfuel fuel' Hle)|].
    rewrite app_nil_r, messagesOf_round. reflexivity.
  - intros [|[|fuel']] Hle; try lia. reflexivity.
Qed.

(** C4 as the spec words it fails: at [A1] the resolver returns three
    turns, the last of which is [A1]'s own content, not the two turns
    claimed. *)
Lemma scenario_context_includes_A1 :
  option_map (fun st3 => getContextForNode 9 (A1 2000) (nodes st3) (edges st3))
    (scenario3 "Hello!" 1 (mkXY 250 50) (mkViewport 0 0 1) None (mkXY 0 300)
       1000 1000 2000 2000)
  = Some (Some [ mkChatMessage assistant "Hello!";
                 mkChatMessage user "hi";
                 mkChatMessage assistant "hello" ]) /\
  [ mkChatMessage assistant "Hello!"; mkChatMessage user "hi";
    mkChatMessage assistant "hello" ]
  <> [ mkChatMessage assistant "Hello!"; mkChatMessage user "hi" ].
Proof. split; [reflexivity | discriminate]. Qed.

(** ** Navigation *)

Section SortFacts.
Variable A : Type.
Variable key : A -> Z.
Variable cmp : A -> A -> Z.
Hypothesis cmp_key : forall a b, cmp a b = (key a - key b)%Z.

Lemma insertBy_perm (a : A) (l : list A) : Permutation (insertBy cmp a l) (a :: l).
Proof.
  induction l as [|b l IH]; simpl; [reflexivity|].
  destruct (cmp a b <=? 0)%Z; [reflexivity|].
  rewrite IH. apply perm_swap.
Qed.

Lemma sortBy_perm (l : list A) : Permutation (sortBy cmp l) l.
Proof.
  induction l as [|a l IH]; simpl; [reflexivity|].
  rewrite insertBy_perm. now apply perm_skip.
Qed.

Lemma insertBy_headLeast (a : A) (l : list A) :
  headLeast key l -> headLeast key (insertBy cmp a l).
Proof.
  destruct l as [|b l]; simpl.
  - intros _ m [<- | []]. lia.
  - intros Hb. rewrite cmp_key.
    destruct (key a - key b <=? 0)%Z eqn:Hle.
    + apply Z.leb_le in Hle. intros m [<- | Hin]; [lia|].
      specialize (Hb m Hin). lia.
    + apply Z.leb_gt in Hle. intros m Hin.
      assert (Hin' : In m (a :: b :: l)).
      { apply (Permutation_in m (insertBy_perm a (b :: l))).
        simpl. rewrite cmp_key.
        assert (Hgt : (key a - key b <=? 0)%Z = false) by now apply Z.leb_gt.
        rewrite Hgt. exact Hin. }
      destruct Hin' as [<- | Hin']; [lia | now apply Hb].
Qed.

Lemma sortBy_headLeast (l : list A) : headLeast key (sortBy cmp l).
Proof.
  induction l as [|a l IH]; simpl; [exact I|]. now apply insertBy_headLeast.
Qed.

Lemma sortBy_nonempty (l : list A) : l <> [] -> sortBy cmp l <> [].
Proof.
  intros Hne Hnil. apply Hne. apply Permutation_nil.
  rewrite <- Hnil. apply sortBy_perm.
Qed.
End SortFacts.

(** ** Sorting *)

Section SortOrder.
Variable A : Type.
Variable key : A -> Z.
Variable cmp : A -> A -> Z.
Hypothesis cmp_key : forall a b, cmp a b = (key a - key b)%Z.

Lemma insertBy_sorted (a : A) (l : list A) :
  StronglySorted (fun u v => (key u <= key v)%Z) l ->
  StronglySorted (fun u v => (key u <= key v)%Z) (insertBy cmp a l).
Proof.
  induction l as [|b l IH]; simpl; intros Hs.
  - repeat constructor.
  - apply StronglySorted_inv in Hs. destruct Hs as [Hl Hb].
    rewrite cmp_key. destruct (key a - key b <=? 0)%Z eqn:Hle.
    + apply Z.leb_le in Hle. constructor; [now constructor|].
      constructor; [lia|]. eapply Forall_impl; [|exact Hb].
      simpl. intros; lia.
    + apply Z.leb_gt in Hle. constructor; [now apply IH|].
      apply Forall_forall. intros m Hm.
      apply (Permutation_in m (insertBy_perm cmp a l)) in Hm.
      destruct Hm as [<- | Hm]; [lia|].
      rewrite Forall_forall in Hb. now apply Hb.
Qed.

Lemma sortBy_sorted (l : list A) :
  StronglySorted (fun u v => (key u <= key v)%Z) (sortBy cmp l).
Proof.
  induction l as [|a l IH]; simpl; [constructor | now apply insertBy_sorted].
Qed.
End SortOrder.

Lemma orZero_id (n : Z) : orZero n = n.
Proof. unfold orZero. destruct (n =? 0)%Z eqn:H; [apply Z.eqb_eq in H; lia | reflexivity]. Qed.

Lemma byTimestampDesc_key (a b : ChatNode) :
  byTimestampDesc a b = ((- timestamp (data a)) - (- timestamp (data b)))%Z.
Proof. unfold byTimestampDesc. rewrite !orZero_id. lia. Qed.

Lemma byTimestampAsc_key (a b : ChatNode) :
  byTimestampAsc a b = (timestamp (data a) - timestamp (data b))%Z.
Proof. unfold byTimestampAsc. now rewrite !orZero_id. Qed.

Lemma targetNodes_In (es : list Edge) (ns : list ChatNode) (n : ChatNode) :
  In n (targetNodes es ns) -> In n ns /\ In (id n) (map target es).
Proof.
  unfold targetNodes. induction es as [|e es IH]; simpl; [tauto|].
  destruct (findNode (target e) ns) as [m|] eqn:Hfind; simpl.
  - intros [<- | Hin].
    + apply findNode_id in Hfind. destruct Hfind as [-> Hin]. tauto.
    + tauto.
  - tauto.
Qed.

Lemma targetNodes_ids_NoDup (es : list Edge) (ns : list ChatNode) :
  NoDup (map target es) -> NoDup (map id (targetNodes es ns)).
Proof.
  induction es as [|e es IH]; simpl; intros Hnd; [constructor|].
  inversion Hnd as [|t ts Hnotin Hrest]; subst.
  unfold targetNodes in *. simpl.
  destruct (findNode (target e) ns) as [m|] eqn:Hfind; simpl; [|now apply IH].
  constructor; [|now apply IH].
  intros Hin. apply in_map_iff in Hin. destruct Hin as (m' & Heq & Hin).
  apply (targetNodes_In es ns) in Hin. apply findNode_id in Hfind.
  apply Hnotin. destruct Hfind as [<- _]. rewrite <- Heq. tauto.
Qed.

(** With in-degree at most one, no node occurs twice among the siblings. *)
Lemma siblings_ids_NoDup (parentId : string) (ns : list ChatNode) (es : list Edge) :
  NoDup (map target es) -> NoDup (map id (siblingsOf parentId ns es)).
Proof.
  intros Hnd. unfold siblingsOf.
  apply (Permutation_NoDup
           (l := map id (targetNodes (outgoingEdges parentId es) ns))).
  - apply Permutation_map. symmetry. apply (sortBy_perm byTimestampAsc).
  - apply targetNodes_ids_NoDup. unfold outgoingEdges. now apply NoDup_targets_filter.
Qed.

(** So the last sibling occurs nowhere before. *)
Lemma last_sibling_occurs_once (parentId : string) (ns : list ChatNode)
    (es : list Edge) (front : list ChatNode) (last : ChatNode) :
  NoDup (map target es) ->
  siblingsOf parentId ns es = front ++ [last] ->
  ~ In (id last) (map id front).
Proof.
  intros Hnd Hsib. pose proof (@siblings_ids_NoDup parentId ns es Hnd) as Hids.
  rewrite Hsib, map_app in Hids. simpl in Hids.
  apply NoDup_remove_2 in Hids. now rewrite app_nil_r in Hids.
Qed.

Lemma findIndex_head (f : ChatNode -> bool) (a : ChatNode) (l : list ChatNode) :
  f a = true -> findIndex f (a :: l) = 0%Z.
Proof. intros H. simpl. now rewrite H. Qed.

Lemma findIndex_last (f : ChatNode -> bool) (front : list ChatNode) (a : ChatNode) :
  (forall m, In m front -> f m = false) -> f a = true ->
  findIndex f (front ++ [a]) = Z.of_nat (List.length front).
Proof.
  intros Hfront Ha. induction front as [|b front IH].
  - simpl. now rewrite Ha.
  - simpl app. cbn [findIndex]. rewrite (Hfront b) by (simpl; tauto).
    rewrite IH by (intros m Hm; apply Hfront; simpl; tauto).
    destruct (Z.of_nat (List.length front) <? 0)%Z eqn:Hlt;
      [apply Z.ltb_lt in Hlt; lia|].
    simpl List.length. lia.
Qed.

Lemma at_index_past_end (l : list ChatNode) :
  at_index l (Z.of_nat (List.length l)) = None.
Proof.
  unfold at_index.
  destruct (Z.of_nat (List.length l) <? 0)%Z; [reflexivity|].
  rewrite Nat2Z.id. apply nth_error_None. lia.
Qed.

Lemma startNodeId_focused (ns : list ChatNode) (c : string) (node : ChatNode) :
  c <> "" -> findNode c ns = Some node -> startNodeId ns (Some c) = Some c.
Proof.
  intros Hne Hfind. unfold startNodeId. now rewrite (truthy_true Hne), Hfind.
Qed.

Lemma filterBoolean_In (l : list (option ChatNode)) (n : ChatNode) :
  In n (filterBoolean l) <-> In (Some n) l.
Proof.
  induction l as [|[m|] l IH]; simpl; [tauto| |].
  - rewrite IH. split; intros [H | H]; auto; left; congruence.
  - rewrite IH. split; [auto | intros [H | H]; [discriminate | exact H]].
Qed.

Lemma children_are_childOf (p : string) (ns : list ChatNode) (es : list Edge)
    (n : ChatNode) :
  In n (targetNodes (outgoingEdges p es) ns) <-> childOf p ns es n.
Proof.
  unfold targetNodes, outgoingEdges, childOf.
  rewrite filterBoolean_In, in_map_iff. split.
  - intros (e & Hfind & Hin). apply filter_In in Hin. destruct Hin as (Hin & Hsrc).
    apply String.eqb_eq in Hsrc. now exists e.
  - intros (e & Hin & Hsrc & Hfind). exists e. split; [exact Hfind|].
    apply filter_In. split; [exact Hin | now apply String.eqb_eq].
Qed.

Lemma siblings_are_childOf (p : string) (ns : list ChatNode) (es : list Edge)
    (n : ChatNode) :
  In n (siblingsOf p ns es) <-> childOf p ns es n.
Proof.
  rewrite <- children_are_childOf. unfold siblingsOf. split; intros Hin.
  - exact (Permutation_in n (sortBy_perm byTimestampAsc _) Hin).
  - exact (Permutation_in n (Permutation_sym (sortBy_perm byTimestampAsc _)) Hin).
Qed.

Lemma siblings_sorted (p : string) (ns : list ChatNode) (es : list Edge) :
  StronglySorted olderFirst (siblingsOf p ns es).
Proof.
  apply (@sortBy_sorted ChatNode (fun n => timestamp (data n)) byTimestampAsc
           byTimestampAsc_key).
Qed.

Lemma sorted_neighbours (l : list ChatNode) :
  StronglySorted olderFirst l ->
  forall i a b, nth_error l i = Some a -> nth_error l (S i) = Some b ->
    olderFirst a b.
Proof.
  induction 1 as [|x l Hs IH Hx]; intros i a b Ha Hb; [destruct i; discriminate|].
  destruct i as [|i].
  - simpl in Ha. injection Ha as <-. simpl in Hb.
    rewrite Forall_forall in Hx. apply Hx. destruct l; [discriminate|].
    simpl in Hb. injection Hb as <-. now left.
  - exact (IH i a b Ha Hb).
Qed.

Lemma findIndex_found (f : ChatNode -> bool) (l : list ChatNode) :
  (exists m, In m l /\ f m = true) ->
  exists i m, findIndex f l = Z.of_nat i /\ nth_error l i = Some m /\ f m = true.
Proof.
  induction l as [|a l IH]; intros (m & Hin & Hm); [destruct Hin|].
  cbn [findIndex]. destruct (f a) eqn:Ha.
  - now exists 0%nat, a.
  - destruct Hin as [-> | Hin]; [congruence|].
    destruct IH as (i & m' & Hidx & Hnth & Hm'); [now exists m|].
    exists (S i), m'. rewrite Hidx.
    destruct (Z.of_nat i <? 0)%Z eqn:Hneg; [apply Z.ltb_lt in Hneg; lia|].
    repeat split; [lia | exact Hnth | exact Hm'].
Qed.

(** A child with the id of the focused node is the focused node. *)
Lemma child_with_id (p c : string) (ns : list ChatNode) (es : list Edge)
    (node m : ChatNode) :
  findNode c ns = Some node -> childOf p ns es m -> id m = c -> m = node.
Proof.
  intros Hfind (e & _ & _ & Hm) Hid.
  destruct (@findNode_id _ _ _ Hm) as [Htarget _].
  rewrite <- Htarget, Hid, Hfind in Hm. congruence.
Qed.

Lemma focused_is_sibling (c : string) (ns : list ChatNode) (es : list Edge)
    (node : ChatNode) (e : Edge) :
  findNode c ns = Some node -> findParentEdge c es = Some e ->
  In node (siblingsOf (source e) ns es).
Proof.
  intros Hfind He. apply siblings_are_childOf.
  destruct (@findParentEdge_target c es e He) as [Htarget Hin].
  exists e. rewrite Htarget. tauto.
Qed.

Lemma left_of_oldest (c : string) (ns : list ChatNode) (es : list Edge)
    (node : ChatNode) (e : Edge) :
  findNode c ns = Some node -> findParentEdge c es = Some e ->
  (forall n, childOf (source e) ns es n -> id n <> c ->
     (timestamp (data node) < timestamp (data n))%Z) ->
  nextNodeId ArrowLeft c ns es = None.
Proof.
  intros Hfind He Hleast. simpl nextNodeId. rewrite He.
  pose proof (@focused_is_sibling c ns es node e Hfind He) as Hin.
  pose proof (siblings_sorted (source e) ns es) as Hsorted.
  assert (Hchild : forall n, In n (siblingsOf (source e) ns es) ->
                     childOf (source e) ns es n)
    by (intros n; apply siblings_are_childOf).
  destruct (siblingsOf (source e) ns es) as [|first rest]; [destruct Hin|].
  assert (Hfirst : id first = c).
  { destruct (string_dec (id first) c) as [Heq | Hne]; [exact Heq|].
    exfalso. pose proof (Hleast first (Hchild first (or_introl eq_refl)) Hne) as Hlt.
    apply StronglySorted_inv in Hsorted. destruct Hsorted as [_ Hall].
    rewrite Forall_forall in Hall.
    destruct Hin as [<- | Hin]; [lia|].
    specialize (Hall node Hin). unfold olderFirst in Hall. lia. }
  rewrite findIndex_head by (now apply String.eqb_eq). reflexivity.
Qed.

Lemma right_of_newest (c : string) (ns : list ChatNode) (es : list Edge)
    (node : ChatNode) (e : Edge) :
  findNode c ns = Some node -> findParentEdge c es = Some e ->
  (forall n, childOf (source e) ns es n -> id n <> c ->
     (timestamp (data n) < timestamp (data node))%Z) ->
  nextNodeId ArrowRight c ns es = None \/ nextNodeId ArrowRight c ns es = Some c.
Proof.
  intros Hfind He Hgreatest. simpl nextNodeId. rewrite He.
  pose proof (@focused_is_sibling c ns es node e Hfind He) as Hin.
  pose proof (siblings_sorted (source e) ns es) as Hsorted.
  assert (Hchild : forall n, In n (siblingsOf (source e) ns es) ->
                     childOf (source e) ns es n)
    by (intros n; apply siblings_are_childOf).
  set (siblings := siblingsOf (source e) ns es) in *.
  destruct (@findIndex_found (fun n => (id n =? c)%string) siblings)
    as (i & m & Hidx & Hnth & Hm).
  { exists node. split; [exact Hin|]. apply String.eqb_eq.
    exact (proj1 (@findNode_id c ns node Hfind)). }
  apply String.eqb_eq in Hm. rewrite Hidx.
  destruct (Z.of_nat i =? -1)%Z eqn:Hneg; [apply Z.eqb_eq in Hneg; lia|].
  replace (Z.of_nat i + 1)%Z with (Z.of_nat (S i)) by lia.
  unfold at_index.
  destruct (Z.of_nat (S i) <? 0)%Z eqn:Hlt; [apply Z.ltb_lt in Hlt; lia|].
  rewrite Nat2Z.id.
  destruct (nth_error siblings (S i)) as [m'|] eqn:Hnext; [|now left].
  right. f_equal.
  destruct (string_dec (id m') c) as [Heq | Hne]; [exact Heq|].
  exfalso.
  assert (Hmnode : m = node).
  { apply (@child_with_id (source e) c ns es node m Hfind); [|exact Hm].
    apply Hchild. exact (nth_error_In _ _ Hnth). }
  pose proof (Hgreatest m' (Hchild m' (nth_error_In _ _ Hnext)) Hne) as Hyounger.
  pose proof (@sorted_neighbours siblings Hsorted i m m' Hnth Hnext) as Hle.
  unfold olderFirst in Hle. subst m. lia.
Qed.

(** C6.  On a snapshot whose node ids are non-empty, with the focus on an
    existing node: ArrowDown moves the focus to a child whose timestamp is
    the greatest among the children (whenever there is at least one, so in
    particular with two or more) and leaves the focus alone when there is
    none; ArrowLeft leaves the focus alone when the focused node is the
    first of its siblings in ascending order of timestamp, and ArrowRight
    when it is the last one (and occurs only there); both leave it alone
    when the focused node has no parent.  The children of a node are the
    nodes found for the targets of the edges that leave it, and the siblings
    are the children of the parent (the source of the first edge into the
    focused node) in ascending order of timestamp.  In particular ArrowLeft
    leaves the focus alone when every other child of the parent is strictly
    newer than the focused node, and ArrowRight when every other child is
    strictly older. *)
Theorem navigation_determinism (currentNodes : list ChatNode) (currentEdges : list Edge)
    (c : string) (node : ChatNode) :
  Forall (fun n => id n <> "") currentNodes ->
  findNode c currentNodes = Some node ->
  (targetNodes (outgoingEdges c currentEdges) currentNodes <> [] ->
   exists child,
     In child (targetNodes (outgoingEdges c currentEdges) currentNodes) /\
     (forall m, In m (targetNodes (outgoingEdges c currentEdges) currentNodes) ->
        (timestamp (data m) <= timestamp (data child))%Z) /\
     handleKeyDown ArrowDown currentNodes currentEdges (Some c) = Some (id child)) /\
  (targetNodes (outgoingEdges c currentEdges) currentNodes = [] ->
   handleKeyDown ArrowDown currentNodes currentEdges (Some c) = Some c) /\
  (forall e first rest,
     findParentEdge c currentEdges = Some e ->
     siblingsOf (source e) currentNodes currentEdges = first :: rest ->
     id first = c ->
     handleKeyDown ArrowLeft currentNodes currentEdges (Some c) = Some c) /\
  (forall e front last,
     findParentEdge c currentEdges = Some e ->
     siblingsOf (source e) currentNodes currentEdges = front ++ [last] ->
     id last = c ->
     ~ In c (map id front) ->
     handleKeyDown ArrowRight currentNodes currentEdges (Some c) = Some c) /\
  (findParentEdge c currentEdges = None ->
   handleKeyDown ArrowLeft currentNodes currentEdges (Some c) = Some c /\
   handleKeyDown ArrowRight currentNodes currentEdges (Some c) = Some c) /\
  (forall p n,
     In n (targetNodes (outgoingEdges p currentEdges) currentNodes) <->
     childOf p currentNodes currentEdges n) /\
  (forall p,
     (forall n, In n (siblingsOf p currentNodes currentEdges) <->
                childOf p currentNodes currentEdges n) /\
     StronglySorted olderFirst (siblingsOf p currentNodes currentEdges)) /\
  (forall e,
     findParentEdge c currentEdges = Some e ->
     ((forall n, childOf (source e) currentNodes currentEdges n -> id n <> c ->
         (timestamp (data node) < timestamp (data n))%Z) ->
      handleKeyDown ArrowLeft currentNodes currentEdges (Some c) = Some c) /\
     ((forall n, childOf (source e) currentNodes currentEdges n -> id n <> c ->
         (timestamp (data n) < timestamp (data node))%Z) ->
      handleKeyDown ArrowRight currentNodes currentEdges (Some c) = Some c)).
Proof.
  intros Hids Hfind.
  assert (Hc : c <> "").
  { apply findNode_id in Hfind. destruct Hfind as [<- Hin].
    rewrite Forall_forall in Hids. now apply Hids. }
  assert (Hstart : startNodeId currentNodes (Some c) = Some c)
    by (eapply startNodeId_focused; eauto).
  assert (Htc : truthy_opt (Some c) = true) by (simpl; now apply truthy_true).
  unfold handleKeyDown. rewrite Hstart, Htc. simpl negb.
  split; [|split; [|split; [|split; [|split; [|split; [|split]]]]]].
  - intros Hne. simpl nextNodeId.
    set (children := targetNodes (outgoingEdges c currentEdges) currentNodes) in *.
    pose proof (@sortBy_headLeast ChatNode (fun n => (- timestamp (data n))%Z)
                  byTimestampDesc byTimestampDesc_key children) as Hleast.
    pose proof (sortBy_perm byTimestampDesc children) as Hperm.
    pose proof (@sortBy_nonempty _ byTimestampDesc children Hne) as Hsorted.
    destruct (sortBy byTimestampDesc children) as [|child rest]; [congruence|].
    assert (Hin : In child children)
      by (apply (Permutation_in child Hperm); simpl; tauto).
    exists child. split; [exact Hin|]. split.
    + intros m Hm. simpl in Hleast.
      assert (Hm' : In m (child :: rest))
        by (apply (Permutation_in m (Permutation_sym Hperm)); exact Hm).
      specialize (Hleast m Hm'). lia.
    + apply targetNodes_In in Hin. destruct Hin as [Hin _].
      rewrite Forall_forall in Hids.
      rewrite (truthy_true (Hids child Hin)). unfold focusNode.
      destruct (findNode_present (id child) currentNodes) as (n & -> & _);
        [now apply in_map | reflexivity].
  - intros Hnone. simpl nextNodeId. rewrite Hnone. reflexivity.
  - intros e first rest He Hsib Hfirst. simpl nextNodeId. rewrite He, Hsib.
    rewrite findIndex_head by (now apply String.eqb_eq). reflexivity.
  - intros e front last He Hsib Hlast Hfront. simpl nextNodeId. rewrite He, Hsib.
    rewrite findIndex_last.
    + destruct (Z.of_nat (List.length front) =? -1)%Z eqn:Hneg;
        [apply Z.eqb_eq in Hneg; lia|].
      replace (Z.of_nat (List.length front) + 1)%Z
        with (Z.of_nat (List.length (front ++ [last])))
        by (rewrite length_app; simpl; lia).
      now rewrite at_index_past_end.
    + intros m Hm. apply String.eqb_neq. intros Heq. apply Hfront.
      rewrite <- Heq. now apply in_map.
    + now apply String.eqb_eq.
  - intros Hroot. simpl nextNodeId. rewrite Hroot. split; reflexivity.
  - intros p n. apply children_are_childOf.
  - intros p. split; [intros n; apply siblings_are_childOf | apply siblings_sorted].
  - intros e He. split.
    + intros Hleast.
      now rewrite (@left_of_oldest c currentNodes currentEdges node e Hfind He Hleast).
    + intros Hgreatest.
      destruct (@right_of_newest c currentNodes currentEdges node e Hfind He Hgreatest)
        as [-> | ->]; [reflexivity|].
      rewrite (truthy_true Hc). unfold focusNode. now rewrite Hfind.
Qed.

Lemma navigation_determinism_witness :
  handleKeyDown ArrowDown (nodes threeChildren) (edges threeChildren) (Some "root")
    = Some "input-3000" /\
  handleKeyDown ArrowDown (nodes threeChildren) (edges threeChildren) (Some "input-1000")
    = Some "input-1000" /\
  handleKeyDown ArrowLeft (nodes threeChildren) (edges threeChildren) (Some "input-1000")
    = Some "input-1000" /\
  handleKeyDown ArrowRight (nodes threeChildren) (edges threeChildren) (Some "input-3000")
    = Some "input-3000".
Proof.
  assert (Hids : Forall (fun n => id n <> "") (nodes threeChildren))
    by (repeat constructor; discriminate).
  split; [|split; [|split]].
  - destruct (@navigation_determinism (nodes threeChildren) (edges threeChildren)
                "root" _ Hids eq_refl) as (Hdown & _).
    destruct Hdown as (child & Hin & Hmax & ->); [discriminate|].
    simpl in Hin. destruct Hin as [<- | [<- | [<- | []]]]; try reflexivity.
    + exfalso.
      assert (H : (3000 <= 1000)%Z)
        by (apply (Hmax (newInputNode "root" (mkXY 300 300) 3000 3000));
            simpl; tauto).
      lia.
    + exfalso.
      assert (H : (3000 <= 2000)%Z)
        by (apply (Hmax (newInputNode "root" (mkXY 300 300) 3000 3000));
            simpl; tauto).
      lia.
  - destruct (@navigation_determinism (nodes threeChildren) (edges threeChildren)
                "input-1000" _ Hids eq_refl) as (_ & Hnone & _).
    apply Hnone. reflexivity.
  - destruct (@navigation_determinism (nodes threeChildren) (edges threeChildren)
                "input-1000" _ Hids eq_refl) as (_ & _ & Hleft & _).
    eapply Hleft; reflexivity.
  - destruct (@navigation_determinism (nodes threeChildren) (edges threeChildren)
                "input-3000" _ Hids eq_refl) as (_ & _ & _ & Hright & _).
    apply (Hright (newInputEdge "root" "bottom" 3000)
                  [newInputNode "root" (mkXY 0 300) 1000 1000;
                   newInputNode "root" (mkXY 600 300) 2000 2000]
                  (newInputNode "root" (mkXY 300 300) 3000 3000));
      try reflexivity.
    simpl. intuition discriminate.
Defined.

(** C6 as the spec words it fails on a snapshot in which a node has the
    empty string as its id, which an imported file can bring in: the root
    has two children, the newer of them is the node with the empty id, and
    ArrowDown on the root leaves the focus on the root, because the handler
    takes the empty id for no id at all. *)
Lemma arrow_down_stops_at_empty_id :
  fst (importState (Some (serializeState "now" emptyIdChild)) (storeOf (initialState 1)))
    = true /\
  map (fun n => (id n, timestamp (data n)))
      (targetNodes (outgoingEdges "root" (edges emptyIdChild)) (nodes emptyIdChild))
    = [("a", 10%Z); ("", 20%Z)] /\
  handleKeyDown ArrowDown (nodes emptyIdChild) (edges emptyIdChild) (Some "root")
    = Some "root".
Proof. repeat split. Qed.

Lemma startNodeId_unfocused (currentNodes : list ChatNode) (focused : option string)
    (start : ChatNode) :
  unfocused currentNodes focused ->
  defaultStart currentNodes = Some start ->
  startNodeId currentNodes focused = Some (id start).
Proof.
  unfold defaultStart, startNodeId. intros Hun Hdef.
  assert (Hfound : match focused with
                   | Some f => if truthy f then findNode f currentNodes else None
                   | None => None
                   end = None).
  { destruct Hun as [-> | [-> | (f & -> & Hnone)]]; try reflexivity.
    rewrite Hnone. now destruct (truthy f). }
  rewrite Hfound.
  destruct (findNode "root" currentNodes) as [r|].
  - injection Hdef as ->. now destruct focused.
  - destruct currentNodes as [|first rest]; [discriminate|].
    injection Hdef as ->. now destruct focused.
Qed.

Lemma defaultStart_In (currentNodes : list ChatNode) (start : ChatNode) :
  defaultStart currentNodes = Some start -> In start currentNodes.
Proof.
  unfold defaultStart.
  destruct (findNode "root" currentNodes) as [r|] eqn:Hroot.
  - intros H. injection H as <-. now apply findNode_id in Hroot.
  - destruct currentNodes; [discriminate|]. intros H. injection H as <-. now left.
Qed.

(** C7 as the code has it.  With nothing focused (or the focused node
    gone) on a non-empty snapshot, the key starts from the node ["root"] if
    there is one, else from the first node of the list, and the intent is
    applied from there: when it yields an id of an existing node the focus
    moves to that node.  Only when it yields nothing is the focus set to
    the starting node, and only if no focus id was recorded; a recorded id
    whose node is gone is then left in place. *)
Theorem unfocused_key_starts_from_default (key : NavKey)
    (currentNodes : list ChatNode) (currentEdges : list Edge)
    (focused : option string) (start : ChatNode) :
  unfocused currentNodes focused ->
  defaultStart currentNodes = Some start ->
  startNodeId currentNodes focused = Some (id start) /\
  (forall next n,
     nextNodeId key (id start) currentNodes currentEdges = Some next ->
     next <> "" -> findNode next currentNodes = Some n ->
     handleKeyDown key currentNodes currentEdges focused = Some next) /\
  (nextNodeId key (id start) currentNodes currentEdges = None \/
   nextNodeId key (id start) currentNodes currentEdges = Some "" ->
   (truthy_opt focused = false ->
    handleKeyDown key currentNodes currentEdges focused = Some (id start)) /\
   (truthy_opt focused = true ->
    handleKeyDown key currentNodes currentEdges focused = focused)).
Proof.
  intros Hun Hdef.
  pose proof (startNodeId_unfocused Hun Hdef) as Hstart.
  split; [exact Hstart|]. unfold handleKeyDown. rewrite Hstart. split.
  - intros next n Hnext Hne Hfind. rewrite Hnext, (truthy_true Hne).
    unfold focusNode. now rewrite Hfind.
  - intros Hnone.
    assert (Hfocus : focusNode (id start) currentNodes focused = Some (id start)).
    { unfold focusNode.
      destruct (findNode_present (id start) currentNodes) as (n & -> & _);
        [apply in_map; now apply defaultStart_In | reflexivity]. }
    split; intros Ht; destruct Hnone as [-> | ->]; simpl; rewrite Ht; simpl; auto.
Qed.

Lemma unfocused_key_starts_from_default_witness :
  handleKeyDown ArrowUp (nodes placeholderState) (edges placeholderState) None
  = Some "root".
Proof.
  destruct (@unfocused_key_starts_from_default ArrowUp
              (nodes placeholderState) (edges placeholderState) None
              (mkNode "root" (Some "message") (mkXY 250 50)
                 (mkData None root_greeting assistant 1 None None None) None))
    as (_ & _ & Hstay).
  - now left.
  - reflexivity.
  - apply Hstay; [now left | reflexivity].
Defined.

(** C7 as the spec words it fails.  With nothing focused, ArrowDown and Tab
    from the state after one submit end on the root's child, not on the
    root; and without a node ["root"] the start is the first node of the
    list, not the oldest one, which is what Cmd+ArrowUp goes to. *)
Lemma unfocused_key_moves_past_root :
  handleKeyDown ArrowDown (nodes placeholderState) (edges placeholderState) None
    = Some "input-1000" /\
  handleKeyDown Tab (nodes placeholderState) (edges placeholderState) None
    = Some "input-1000" /\
  handleKeyDown ArrowUp
    [ mkNode "late" (Some "message") (mkXY 0 0)
        (mkData None "" assistant 9 None None None) None;
      mkNode "early" (Some "message") (mkXY 0 0)
        (mkData None "" assistant 1 None None None) None ] [] None
    = Some "late" /\
  jumpToRoot
    [ mkNode "late" (Some "message") (mkXY 0 0)
        (mkData None "" assistant 9 None None None) None;
      mkNode "early" (Some "message") (mkXY 0 0)
        (mkData None "" assistant 1 None None None) None ] None
    = Some "early".
Proof. repeat split. Qed.

(** * Further properties of the code *)

Lemma byTimestampTab_key (a b : ChatNode) :
  byTimestampTab a b = (timestamp (data a) - timestamp (data b))%Z.
Proof. reflexivity. Qed.

Lemma tabOrder_sorted (ns : list ChatNode) : StronglySorted olderFirst (tabOrder ns).
Proof.
  apply (@sortBy_sorted ChatNode (fun n => timestamp (data n)) byTimestampTab
           byTimestampTab_key ns).
Qed.

Lemma tabOrder_perm (ns : list ChatNode) : Permutation (tabOrder ns) ns.
Proof. apply sortBy_perm. Qed.

(** ** The focus never leaves the snapshot *)

Lemma focusNode_cases (nodeId : string) (ns : list ChatNode) (focused : option string) :
  focusNode nodeId ns focused = focused \/
  exists n, In n ns /\ id n = nodeId /\ focusNode nodeId ns focused = Some nodeId.
Proof.
  unfold focusNode. destruct (findNode nodeId ns) as [n|] eqn:Hfind; [|now left].
  right. exists n. apply findNode_id in Hfind. tauto.
Qed.

(** Whatever the key, the focus afterwards is the focus before or the id of
    a node of the snapshot: the handler never records an id that no node
    has.  The same holds for the two jumps. *)
Theorem focus_stays_in_snapshot (key : NavKey) (currentNodes : list ChatNode)
    (currentEdges : list Edge) (focused : option string) :
  (handleKeyDown key currentNodes currentEdges focused = focused \/
   exists n, In n currentNodes /\
     handleKeyDown key currentNodes currentEdges focused = Some (id n)) /\
  (jumpToRoot currentNodes focused = focused \/
   exists n, In n currentNodes /\ jumpToRoot currentNodes focused = Some (id n)) /\
  (jumpToLatest currentNodes focused = focused \/
   exists n, In n currentNodes /\ jumpToLatest currentNodes focused = Some (id n)).
Proof.
  assert (Hfocus : forall nodeId,
            focusNode nodeId currentNodes focused = focused \/
            exists n, In n currentNodes /\
              focusNode nodeId currentNodes focused = Some (id n)).
  { intros nodeId.
    destruct (focusNode_cases nodeId currentNodes focused) as [H | (n & Hin & Hid & H)];
      [now left | right; exists n; subst; tauto]. }
  split; [|split].
  - unfold handleKeyDown.
    destruct (startNodeId currentNodes focused) as [cur|]; [|now left].
    destruct (nextNodeId key cur currentNodes currentEdges) as [next|].
    + destruct (truthy next); [apply Hfocus|].
      destruct (negb (truthy_opt focused)); [apply Hfocus | now left].
    + destruct (negb (truthy_opt focused)); [apply Hfocus | now left].
  - unfold jumpToRoot. destruct currentNodes as [|first rest]; [now left|].
    destruct (findNode "root" (first :: rest)); [apply Hfocus|].
    destruct (hd_error _); [apply Hfocus | now left].
  - unfold jumpToLatest. destruct currentNodes as [|first rest]; [now left|].
    destruct (sortBy byTimestampDesc (first :: rest)); [now left | apply Hfocus].
Qed.

(** ** Tab *)

Lemma findIndex_nth (s : list ChatNode) :
  NoDup (map id s) ->
  forall i n, nth_error s i = Some n ->
    findIndex (fun m => (id m =? id n)%string) s = Z.of_nat i.
Proof.
  induction s as [|a s IH]; intros Hnd i n Hnth; [now destruct i|].
  simpl in Hnd. apply NoDup_cons_iff in Hnd. destruct Hnd as [Hnotin Hnd].
  destruct i as [|i]; simpl in Hnth.
  - injection Hnth as ->. simpl. now rewrite String.eqb_refl.
  - cbn [findIndex].
    assert (Hne : (id a =? id n)%string = false).
    { apply String.eqb_neq. intros Heq. apply Hnotin. rewrite Heq.
      apply in_map. eapply nth_error_In; eauto. }
    rewrite Hne, (IH Hnd i n Hnth).
    destruct (Z.of_nat i <? 0)%Z eqn:Hlt; [apply Z.ltb_lt in Hlt; lia | lia].
Qed.

Lemma at_index_nat (s : list ChatNode) (j : nat) :
  at_index s (Z.of_nat j) = nth_error s j.
Proof.
  unfold at_index.
  destruct (Z.of_nat j <? 0)%Z eqn:Hlt; [apply Z.ltb_lt in Hlt; lia|].
  now rewrite Nat2Z.id.
Qed.

Lemma tab_step (ns : list ChatNode) (es : list Edge) (i : nat) (n : ChatNode) :
  NoDup (map id ns) ->
  Forall (fun m => id m <> "") ns ->
  nth_error (tabOrder ns) i = Some n ->
  exists m,
    nth_error (tabOrder ns) (S i mod List.length ns) = Some m /\
    handleKeyDown Tab ns es (Some (id n)) = Some (id m).
Proof.
  intros Hnd Hids Hnth.
  pose proof (tabOrder_perm ns) as Hperm.
  assert (Hlen : List.length (tabOrder ns) = List.length ns)
    by now apply Permutation_length.
  assert (Hi : (i < List.length ns)%nat).
  { rewrite <- Hlen. apply nth_error_Some. congruence. }
  assert (Hnext : (S i mod List.length ns < List.length (tabOrder ns))%nat).
  { rewrite Hlen. apply Nat.mod_upper_bound. lia. }
  destruct (nth_error (tabOrder ns) (S i mod List.length ns)) as [m|] eqn:Hm;
    [|apply nth_error_None in Hm; lia].
  exists m. split; [reflexivity|].
  rewrite Forall_forall in Hids.
  assert (Hin : forall k q, nth_error (tabOrder ns) k = Some q -> In q ns).
  { intros k q Hq. apply (Permutation_in q Hperm). eapply nth_error_In; eauto. }
  assert (Hn : In n ns) by eauto. assert (Hmn : In m ns) by eauto.
  destruct (findNode_present (id n) ns) as (n' & Hfind & _); [now apply in_map|].
  unfold handleKeyDown.
  rewrite (@startNodeId_focused ns (id n) n' (Hids n Hn) Hfind).
  cbn [nextNodeId]. fold (tabOrder ns).
  rewrite findIndex_nth with (i := i);
    [| apply (Permutation_NoDup (l := map id ns));
       [now apply Permutation_map, Permutation_sym | exact Hnd]
     | exact Hnth].
  rewrite Hlen.
  replace ((Z.of_nat i + 1) mod Z.of_nat (List.length ns))%Z
    with (Z.of_nat (S i mod List.length ns))
    by (rewrite Nat2Z.inj_mod; f_equal; lia).
  rewrite at_index_nat, Hm, (truthy_true (Hids m Hmn)).
  unfold focusNode.
  destruct (findNode_present (id m) ns) as (m' & -> & _);
    [now apply in_map | reflexivity].
Qed.

Lemma tab_steps (ns : list ChatNode) (es : list Edge) :
  NoDup (map id ns) ->
  Forall (fun m => id m <> "") ns ->
  forall k i n,
    nth_error (tabOrder ns) i = Some n ->
    exists m,
      nth_error (tabOrder ns) ((i + k) mod List.length ns) = Some m /\
      Nat.iter k (handleKeyDown Tab ns es) (Some (id n)) = Some (id m).
Proof.
  intros Hnd Hids k. induction k as [|k IH]; intros i n Hnth.
  - exists n. split; [|reflexivity].
    rewrite Nat.add_0_r, Nat.mod_small; [exact Hnth|].
    rewrite <- (Permutation_length (tabOrder_perm ns)).
    apply nth_error_Some. congruence.
  - destruct (IH i n Hnth) as (m & Hm & Hiter).
    destruct (tab_step es _ Hnd Hids Hm) as (m' & Hm' & Hstep).
    exists m'. split.
    + rewrite <- Hm'. f_equal.
      assert (Hpos : List.length ns <> 0%nat).
      { intros H0. rewrite H0 in Hm. simpl in Hm.
        assert (Hlt : (i + k < List.length (tabOrder ns))%nat)
          by (apply nth_error_Some; congruence).
        rewrite (Permutation_length (tabOrder_perm ns)), H0 in Hlt. lia. }
      replace (i + S k)%nat with (S (i + k)) by lia.
      rewrite <- Nat.add_1_r, <- (Nat.add_1_r ((i + k) mod _)).
      now rewrite Nat.Div0.add_mod_idemp_l.
    + simpl. now rewrite Hiter.
Qed.

(** On a snapshot whose node ids are non-empty and pairwise distinct, Tab
    goes from a node to the next one in ascending order of timestamp and
    wraps from the last to the first, so as many presses as there are nodes
    lead back to the node one started from. *)
Theorem tab_cycles_through_all_nodes (currentNodes : list ChatNode)
    (currentEdges : list Edge) (i : nat) (n : ChatNode) :
  NoDup (map id currentNodes) ->
  Forall (fun m => id m <> "") currentNodes ->
  nth_error (tabOrder currentNodes) i = Some n ->
  StronglySorted olderFirst (tabOrder currentNodes) /\
  Permutation (tabOrder currentNodes) currentNodes /\
  (exists m,
     nth_error (tabOrder currentNodes) (S i mod List.length currentNodes) = Some m /\
     handleKeyDown Tab currentNodes currentEdges (Some (id n)) = Some (id m)) /\
  Nat.iter (List.length currentNodes) (handleKeyDown Tab currentNodes currentEdges)
    (Some (id n)) = Some (id n).
Proof.
  intros Hnd Hids Hnth.
  split; [apply tabOrder_sorted|]. split; [apply tabOrder_perm|].
  split; [now apply tab_step|].
  destruct (@tab_steps currentNodes currentEdges Hnd Hids
              (List.length currentNodes) i n Hnth) as (m & Hm & Hiter).
  assert (Hi : (i < List.length currentNodes)%nat).
  { rewrite <- (Permutation_length (tabOrder_perm currentNodes)).
    apply nth_error_Some. congruence. }
  replace ((i + List.length currentNodes) mod List.length currentNodes)%nat
    with i in Hm
    by (rewrite Nat.Div0.add_mod, Nat.Div0.mod_same, Nat.add_0_r,
          Nat.Div0.mod_mod, Nat.mod_small; lia).
  rewrite Hiter. congruence.
Qed.

Lemma tab_cycles_through_all_nodes_witness :
  handleKeyDown Tab (nodes threeChildren) (edges threeChildren) (Some "input-3000")
    = Some "root" /\
  Nat.iter 4 (handleKeyDown Tab (nodes threeChildren) (edges threeChildren))
    (Some "input-3000") = Some "input-3000".
Proof.
  assert (Hnd : NoDup (map id (nodes threeChildren)))
    by (simpl; repeat constructor; simpl; intuition discriminate).
  assert (Hids : Forall (fun m => id m <> "") (nodes threeChildren))
    by (repeat constructor; discriminate).
  destruct (@tab_cycles_through_all_nodes (nodes threeChildren) (edges threeChildren)
              3 (newInputNode "root" (mkXY 300 300) 3000 3000) Hnd Hids eq_refl)
    as (_ & _ & (m & Hm & Hstep) & Hcycle).
  split; [|exact Hcycle].
  etransitivity; [exact Hstep|].
  simpl in Hm. injection Hm as <-. reflexivity.
Defined.

(** Without distinct ids the cycle can break: after two submits within one
    millisecond two nodes are called "ai-5", and Tab on that id stays on
    it. *)
Lemma tab_stays_on_shared_id :
  map id (tabOrder (nodes (run sameMillisecond (initialState 1))))
    = ["root"; "input-1"; "input-2"; "ai-5"; "ai-5"] /\
  handleKeyDown Tab (nodes (run sameMillisecond (initialState 1)))
    (edges (run sameMillisecond (initialState 1))) (Some "ai-5") = Some "ai-5".
Proof. split; reflexivity. Qed.

(** ** Parent, child and the jumps *)

Lemma same_target_same_edge (es : list Edge) (a b : Edge) :
  NoDup (map target es) -> In a es -> In b es -> target a = target b -> a = b.
Proof.
  induction es as [|e es IH]; simpl; intros Hnd Ha Hb Heq; [tauto|].
  apply NoDup_cons_iff in Hnd. destruct Hnd as [Hnotin Hnd].
  destruct Ha as [<- | Ha], Hb as [<- | Hb]; auto.
  - exfalso. apply Hnotin. rewrite Heq. now apply in_map.
  - exfalso. apply Hnotin. rewrite <- Heq. now apply in_map.
Qed.

Lemma child_has_edge (c : string) (es : list Edge) (ns : list ChatNode) (child : ChatNode) :
  In child (targetNodes (outgoingEdges c es) ns) ->
  In child ns /\ exists e, In e es /\ source e = c /\ target e = id child.
Proof.
  intros Hin. apply targetNodes_In in Hin. destruct Hin as [Hns Htarget].
  split; [exact Hns|]. apply in_map_iff in Htarget.
  destruct Htarget as (e & Heq & He). unfold outgoingEdges in He.
  apply filter_In in He. destruct He as [He Hsrc]. apply String.eqb_eq in Hsrc.
  now exists e.
Qed.

Lemma arrow_down_child (ns : list ChatNode) (es : list Edge) (c : string)
    (node : ChatNode) :
  Forall (fun n => id n <> "") ns ->
  findNode c ns = Some node ->
  targetNodes (outgoingEdges c es) ns <> [] ->
  exists child,
    In child (targetNodes (outgoingEdges c es) ns) /\
    handleKeyDown ArrowDown ns es (Some c) = Some (id child).
Proof.
  intros Hids Hfind Hne. rewrite Forall_forall in Hids.
  assert (Hc : c <> "").
  { apply findNode_id in Hfind. destruct Hfind as [<- Hin]. now apply Hids. }
  unfold handleKeyDown. rewrite (@startNodeId_focused ns c node Hc Hfind).
  cbn [nextNodeId].
  pose proof (sortBy_perm byTimestampDesc (targetNodes (outgoingEdges c es) ns))
    as Hperm.
  pose proof (@sortBy_nonempty _ byTimestampDesc _ Hne) as Hsorted.
  destruct (sortBy byTimestampDesc (targetNodes (outgoingEdges c es) ns))
    as [|child rest]; [congruence|].
  assert (Hin : In child (targetNodes (outgoingEdges c es) ns))
    by (apply (Permutation_in child Hperm); simpl; tauto).
  exists child. split; [exact Hin|].
  destruct (child_has_edge _ _ _ _ Hin) as [Hns _].
  rewrite (truthy_true (Hids child Hns)). unfold focusNode.
  destruct (findNode_present (id child) ns) as (n & -> & _);
    [now apply in_map | reflexivity].
Qed.

(** ArrowUp moves the focus to the parent, the source of the first edge
    into the focused node, when that node exists, and leaves the focus
    alone at a root or when the parent is gone.  With in-degree at most one
    it undoes ArrowDown. *)
Theorem arrow_up_goes_to_parent (currentNodes : list ChatNode)
    (currentEdges : list Edge) (c : string) (node : ChatNode) :
  Forall (fun n => id n <> "") currentNodes ->
  findNode c currentNodes = Some node ->
  (findParentEdge c currentEdges = None ->
   handleKeyDown ArrowUp currentNodes currentEdges (Some c) = Some c) /\
  (forall e p,
     findParentEdge c currentEdges = Some e ->
     findNode (source e) currentNodes = Some p ->
     handleKeyDown ArrowUp currentNodes currentEdges (Some c) = Some (source e)) /\
  (forall e,
     findParentEdge c currentEdges = Some e ->
     findNode (source e) currentNodes = None ->
     handleKeyDown ArrowUp currentNodes currentEdges (Some c) = Some c) /\
  (NoDup (map target currentEdges) ->
   targetNodes (outgoingEdges c currentEdges) currentNodes <> [] ->
   exists child,
     handleKeyDown ArrowDown currentNodes currentEdges (Some c) = Some (id child) /\
     handleKeyDown ArrowUp currentNodes currentEdges (Some (id child)) = Some c).
Proof.
  intros Hids Hfind.
  assert (Hall := Hids). rewrite Forall_forall in Hall.
  assert (Hc : c <> "").
  { pose proof (findNode_id _ _ Hfind) as [<- Hin]. now apply Hall. }
  assert (Hup : forall c' node' e p,
            c' <> "" -> findNode c' currentNodes = Some node' ->
            findParentEdge c' currentEdges = Some e ->
            findNode (source e) currentNodes = Some p ->
            handleKeyDown ArrowUp currentNodes currentEdges (Some c')
            = Some (source e)).
  { intros c' node' e p Hc' Hf He Hp. unfold handleKeyDown.
    rewrite (@startNodeId_focused currentNodes c' node' Hc' Hf).
    cbn [nextNodeId]. rewrite He.
    pose proof (findNode_id _ _ Hp) as [Hidp Hinp].
    assert (Hsrc : source e <> "") by (rewrite <- Hidp; now apply Hall).
    rewrite (truthy_true Hsrc). unfold focusNode. now rewrite Hp. }
  split; [|split; [|split]].
  - intros Hroot. unfold handleKeyDown.
    rewrite (@startNodeId_focused currentNodes c node Hc Hfind).
    cbn [nextNodeId]. rewrite Hroot. simpl. now rewrite (truthy_true Hc).
  - intros e p He Hp. now apply (Hup c node e p).
  - intros e He Hgone. unfold handleKeyDown.
    rewrite (@startNodeId_focused currentNodes c node Hc Hfind).
    cbn [nextNodeId]. rewrite He. unfold focusNode. rewrite Hgone.
    simpl. rewrite (truthy_true Hc). simpl. now destruct (truthy (source e)).
  - intros Hnd Hne.
    destruct (@arrow_down_child currentNodes currentEdges c node Hids Hfind Hne)
      as (child & Hin & Hdown).
    exists child. split; [exact Hdown|].
    destruct (child_has_edge _ _ _ _ Hin) as (Hns & e & He & Hsrc & Htgt).
    destruct (findNode_present (id child) currentNodes) as (n & Hn & _);
      [now apply in_map|].
    assert (Hedge : findParentEdge (id child) currentEdges = Some e).
    { destruct (findParentEdge (id child) currentEdges) as [e'|] eqn:He'.
      - apply findParentEdge_target in He'. destruct He' as [Ht Hin'].
        f_equal. apply (same_target_same_edge currentEdges); auto. congruence.
      - exfalso.
        pose proof (find_none _ _ He' e He) as Hno. simpl in Hno.
        rewrite Htgt, String.eqb_refl in Hno. discriminate. }
    rewrite <- Hsrc.
    apply (Hup (id child) n e node); auto. now rewrite Hsrc.
Qed.

Lemma arrow_up_goes_to_parent_witness :
  handleKeyDown ArrowUp (nodes placeholderState) (edges placeholderState)
    (Some "ai-2000") = Some "input-1000" /\
  handleKeyDown ArrowUp (nodes placeholderState) (edges placeholderState)
    (Some "root") = Some "root".
Proof.
  assert (Hids : Forall (fun n => id n <> "") (nodes placeholderState))
    by (repeat constructor; discriminate).
  split.
  - destruct (@arrow_up_goes_to_parent (nodes placeholderState) (edges placeholderState)
                "ai-2000" _ Hids eq_refl) as (_ & Hparent & _).
    apply (Hparent (assistantEdge (inputIdOf 1000) 2000)
             (toUserMessage "hi" (inputIdOf 1000)
                (newInputNode "root" (mkXY 0 0) 1000 1000))); reflexivity.
  - destruct (@arrow_up_goes_to_parent (nodes placeholderState) (edges placeholderState)
                "root" _ Hids eq_refl) as (Hroot & _).
    apply Hroot. reflexivity.
Defined.

(** Cmd+ArrowDown puts the focus on a node with the greatest timestamp of
    the snapshot; Cmd+ArrowUp puts it on the node called "root" and, when
    there is none, on a node with the least timestamp. *)
Theorem jumps_reach_extremes (currentNodes : list ChatNode) (focused : option string) :
  currentNodes <> [] ->
  (exists latest,
     In latest currentNodes /\
     (forall m, In m currentNodes -> (timestamp (data m) <= timestamp (data latest))%Z) /\
     jumpToLatest currentNodes focused = Some (id latest)) /\
  (forall r, findNode "root" currentNodes = Some r ->
     jumpToRoot currentNodes focused = Some "root") /\
  (findNode "root" currentNodes = None ->
   exists oldest,
     In oldest currentNodes /\
     (forall m, In m currentNodes -> (timestamp (data oldest) <= timestamp (data m))%Z) /\
     jumpToRoot currentNodes focused = Some (id oldest)).
Proof.
  intros Hne.
  assert (Hfocus : forall n, In n currentNodes ->
            focusNode (id n) currentNodes focused = Some (id n)).
  { intros n Hin. unfold focusNode.
    destruct (findNode_present (id n) currentNodes) as (n' & -> & _);
      [now apply in_map | reflexivity]. }
  split; [|split].
  - pose proof (@sortBy_headLeast ChatNode (fun n => (- timestamp (data n))%Z)
                  byTimestampDesc byTimestampDesc_key currentNodes) as Hleast.
    pose proof (sortBy_perm byTimestampDesc currentNodes) as Hperm.
    pose proof (@sortBy_nonempty _ byTimestampDesc currentNodes Hne) as Hsorted.
    unfold jumpToLatest. destruct currentNodes as [|first rest]; [congruence|].
    destruct (sortBy byTimestampDesc (first :: rest)) as [|latest others];
      [congruence|].
    assert (Hin : In latest (first :: rest))
      by (apply (Permutation_in latest Hperm); simpl; tauto).
    exists latest. split; [exact Hin|]. split; [|now apply Hfocus].
    intros m Hm. simpl in Hleast.
    assert (Hm' : In m (latest :: others))
      by (apply (Permutation_in m (Permutation_sym Hperm)); exact Hm).
    specialize (Hleast m Hm'). lia.
  - intros r Hroot. unfold jumpToRoot.
    destruct currentNodes as [|first rest]; [congruence|]. rewrite Hroot.
    pose proof (findNode_id _ _ Hroot) as [Hid Hin]. rewrite Hid.
    rewrite <- Hid at 1. rewrite Hfocus by exact Hin. now rewrite Hid.
  - intros Hnone.
    pose proof (@sortBy_headLeast ChatNode (fun n => timestamp (data n))
                  byTimestampAsc byTimestampAsc_key currentNodes) as Hleast.
    pose proof (sortBy_perm byTimestampAsc currentNodes) as Hperm.
    pose proof (@sortBy_nonempty _ byTimestampAsc currentNodes Hne) as Hsorted.
    unfold jumpToRoot. destruct currentNodes as [|first rest]; [congruence|].
    rewrite Hnone.
    destruct (sortBy byTimestampAsc (first :: rest)) as [|oldest others];
      [congruence|].
    assert (Hin : In oldest (first :: rest))
      by (apply (Permutation_in oldest Hperm); simpl; tauto).
    exists oldest. split; [exact Hin|]. split; [|now apply Hfocus].
    intros m Hm. simpl in Hleast. apply Hleast.
    apply (Permutation_in m (Permutation_sym Hperm)). exact Hm.
Qed.

Lemma jumps_reach_extremes_witness :
  jumpToLatest (nodes threeChildren) None = Some "input-3000" /\
  jumpToRoot (nodes threeChildren) (Some "input-3000") = Some "root".
Proof.
  destruct (@jumps_reach_extremes (nodes threeChildren) (Some "input-3000"))
    as (_ & Hroot & _); [discriminate|].
  split; [reflexivity|]. eapply Hroot. reflexivity.
Defined.

(** Cmd+"=" picks an assistant node with the greatest timestamp among the
    assistant nodes, and nothing when the snapshot has no assistant node. *)
Theorem most_recent_assistant_is_latest (currentNodes : list ChatNode) :
  (mostRecentAssistant currentNodes = None <->
   forall n, In n currentNodes -> role (data n) <> assistant) /\
  (forall a, mostRecentAssistant currentNodes = Some a ->
     In a currentNodes /\ role (data a) = assistant /\
     forall m, In m currentNodes -> role (data m) = assistant ->
       (timestamp (data m) <= timestamp (data a))%Z).
Proof.
  unfold mostRecentAssistant.
  pose proof (@sortBy_headLeast ChatNode (fun n => (- timestamp (data n))%Z)
                byTimestampDesc byTimestampDesc_key
                (filter isAssistant currentNodes)) as Hleast.
  pose proof (sortBy_perm byTimestampDesc (filter isAssistant currentNodes)) as Hperm.
  assert (Hrole : forall n, isAssistant n = true <-> role (data n) = assistant).
  { intros n. unfold isAssistant. destruct (role (data n)); split; congruence. }
  split.
  - destruct (sortBy byTimestampDesc (filter isAssistant currentNodes))
      as [|a rest] eqn:Hsort; simpl.
    + split; [intros _ n Hin Hr | reflexivity].
      apply Permutation_nil in Hperm.
      assert (Hn : In n (filter isAssistant currentNodes))
        by (apply filter_In; split; [exact Hin | now apply Hrole]).
      now rewrite Hperm in Hn.
    + split; [discriminate|]. intros Hnone. exfalso.
      assert (Ha : In a (filter isAssistant currentNodes))
        by (apply (Permutation_in a Hperm); simpl; tauto).
      apply filter_In in Ha. destruct Ha as [Hin Hr].
      apply (Hnone a Hin). now apply Hrole.
  - intros a Ha.
    destruct (sortBy byTimestampDesc (filter isAssistant currentNodes))
      as [|a' rest]; simpl in Ha; [discriminate|]. injection Ha as ->.
    assert (Hin : In a (filter isAssistant currentNodes))
      by (apply (Permutation_in a Hperm); simpl; tauto).
    apply filter_In in Hin. destruct Hin as [Hin Hr].
    split; [exact Hin|]. split; [now apply Hrole|].
    intros m Hm Hmr. simpl in Hleast.
    assert (Hm' : In m (a :: rest)).
    { apply (Permutation_in m (Permutation_sym Hperm)).
      apply filter_In. split; [exact Hm | now apply Hrole]. }
    specialize (Hleast m Hm'). lia.
Qed.

Lemma most_recent_assistant_is_latest_witness :
  In (mkNode "ai-2000" (Some "message") (mkXY 0 200)
        (mkData None "Thinking..." assistant 2000 None None None)
        (Some origin_top_centre))
     (nodes placeholderState) /\
  (1 <= 2000)%Z.
Proof.
  destruct (most_recent_assistant_is_latest (nodes placeholderState)) as (_ & Hsome).
  destruct (Hsome (mkNode "ai-2000" (Some "message") (mkXY 0 200)
                     (mkData None "Thinking..." assistant 2000 None None None)
                     (Some origin_top_centre)) eq_refl) as (Hin & _ & Hmax).
  split; [exact Hin|].
  apply (Hmax (mkNode "root" (Some "message") (mkXY 250 50)
                 (mkData None root_greeting assistant 1 None None None) None));
    [simpl; tauto | reflexivity].
Defined.

(** ** Cancel, reset and late replies *)

Lemma filter_other_ids (i : string) (ns : list ChatNode) :
  ~ In i (map id ns) -> filter (fun n => negb (id n =? i)%string) ns = ns.
Proof.
  induction ns as [|n ns IH]; simpl; intros Hnot; [reflexivity|].
  destruct (id n =? i)%string eqn:Heq.
  - apply String.eqb_eq in Heq. tauto.
  - simpl. f_equal. apply IH. tauto.
Qed.

Lemma filter_other_targets (i : string) (es : list Edge) :
  ~ In i (map target es) -> filter (fun e => negb (target e =? i)%string) es = es.
Proof.
  induction es as [|e es IH]; simpl; intros Hnot; [reflexivity|].
  destruct (target e =? i)%string eqn:Heq.
  - apply String.eqb_eq in Heq. tauto.
  - simpl. f_equal. apply IH. tauto.
Qed.

(** Cancelling the input node that a connection drag has just created
    gives back the nodes and the edges of the state before the drag, in
    their order, provided the id of the new node was not in use; the id that
    the node's [onCancel] closure holds is the node's own. *)
Theorem cancel_undoes_start_branch (connectingNodeId connectingHandleId : option string)
    (targetIsPane : bool) (dropPosition : XYPosition) (now_id now_ts : Z)
    (parentId : string) (st : GraphState) :
  ~ In (inputIdOf now_id) (map id (nodes st)) ->
  ~ In (inputIdOf now_id) (map target (edges st)) ->
  onCancel (data (newInputNode parentId dropPosition now_id now_ts))
    = Some (inputIdOf now_id) /\
  nodes (onCancel_body (inputIdOf now_id)
           (onConnectEnd connectingNodeId connectingHandleId targetIsPane dropPosition
              now_id now_ts st)) = nodes st /\
  edges (onCancel_body (inputIdOf now_id)
           (onConnectEnd connectingNodeId connectingHandleId targetIsPane dropPosition
              now_id now_ts st)) = edges st.
Proof.
  intros Hn He. split; [reflexivity|].
  assert (Hsame : nodes (onCancel_body (inputIdOf now_id) st) = nodes st /\
                  edges (onCancel_body (inputIdOf now_id) st) = edges st).
  { unfold onCancel_body. simpl.
    now rewrite filter_other_ids, filter_other_targets by assumption. }
  unfold onConnectEnd.
  destruct connectingNodeId as [p|]; [|exact Hsame].
  destruct (negb (truthy p)); [exact Hsame|].
  destruct targetIsPane; [|exact Hsame].
  unfold onCancel_body. simpl nodes. simpl edges. split.
  - rewrite filter_app, filter_other_ids by assumption. simpl.
    rewrite String.eqb_refl. simpl. apply app_nil_r.
  - match goal with
    | |- context [addEdge ?e ?es] => destruct (addEdge_cases e es) as [-> | ->]
    end.
    + now apply filter_other_targets.
    + rewrite filter_app, filter_other_targets by assumption. simpl.
      rewrite String.eqb_refl. simpl. apply app_nil_r.
Qed.

Lemma cancel_undoes_start_branch_witness :
  nodes (onCancel_body (inputIdOf 3000)
           (onConnectEnd (Some "ai-2000") (Some "left") true (mkXY 40 700) 3000 3001
              placeholderState)) = nodes placeholderState.
Proof.
  apply (@cancel_undoes_start_branch (Some "ai-2000") (Some "left") true (mkXY 40 700)
           3000 3001 "ai-2000" placeholderState);
    simpl; intuition discriminate.
Defined.

(** After "New Chat" the graph is the single root without edges, whatever
    it was; a reply or an error that arrives afterwards for an assistant
    node of the old graph changes nothing, and neither does cancelling an
    input node of the old graph. *)
Theorem new_conversation_ignores_late_events (now : Z) (st : GraphState)
    (now_id : Z) (text : string) (outcome : FetchOutcome) :
  nodes (startNewConversation now st) = getInitialNodes now /\
  edges (startNewConversation now st) = [] /\
  writeReply (assistantIdOf now_id) text (startNewConversation now st)
    = startNewConversation now st /\
  (handleSend_complete (assistantIdOf now_id) outcome (startNewConversation now st)
     = Some (startNewConversation now st) \/
   handleSend_complete (assistantIdOf now_id) outcome (startNewConversation now st)
     = None) /\
  nodes (onCancel_body (inputIdOf now_id) (startNewConversation now st))
    = getInitialNodes now /\
  edges (onCancel_body (inputIdOf now_id) (startNewConversation now st)) = [].
Proof.
  assert (Hwrite : forall t, writeReply (assistantIdOf now_id) t
                               (startNewConversation now st)
                             = startNewConversation now st) by reflexivity.
  repeat split; try reflexivity.
  unfold handleSend_complete. destruct (replyContent outcome); [left | now right].
  now rewrite Hwrite.
Qed.

(** ** What an import makes of a pending prompt, and of its own output *)

Lemma substring_whole (s : string) : substring 0 (String.length s) s = s.
Proof. induction s as [|c s IH]; simpl; [reflexivity | now rewrite IH]. Qed.

Lemma replace_first_inputIdOf (now_id : Z) :
  replace_first "input-" "" (inputIdOf now_id) = Number_toString now_id.
Proof.
  unfold inputIdOf. simpl.
  replace (prefix "" (Number_toString now_id)) with true
    by now destruct (Number_toString now_id).
  rewrite Nat.sub_0_r. apply substring_whole.
Qed.

(** A number's text begins with a digit or the sign. *)
Lemma Number_toString_head (n : Z) (c : ascii) (rest : string) :
  Number_toString n = String c rest ->
  c <> "r"%char /\ c <> "i"%char /\ c <> "a"%char.
Proof.
  unfold Number_toString. destruct (Z.to_int n) as [u|u]; destruct u; simpl;
    intros H; inversion H; subst; repeat split; discriminate.
Qed.

Lemma Number_toString_not_appId (n : Z) : ~ appId (Number_toString n).
Proof.
  unfold appId, inputIdOf, assistantIdOf.
  intros [H | [[k H] | [k H]]];
    destruct (Number_toString_head n H) as (Hr & Hi & Ha); congruence.
Qed.

(** An input node that went through export and import has as the parent id
    of its [onSend] binding its own id without the prefix, the bare clock
    reading, not the id of the node it was branched from; no node of the
    application has such an id, so a prompt sent from the restored node
    carries no context: the request is the user's turn alone. *)
Theorem restored_prompt_sends_no_context (parentId : string) (position : XYPosition)
    (now_id now_ts : Z) (closureNodes : list ChatNode) (closureEdges : list Edge)
    (text : string) (fuel : nat) :
  Forall appId (map id closureNodes) ->
  (1 <= fuel)%nat ->
  onSend (data (restoredNode (newInputNode parentId position now_id now_ts)))
    = Some (mkSendBinding (Number_toString now_id) (inputIdOf now_id)) /\
  contextMessages fuel text (Number_toString now_id) closureNodes closureEdges
    = Some [mkChatMessage user text].
Proof.
  intros Hids Hfuel. split.
  - unfold restoredNode, newInputNode. simpl id. cbn [data isInput].
    now rewrite replace_first_inputIdOf.
  - unfold contextMessages, getContextForNode.
    destruct fuel as [|fuel]; [lia|]. simpl.
    destruct (truthy (Number_toString now_id)); [|reflexivity].
    rewrite findNode_absent; [reflexivity|].
    intros Hin. rewrite Forall_forall in Hids.
    exact (@Number_toString_not_appId now_id (Hids _ Hin)).
Qed.

Lemma restored_prompt_sends_no_context_witness :
  contextMessages 5 "and then?" (Number_toString 3000)
    (nodes placeholderState ++ [newInputNode "ai-2000" (mkXY 40 700) 3000 3001])
    (edges placeholderState ++ [newInputEdge "ai-2000" "bottom" 3000])
    = Some [mkChatMessage user "and then?"] /\
  contextMessages 5 "and then?" "ai-2000"
    (nodes placeholderState ++ [newInputNode "ai-2000" (mkXY 40 700) 3000 3001])
    (edges placeholderState ++ [newInputEdge "ai-2000" "bottom" 3000])
    <> Some [mkChatMessage user "and then?"].
Proof.
  split; [|discriminate].
  apply (@restored_prompt_sends_no_context "ai-2000" (mkXY 40 700) 3000 3001
           (nodes placeholderState ++ [newInputNode "ai-2000" (mkXY 40 700) 3000 3001])
           (edges placeholderState ++ [newInputEdge "ai-2000" "bottom" 3000])
           "and then?" 5%nat); [|lia].
  simpl. repeat apply Forall_cons; try apply Forall_nil.
  - now left.
  - right; left; now exists 1000.
  - right; right; now exists 2000.
  - right; left; now exists 3000.
Defined.

Lemma restoredNode_idem (n : ChatNode) : restoredNode (restoredNode n) = restoredNode n.
Proof. unfold restoredNode; simpl. now destruct (isInput (data n)) as [[|]|]. Qed.

Lemma restoredEdge_idem (e : Edge) : restoredEdge (restoredEdge e) = restoredEdge e.
Proof.
  unfold restoredEdge; simpl. destruct (edge_type e) as [t|]; [|reflexivity].
  now destruct (truthy t) eqn:Ht; rewrite ?Ht.
Qed.

(** Export followed by import, done twice, gives what it gives done once:
    for every state, the state that the import of its exported document
    produces is given back exactly by a further export and import, and the
    nodes of the second exported document are those of the first. *)
Theorem second_import_changes_nothing (exportedAt exportedAt' : string)
    (st : GraphState) (s0 : Store) :
  importState (Some (serializeState exportedAt st)) s0
    = (true, storeOf (restoredState st)) /\
  importState (Some (serializeState exportedAt' (restoredState st))) s0
    = (true, storeOf (restoredState st)) /\
  map serializeNode (nodes (restoredState st)) = map serializeNode (nodes st) /\
  map restoredEdge (edges (restoredState st)) = edges (restoredState st).
Proof.
  split; [apply importState_serializeState|]. split; [|split].
  - rewrite importState_serializeState. unfold storeOf, restoredState. simpl.
    rewrite !map_map.
    rewrite (map_ext _ _ restoredNode_idem), (map_ext _ _ restoredEdge_idem).
    reflexivity.
  - unfold restoredState. simpl. rewrite map_map. apply map_ext.
    intros n. unfold serializeNode, restoredNode. reflexivity.
  - unfold restoredState. simpl. rewrite map_map. apply map_ext, restoredEdge_idem.
Qed.

(** ** The durable slot *)

(** What [saveToLocalStorage] has written, [loadFromLocalStorage] reads
    back: it returns true and restores the saved state, whatever the store
    held; with no item in the slot it returns false and leaves the store;
    and a save whose write fails leaves the slot as it was. *)
Theorem saved_state_loads_back (exportedAt : string) (st : GraphState)
    (slot : LocalStorage) (s : Store) :
  loadFromLocalStorage (saveToLocalStorage exportedAt false st slot) s
    = (true, storeOf (restoredState st)) /\
  loadFromLocalStorage None s = (false, s) /\
  saveToLocalStorage exportedAt true st slot = slot /\
  (forall savedState, fst (loadFromLocalStorage (Some savedState) s) = false ->
     loadFromLocalStorage (Some savedState) s = (false, s)).
Proof.
  repeat split.
  - unfold loadFromLocalStorage, saveToLocalStorage.
    now rewrite importState_serializeState.
  - intros savedState Hfalse. unfold loadFromLocalStorage in *.
    destruct (accepts savedState) eqn:Hacc.
    + destruct (importState_accepts savedState s Hacc) as (rn & re & rv & Heq).
      rewrite Heq in Hfalse. discriminate.
    + now apply importState_rejects.
Qed.

(** ** The resolver on graphs grown by the operations *)

Lemma loop_more_fuel (ns : list ChatNode) (es : list Edge) (fuel : nat) :
  forall cur history result,
    getContextForNode_loop fuel cur ns es history = Some result ->
    forall fuel', (fuel <= fuel')%nat ->
      getContextForNode_loop fuel' cur ns es history = Some result.
Proof.
  induction fuel as [|fuel IH]; intros cur history result Hrun fuel' Hle;
    [discriminate|].
  destruct fuel' as [|fuel']; [lia|].
  simpl in *. destruct cur as [cid|]; [|assumption].
  destruct (truthy cid); [|assumption].
  destruct (findNode cid ns); [|assumption].
  apply (IH _ _ _ Hrun). lia.
Qed.

(** One more edge below all the others costs the walk one more turn. *)
Lemma loop_under_layer (ns : list ChatNode) (e : Edge) (later : list Edge) :
  layered (e :: later) ->
  forall fuel cur history result,
    getContextForNode_loop fuel cur ns later history = Some result ->
    exists result',
      getContextForNode_loop (S fuel) cur ns (e :: later) history = Some result'.
Proof.
  intros (Hself & Hlater & _).
  assert (Hsrc : findParentEdge (source e) (e :: later) = None).
  { unfold findParentEdge. simpl.
    destruct (target e =? source e)%string eqn:Heq;
      [apply String.eqb_eq in Heq; contradiction|].
    apply (findParentEdge_absent (source e) later).
    intros Hin. apply in_map_iff in Hin. destruct Hin as (e' & He' & Hin).
    now apply (proj1 (Hlater e' Hin)). }
  induction fuel as [|fuel IH]; intros cur history result Hrun; [discriminate|].
  simpl in Hrun.
  destruct cur as [cid|]; [|now exists history].
  change (getContextForNode_loop (S (S fuel)) (Some cid) ns (e :: later) history)
    with (if truthy cid then
            match findNode cid ns with
            | None => Some history
            | Some node =>
                getContextForNode_loop (S fuel)
                  (match findParentEdge cid (e :: later) with
                   | Some parentEdge => Some (source parentEdge)
                   | None => None
                   end) ns (e :: later)
                  (if isMessage node then toMessage node :: history else history)
            end
          else Some history).
  destruct (truthy cid); [|now exists history].
  destruct (findNode cid ns) as [node|]; [|now exists history].
  assert (Hhead : findParentEdge cid (e :: later)
                  = if (target e =? cid)%string then Some e
                    else findParentEdge cid later) by reflexivity.
  rewrite Hhead. destruct (target e =? cid)%string.
  - destruct fuel as [|fuel]; [discriminate|].
    change (getContextForNode_loop (S (S fuel)) (Some (source e)) ns (e :: later) ?h)
      with (if truthy (source e) then
              match findNode (source e) ns with
              | None => Some h
              | Some node' =>
                  getContextForNode_loop (S fuel)
                    (match findParentEdge (source e) (e :: later) with
                     | Some parentEdge => Some (source parentEdge)
                     | None => None
                     end) ns (e :: later)
                    (if isMessage node' then toMessage node' :: h else h)
              end
            else Some h).
    destruct (truthy (source e)); [|eauto].
    destruct (findNode (source e) ns) as [node'|]; [|eauto].
    rewrite Hsrc. simpl. eauto.
  - exact (IH _ _ _ Hrun).
Qed.

Lemma layered_returns (ns : list ChatNode) (es : list Edge) :
  layered es ->
  forall nodeId, exists history,
    getContextForNode (List.length es + 2) nodeId ns es = Some history.
Proof.
  unfold getContextForNode.
  induction es as [|e later IH]; intros Hlay nodeId.
  - simpl. destruct (truthy nodeId); [|eauto].
    destruct (findNode nodeId ns); eauto.
  - destruct (IH (proj2 (proj2 Hlay)) nodeId) as (history & Hrun).
    exact (loop_under_layer ns Hlay _ _ _ Hrun).
Qed.

Lemma layered_snoc (es : list Edge) (e : Edge) :
  layered es -> target e <> source e ->
  (forall e', In e' es -> target e <> source e' /\ target e <> target e') ->
  layered (es ++ [e]).
Proof.
  induction es as [|a es IH]; simpl; intros Hlay Hself Hnew.
  - split; [assumption|]. split; [intros e' [] | exact I].
  - destruct Hlay as (Ha & Hlater & Hlay).
    split; [assumption|]. split.
    + intros e' Hin. apply in_app_or in Hin. destruct Hin as [Hin | [<- | []]].
      * now apply Hlater.
      * destruct (Hnew a (or_introl eq_refl)). split; congruence.
    + apply IH; auto.
Qed.

Lemma layered_filter (keep : Edge -> bool) (es : list Edge) :
  layered es -> layered (filter keep es).
Proof.
  induction es as [|a es IH]; simpl; [trivial|].
  intros (Ha & Hlater & Hlay). destruct (keep a); [|now apply IH].
  simpl. split; [assumption|]. split; [|now apply IH].
  intros e' Hin. apply filter_In in Hin. now apply Hlater.
Qed.

Lemma named_weaken (seenI seenI' seenA seenA' : list Z) (i : string) :
  incl seenI seenI' -> incl seenA seenA' ->
  named seenI seenA i -> named seenI' seenA' i.
Proof.
  intros HI HA [H | [(k & Hk & H) | (k & Hk & H)]]; [now left | |].
  - right; left; exists k; auto.
  - right; right; exists k; auto.
Qed.

Lemma fresh_input_not_named (seenI seenA : list Z) (k : Z) :
  ~ In k seenI -> ~ named seenI seenA (inputIdOf k).
Proof.
  intros Hk [H | [(k' & Hk' & H) | (k' & Hk' & H)]].
  - discriminate H.
  - apply inputIdOf_inj in H. now subst.
  - exact (inputIdOf_neq_assistantIdOf H).
Qed.

Lemma fresh_assistant_not_named (seenI seenA : list Z) (k : Z) :
  ~ In k seenA -> ~ named seenI seenA (assistantIdOf k).
Proof.
  intros Hk [H | [(k' & Hk' & H) | (k' & Hk' & H)]].
  - discriminate H.
  - symmetry in H. exact (inputIdOf_neq_assistantIdOf H).
  - apply assistantIdOf_inj in H. now subst.
Qed.

(** Adding an edge from a named id into a fresh one keeps the graph grown. *)
Lemma grown_add (seenI seenA seenI' seenA' : list Z) (ns ns' : list ChatNode)
    (es : list Edge) (vp : Viewport) (e : Edge) :
  grown seenI seenA (mkState ns es vp) ->
  incl seenI seenI' -> incl seenA seenA' ->
  (forall i, In i (map id ns') -> named seenI' seenA' i) ->
  named seenI seenA (source e) ->
  named seenI' seenA' (target e) ->
  ~ named seenI seenA (target e) ->
  grown seenI' seenA' (mkState ns' (addEdge e es) vp).
Proof.
  intros (Hn & He & Hlay) HI HA Hns' Hsrc Htgt Hfresh. simpl in *.
  assert (Hold : forall e', In e' es ->
            named seenI' seenA' (source e') /\ named seenI' seenA' (target e')).
  { intros e' Hin. destruct (He e' Hin). split; eapply named_weaken; eauto. }
  split; [exact Hns'|]. simpl.
  destruct (addEdge_cases e es) as [-> | ->]; [now split|]. split.
  - intros e' Hin. apply in_app_or in Hin. destruct Hin as [Hin | [<- | []]]; auto.
    split; [eapply named_weaken; eauto | assumption].
  - apply layered_snoc; [assumption | congruence |].
    intros e' Hin. destruct (He e' Hin). split; congruence.
Qed.

Lemma applyOp_grown (op : Op) (st : GraphState) (seenI seenA : list Z) :
  grown seenI seenA st ->
  fromExistingNode op st ->
  (forall k, In k (inputReadingOf op) -> ~ In k seenI) ->
  (forall k, In k (assistantReadingOf op) -> ~ In k seenA) ->
  grown (inputReadingOf op ++ seenI) (assistantReadingOf op ++ seenA) (applyOp op st).
Proof.
  intros Hg Hfrom HfI HfA.
  destruct op as [parentId handleId dropPosition now_id now_ts
                 | text parentId inputNodeId now_id now_ts
                 | assistantId text | inputId]; simpl in *.
  - assert (Hweak : grown (now_id :: seenI) seenA st).
    { destruct Hg as (Hn & He & Hlay). repeat split; try assumption.
      - intros i Hi. eapply named_weaken; [| |exact (Hn i Hi)];
          [apply incl_tl, incl_refl | apply incl_refl].
      - eapply named_weaken; [| |exact (proj1 (He e H))];
          [apply incl_tl, incl_refl | apply incl_refl].
      - eapply named_weaken; [| |exact (proj2 (He e H))];
          [apply incl_tl, incl_refl | apply incl_refl]. }
    unfold onConnectEnd.
    destruct (negb (truthy parentId)); [exact Hweak|].
    destruct st as [ns es vp]; simpl in *.
    apply (@grown_add seenI seenA (now_id :: seenI) seenA ns _ es vp _ Hg).
    + apply incl_tl, incl_refl.
    + apply incl_refl.
    + intros i Hi. rewrite map_app in Hi. apply in_app_or in Hi.
      destruct Hi as [Hi | [<- | []]]; [exact (proj1 Hweak i Hi)|].
      right; left. exists now_id. split; [now left | reflexivity].
    + exact (proj1 Hg parentId Hfrom).
    + right; left. exists now_id. split; [now left | reflexivity].
    + apply fresh_input_not_named. apply HfI. now left.
  - destruct st as [ns es vp]; simpl in *.
    apply (@grown_add seenI seenA seenI (now_id :: seenA) ns _ es vp _ Hg).
    + apply incl_refl.
    + apply incl_tl, incl_refl.
    + intros i Hi. rewrite map_app, map_map in Hi. apply in_app_or in Hi.
      destruct Hi as [Hi | [<- | []]].
      * rewrite (map_ext _ id (toUserMessage_id text inputNodeId)) in Hi.
        eapply named_weaken; [| |exact (proj1 Hg i Hi)];
          [apply incl_refl | apply incl_tl, incl_refl].
      * right; right. exists now_id. split; [now left | reflexivity].
    + exact (proj1 Hg inputNodeId Hfrom).
    + right; right. exists now_id. split; [now left | reflexivity].
    + apply fresh_assistant_not_named. apply HfA. now left.
  - destruct Hg as (Hn & He & Hlay). repeat split; simpl; try assumption.
    + intros i Hi. rewrite writeContent_ids in Hi. auto.
    + now apply He.
    + now apply He.
  - destruct Hg as (Hn & He & Hlay). repeat split; simpl.
    + intros i Hi. apply in_map_iff in Hi. destruct Hi as (n & <- & Hi).
      apply filter_In in Hi. apply Hn, in_map, Hi.
    + apply filter_In in H. now apply He.
    + apply filter_In in H. now apply He.
    + now apply layered_filter.
Qed.

Lemma run_grown (ops : list Op) :
  forall (st : GraphState) (seenI seenA : list Z),
    grown seenI seenA st ->
    runsFromExisting ops st ->
    NoDup (inputReadings ops) -> NoDup (assistantReadings ops) ->
    (forall k, In k (inputReadings ops) -> ~ In k seenI) ->
    (forall k, In k (assistantReadings ops) -> ~ In k seenA) ->
    layered (edges (run ops st)).
Proof.
  induction ops as [|op ops IH]; intros st seenI seenA Hg Hfrom HdI HdA HfI HfA.
  - exact (proj2 (proj2 Hg)).
  - destruct Hfrom as (Hop & Hrest).
    change (inputReadings (op :: ops)) with (inputReadingOf op ++ inputReadings ops) in *.
    change (assistantReadings (op :: ops))
      with (assistantReadingOf op ++ assistantReadings ops) in *.
    apply (IH (applyOp op st) (inputReadingOf op ++ seenI) (assistantReadingOf op ++ seenA)).
    + apply applyOp_grown; [assumption | assumption | |].
      * intros k Hk. apply HfI, in_or_app. now left.
      * intros k Hk. apply HfA, in_or_app. now left.
    + assumption.
    + now apply NoDup_app_remove_l in HdI.
    + now apply NoDup_app_remove_l in HdA.
    + intros k Hk Hin. apply in_app_or in Hin. destruct Hin as [Hin | Hin].
      * revert Hin Hk. clear - HdI. revert HdI.
        generalize (inputReadingOf op) (inputReadings ops). intros l l' Hnd Hin Hk.
        induction l as [|a l IHl]; [destruct Hin|].
        simpl in Hnd. inversion Hnd; subst. destruct Hin as [-> | Hin].
        -- apply H1, in_or_app. now right.
        -- now apply IHl.
      * apply (HfI k); [apply in_or_app; now right | assumption].
    + intros k Hk Hin. apply in_app_or in Hin. destruct Hin as [Hin | Hin].
      * revert Hin Hk. clear - HdA. revert HdA.
        generalize (assistantReadingOf op) (assistantReadings ops). intros l l' Hnd Hin Hk.
        induction l as [|a l IHl]; [destruct Hin|].
        simpl in Hnd. inversion Hnd; subst. destruct Hin as [-> | Hin].
        -- apply H1, in_or_app. now right.
        -- now apply IHl.
      * apply (HfA k); [apply in_or_app; now right | assumption].
Qed.

(** On every graph grown from the single root by branching, submitting,
    replies and cancels, each started from an existing node and no two input
    nodes or two assistant nodes named by the same clock reading, the
    resolver returns for every node id, after at most as many turns of its
    loop as there are edges, plus two. *)
Theorem resolver_returns_on_grown_graphs (now : Z) (ops : list Op) (nodeId : string) :
  runsFromExisting ops (initialState now) ->
  NoDup (inputReadings ops) -> NoDup (assistantReadings ops) ->
  exists history, forall fuel,
    (List.length (edges (run ops (initialState now))) + 2 <= fuel)%nat ->
    getContextForNode fuel nodeId
      (nodes (run ops (initialState now))) (edges (run ops (initialState now)))
    = Some history.
Proof.
  intros Hfrom HdI HdA.
  assert (Hlay : layered (edges (run ops (initialState now)))).
  { apply (@run_grown ops (initialState now) [] []); auto.
    split; [|split]; simpl; [|intros e []|exact I].
    intros i [<- | []]. now left. }
  destruct (@layered_returns (nodes (run ops (initialState now))) _ Hlay nodeId)
    as (history & Hrun).
  exists history. intros fuel Hle.
  exact (@loop_more_fuel _ _ _ _ _ _ Hrun _ Hle).
Qed.

Lemma resolver_returns_on_grown_graphs_witness :
  exists history, forall fuel,
    (List.length (edges (run branchAndCancel (initialState 1))) + 2 <= fuel)%nat ->
    getContextForNode fuel (assistantIdOf 5000)
      (nodes (run branchAndCancel (initialState 1)))
      (edges (run branchAndCancel (initialState 1)))
    = Some history.
Proof.
  apply (@resolver_returns_on_grown_graphs 1 branchAndCancel (assistantIdOf 5000)).
  - simpl. intuition.
  - unfold branchAndCancel, inputReadings. simpl.
    repeat constructor; simpl; intuition discriminate.
  - unfold branchAndCancel, assistantReadings. simpl.
    repeat constructor; simpl; intuition discriminate.
Defined.

(** ** Dragging a node *)

Lemma half_difference (a b c d : Z) :
  ((inject_Z c + inject_Z d / 2) - (inject_Z a + inject_Z b / 2)
   == (2 * (c - a) + (d - b)) # 2)%Q.
Proof.
  unfold Qeq, Qminus, Qplus, Qdiv, Qmult, Qinv, Qopp, inject_Z.
  cbn [Qnum Qden Z.opp]. lia.
Qed.

Lemma Qgtb_halves_abs (p q : Q) (m n : Z) :
  (p == m # 2)%Q -> (q == n # 2)%Q ->
  Qgtb (Qabs p) (Qabs q) = (Z.abs n <? Z.abs m).
Proof.
  intros Hp Hq. unfold Qgtb. rewrite Z.ltb_antisym. f_equal.
  apply eq_iff_eq_true. rewrite Qle_bool_iff, Z.leb_le, Hp, Hq.
  unfold Qle. simpl. lia.
Qed.

Lemma Qgtb_half_zero (p : Q) (m : Z) :
  (p == m # 2)%Q -> Qgtb p 0 = (0 <? m).
Proof.
  intros Hp. unfold Qgtb. rewrite Z.ltb_antisym. f_equal.
  apply eq_iff_eq_true. rewrite Qle_bool_iff, Z.leb_le, Hp.
  unfold Qle. simpl. lia.
Qed.

(** The choice of [getOptimalHandles] in integers: sideways when the centres
    are further apart along x than along y, downwards otherwise, also when
    the target lies above the source. *)
Lemma getOptimalHandles_integers (measured : ChatNode -> option Measured)
    (s t : ChatNode) :
  getOptimalHandles measured s t =
  if Z.abs (twiceDy measured s t) <? Z.abs (twiceDx measured s t)
  then if 0 <? twiceDx measured s t then ("right", "left") else ("left", "right")
  else ("bottom", "top").
Proof.
  unfold getOptimalHandles, centerX, centerY.
  rewrite (@Qgtb_halves_abs _ _ (twiceDx measured s t) (twiceDy measured s t)
             (half_difference _ _ _ _) (half_difference _ _ _ _)).
  rewrite (@Qgtb_half_zero _ (twiceDx measured s t) (half_difference _ _ _ _)).
  destruct (Z.abs (twiceDy measured s t) <? Z.abs (twiceDx measured s t));
    [reflexivity|].
  now destruct (Qgtb _ 0).
Qed.


Lemma handleDiffers_false (current : option string) (wanted : string) :
  handleDiffers current wanted = false -> current = Some wanted.
Proof.
  destruct current as [h|]; simpl; [|discriminate].
  intros H. apply negb_false_iff, String.eqb_eq in H. now subst.
Qed.





(** An edge that touches the dragged node, with both of its ends known,
    leaves the source by the side that faces the target and enters the
    target by the opposite side, or runs from bottom to top when the centres
    are at least as far apart along y as along x; a message node is entered
    sideways through its [-target] handles. *)
Theorem drag_sets_facing_handles (measured : ChatNode -> option Measured)
    (node : ChatNode) (closureNodes : list ChatNode) (e : Edge) (s t : ChatNode) :
  source e = id node \/ target e = id node ->
  endNode node closureNodes (source e) = Some s ->
  endNode node closureNodes (target e) = Some t ->
  (sourceHandle (dragEdge measured node closureNodes e),
   targetHandle (dragEdge measured node closureNodes e))
  = facingHandles (Z.abs (twiceDy measured s t) <? Z.abs (twiceDx measured s t))
                  (0 <? twiceDx measured s t) t.
Proof.
  intros Htouch Hs Ht. unfold dragEdge.
  replace ((source e =? id node)%string || (target e =? id node)%string) with true
    by (symmetry; apply orb_true_iff;
        destruct Htouch as [H | H]; [left | right]; now apply String.eqb_eq).
  rewrite Hs, Ht, getOptimalHandles_integers. unfold facingHandles.
  destruct (Z.abs (twiceDy measured s t) <? Z.abs (twiceDx measured s t)).
  - destruct (0 <? twiceDx measured s t).
    + match goal with
      | |- context [if ?d then _ else _] => destruct d eqn:Hd
      end; simpl.
      * unfold finalTargetHandle. simpl.
        destruct (hasType "message" t); [reflexivity|]. simpl.
        now destruct (hasType "inputNode" t).
      * apply orb_false_iff in Hd. destruct Hd as (H1 & H2).
        apply handleDiffers_false in H1, H2. rewrite H1, H2.
        unfold finalTargetHandle. simpl.
        destruct (hasType "message" t); [reflexivity|]. simpl.
        now destruct (hasType "inputNode" t).
    + match goal with
      | |- context [if ?d then _ else _] => destruct d eqn:Hd
      end; simpl.
      * unfold finalTargetHandle. simpl.
        destruct (hasType "message" t); [reflexivity|]. simpl.
        now destruct (hasType "inputNode" t).
      * apply orb_false_iff in Hd. destruct Hd as (H1 & H2).
        apply handleDiffers_false in H1, H2. rewrite H1, H2.
        unfold finalTargetHandle. simpl.
        destruct (hasType "message" t); [reflexivity|]. simpl.
        now destruct (hasType "inputNode" t).
  - match goal with
    | |- context [if ?d then _ else _] => destruct d eqn:Hd
    end; simpl.
    + unfold finalTargetHandle. simpl. rewrite andb_false_r.
      now destruct (hasType "inputNode" t).
    + apply orb_false_iff in Hd. destruct Hd as (H1 & H2).
      apply handleDiffers_false in H1, H2. rewrite H1, H2.
      unfold finalTargetHandle. simpl. rewrite andb_false_r.
      now destruct (hasType "inputNode" t).
Qed.

Lemma drag_sets_facing_handles_witness :
  sourceHandle (dragEdge unmeasured draggedReply (nodes placeholderState)
                  (assistantEdge (inputIdOf 1000) 2000)) = Some "right" /\
  targetHandle (dragEdge unmeasured draggedReply (nodes placeholderState)
                  (assistantEdge (inputIdOf 1000) 2000)) = Some "left-target".
Proof.
  pose proof (@drag_sets_facing_handles unmeasured draggedReply (nodes placeholderState)
                (assistantEdge (inputIdOf 1000) 2000) _ _
                (or_intror eq_refl) eq_refl eq_refl) as H.
  split; [exact (f_equal fst H) | exact (f_equal snd H)].
Defined.

(** ** The input node *)

Lemma cycleMode_inverse (mode : ResponseMode) :
  cycleMode dir_prev (cycleMode dir_next mode) = mode /\
  cycleMode dir_next (cycleMode dir_prev mode) = mode /\
  cycleMode dir_next (cycleMode dir_next (cycleMode dir_next mode)) = mode.
Proof. now destruct mode. Qed.

Lemma handleSend_calls (nodeData : ChatNodeData) (s : InputState) :
  InputNode_handleSend nodeData s = (s, []) \/
  (truthy (trim (input_text s)) = true /\ present (onSend nodeData) = true /\
   InputNode_handleSend nodeData s
   = (mkInput "" (input_mode s),
      [CallOnSend (MODE_PREFIXES (input_mode s) ++ input_text s)%string])).
Proof.
  unfold InputNode_handleSend.
  destruct (truthy (trim (input_text s))); [|now left].
  destruct (present (onSend nodeData)); [now right | now left].
Qed.

Lemma handleKeyDown_calls (e : KeyEvent) (nodeData : ChatNodeData) (s : InputState) :
  (forall modifiedText,
     In (CallOnSend modifiedText) (snd (InputNode_handleKeyDown e nodeData s)) ->
     modifiedText = (MODE_PREFIXES (input_mode s) ++ input_text s)%string /\
     trim (input_text s) <> "" /\ ev_key e = "Enter" /\ shiftKey e = false /\
     InputNode_handleKeyDown e nodeData s
     = (mkInput "" (input_mode s), [CallOnSend modifiedText])) /\
  (In CallOnCancel (snd (InputNode_handleKeyDown e nodeData s)) ->
   trim (input_text s) = "" /\ ev_key e = "Escape" /\
   InputNode_handleKeyDown e nodeData s = (s, [CallOnCancel])) /\
  (snd (InputNode_handleKeyDown e nodeData s) = [] ->
   input_text (fst (InputNode_handleKeyDown e nodeData s)) = input_text s).
Proof.
  split; [|split].
  - intros modifiedText. unfold InputNode_handleKeyDown.
    destruct ((metaKey e || ctrlKey e) && (ev_key e =? "]")%string);
      [intros []|].
    destruct ((metaKey e || ctrlKey e) && (ev_key e =? "[")%string);
      [intros []|].
    destruct (ev_key e =? "Enter")%string eqn:Henter.
    + apply String.eqb_eq in Henter. rewrite Henter. simpl (_ =? _)%string.
      rewrite app_nil_r. destruct (shiftKey e); simpl; [intros []|].
      destruct (handleSend_calls nodeData s) as [-> | (Ht & _ & ->)];
        [intros []|].
      simpl. intros [Heq | []]. inversion Heq; subst. repeat split.
      unfold truthy in Ht. apply negb_true_iff, String.eqb_neq in Ht. exact Ht.
    + simpl. destruct (ev_key e =? "Escape")%string; [|intros []].
      destruct ((trim (input_text s) =? "")%string && present (onCancel nodeData));
        simpl; [intros [H | []]; discriminate H | intros []].
  - unfold InputNode_handleKeyDown.
    destruct ((metaKey e || ctrlKey e) && (ev_key e =? "]")%string);
      [intros []|].
    destruct ((metaKey e || ctrlKey e) && (ev_key e =? "[")%string);
      [intros []|].
    destruct (ev_key e =? "Escape")%string eqn:Hesc.
    + apply String.eqb_eq in Hesc. rewrite Hesc. simpl (_ =? _)%string. simpl.
      destruct (trim (input_text s) =? "")%string eqn:Hblank; simpl; [|intros []].
      apply String.eqb_eq in Hblank.
      destruct (present (onCancel nodeData)); simpl; [|intros []].
      intros _. now destruct s.
    + rewrite app_nil_r.
      destruct ((ev_key e =? "Enter")%string && negb (shiftKey e)); [|intros []].
      destruct (handleSend_calls nodeData s) as [-> | (_ & _ & ->)];
        [intros [] | intros [H | []]; discriminate H].
  - unfold InputNode_handleKeyDown.
    destruct ((metaKey e || ctrlKey e) && (ev_key e =? "]")%string);
      [reflexivity|].
    destruct ((metaKey e || ctrlKey e) && (ev_key e =? "[")%string);
      [reflexivity|].
    destruct ((ev_key e =? "Enter")%string && negb (shiftKey e)); [|reflexivity].
    destruct (handleSend_calls nodeData s) as [-> | (_ & _ & ->)];
      [reflexivity | discriminate].
Qed.

(** What the input node can do, whatever reaches it.  A prompt is sent only
    by the Ask button or by Enter without Shift, in both cases only when the
    text is not blank, and then as the text typed behind the prefix of the
    mode, the field being cleared; with a text that is not blank and an
    [onSend] in the node data both do send.  A cancel is called only by
    Escape on a blank text; nothing does both, and what calls nothing leaves
    the text as it is unless it is an edit of the text.  The two mode
    shortcuts undo each other, and three steps forward come back to the mode
    one started from. *)
Theorem input_node_sends_and_cancels (ev : InputEvent) (nodeData : ChatNodeData)
    (s : InputState) :
  (forall modifiedText,
     In (CallOnSend modifiedText) (snd (InputNode_onEvent ev nodeData s)) ->
     modifiedText = (MODE_PREFIXES (input_mode s) ++ input_text s)%string /\
     trim (input_text s) <> "" /\
     (ev = AskClicked \/
      exists e, ev = KeyPressed e /\ ev_key e = "Enter" /\ shiftKey e = false) /\
     InputNode_onEvent ev nodeData s
     = (mkInput "" (input_mode s), [CallOnSend modifiedText])) /\
  (In CallOnCancel (snd (InputNode_onEvent ev nodeData s)) ->
   trim (input_text s) = "" /\
   (exists e, ev = KeyPressed e /\ ev_key e = "Escape") /\
   InputNode_onEvent ev nodeData s = (s, [CallOnCancel])) /\
  (snd (InputNode_onEvent ev nodeData s) = [] ->
   input_text (fst (InputNode_onEvent ev nodeData s)) = input_text s \/
   exists value, ev = TextChanged value /\
     input_text (fst (InputNode_onEvent ev nodeData s)) = value) /\
  (trim (input_text s) <> "" -> present (onSend nodeData) = true ->
   InputNode_onEvent AskClicked nodeData s
   = (mkInput "" (input_mode s),
      [CallOnSend (MODE_PREFIXES (input_mode s) ++ input_text s)%string]) /\
   InputNode_onEvent (KeyPressed plainEnter) nodeData s
   = (mkInput "" (input_mode s),
      [CallOnSend (MODE_PREFIXES (input_mode s) ++ input_text s)%string])) /\
  (forall mode,
     cycleMode dir_prev (cycleMode dir_next mode) = mode /\
     cycleMode dir_next (cycleMode dir_prev mode) = mode /\
     cycleMode dir_next (cycleMode dir_next (cycleMode dir_next mode)) = mode).
Proof.
  split; [|split; [|split; [|split; [|exact cycleMode_inverse]]]].
  - intros modifiedText.
    destruct ev as [e | | value]; cbn [InputNode_onEvent].
    + intros Hin.
      destruct (proj1 (handleKeyDown_calls e nodeData s) modifiedText Hin)
        as (Htext & Hblank & Henter & Hshift & Hrun).
      repeat split; try assumption. right. now exists e.
    + destruct (negb (truthy (trim (input_text s)))); [intros []|].
      destruct (handleSend_calls nodeData s) as [-> | (Ht & _ & ->)]; [intros []|].
      intros [Heq | []]. injection Heq as <-. repeat split; [|now left].
      unfold truthy in Ht. now apply negb_true_iff, String.eqb_neq in Ht.
    + intros [].
  - destruct ev as [e | | value]; cbn [InputNode_onEvent].
    + intros Hin.
      destruct (proj1 (proj2 (handleKeyDown_calls e nodeData s)) Hin)
        as (Hblank & Hesc & Hrun).
      repeat split; try assumption. now exists e.
    + destruct (negb (truthy (trim (input_text s)))); [intros []|].
      destruct (handleSend_calls nodeData s) as [-> | (_ & _ & ->)];
        [intros [] | intros [H | []]; discriminate H].
    + intros [].
  - destruct ev as [e | | value]; cbn [InputNode_onEvent].
    + intros Hnone. left.
      exact (proj2 (proj2 (handleKeyDown_calls e nodeData s)) Hnone).
    + destruct (negb (truthy (trim (input_text s)))); [now left|].
      destruct (handleSend_calls nodeData s) as [-> | (_ & _ & ->)];
        [now left | discriminate].
    + intros _. right. now exists value.
  - intros Hblank Hsend.
    assert (Ht : truthy (trim (input_text s)) = true)
      by (unfold truthy; now apply negb_true_iff, String.eqb_neq).
    cbn [InputNode_onEvent]. unfold InputNode_handleKeyDown, InputNode_handleSend.
    rewrite Ht, Hsend. simpl. split; reflexivity.
Qed.

(** Enter in the input node that a connection drag has created puts the
    text into the graph with the prefix of the mode in front of it: the node
    becomes a user message whose content is the prefix followed by the text
    typed, which is what later contexts contain and what the request ends
    with. *)
Theorem prompt_enters_graph_with_prefix (parentId : string) (handleId : option string)
    (dropPosition : XYPosition) (branch_id branch_ts now_id now_ts : Z)
    (st : GraphState) (text : string) (mode : ResponseMode) (fuel : nat) :
  truthy parentId = true ->
  ~ In (inputIdOf branch_id) (map id (nodes st)) ->
  trim text <> "" ->
  let inputNode := newInputNode parentId dropPosition branch_id branch_ts in
  let modifiedText := (MODE_PREFIXES mode ++ text)%string in
  let after :=
    runCall (data inputNode) (CallOnSend modifiedText) now_id now_ts
      (onConnectEnd (Some parentId) handleId true dropPosition branch_id branch_ts st) in
  InputNode_handleKeyDown plainEnter (data inputNode) (mkInput text mode)
    = (mkInput "" mode, [CallOnSend modifiedText]) /\
  (exists n,
     findNode (inputIdOf branch_id) (nodes after) = Some n /\
     content (data n) = modifiedText /\ role (data n) = user /\
     type n = Some "message" /\ isInput (data n) = Some false) /\
  (forall parentContext,
     getContextForNode fuel parentId (nodes st) (edges st) = Some parentContext ->
     contextMessages fuel modifiedText parentId (nodes st) (edges st)
     = Some (parentContext ++ [mkChatMessage user modifiedText])).
Proof.
  intros Hp Hfresh Hblank inputNode modifiedText after. split; [|split].
  - unfold InputNode_handleKeyDown, InputNode_handleSend. simpl.
    replace (truthy (trim text)) with true; [reflexivity|].
    symmetry. unfold truthy. now apply negb_true_iff, String.eqb_neq.
  - exists (toUserMessage modifiedText (inputIdOf branch_id) inputNode).
    split.
    + unfold after, runCall, onConnectEnd. simpl onSend. cbn iota.
      rewrite Hp. simpl negb. cbn iota. cbn [send_parentId send_inputId].
      unfold handleSend_begin. simpl nodes.
      rewrite map_app, map_toUserMessage_absent by assumption.
      rewrite <- app_assoc, findNode_app, findNode_absent by assumption.
      unfold findNode. cbn [map app find]. rewrite toUserMessage_id.
      change (id (newInputNode parentId dropPosition branch_id branch_ts))
        with (inputIdOf branch_id).
      now rewrite String.eqb_refl.
    + unfold toUserMessage.
      change (id inputNode) with (inputIdOf branch_id).
      rewrite String.eqb_refl. simpl. tauto.
  - intros parentContext Hctx. unfold contextMessages. now rewrite Hctx.
Qed.

Lemma prompt_enters_graph_with_prefix_witness :
  exists n,
    findNode (inputIdOf 3000)
      (nodes (runCall (data (newInputNode "ai-2000" (mkXY 40 700) 3000 3001))
                (CallOnSend "Be concise and brief in your response. why?") 4000 4001
                (onConnectEnd (Some "ai-2000") None true (mkXY 40 700) 3000 3001
                   placeholderState))) = Some n /\
    content (data n) = "Be concise and brief in your response. why?".
Proof.
  destruct (@prompt_enters_graph_with_prefix "ai-2000" None (mkXY 40 700) 3000 3001
              4000 4001 placeholderState "why?" concise 5%nat)
    as (_ & (n & Hfind & Hcontent & _) & _).
  - reflexivity.
  - simpl. intuition discriminate.
  - discriminate.
  - exists n. split; [exact Hfind | exact Hcontent].
Defined.

(** ** The backend route and the client *)




(** ** The search overlay *)

Lemma prefix_empty (s : string) : prefix "" s = true.
Proof. now destruct s. Qed.

Lemma index_unit_found (c : ascii) (t : string) :
  forall n f, index n (String c "") t = Some f ->
    (n <= f)%nat /\ get f t = Some c /\
    forall k, (n <= k)%nat -> (k < f)%nat -> get k t <> Some c.
Proof.
  induction t as [|b t IH]; intros n f Hidx.
  - destruct n; discriminate.
  - destruct n as [|n]; simpl in Hidx.
    + destruct (ascii_dec c b) as [-> | Hne].
      * rewrite prefix_empty in Hidx. inversion Hidx; subst.
        repeat split; [lia | intros k _ Hk; lia].
      * destruct (index 0 (String c "") t) as [f0|] eqn:H0; [|discriminate].
        inversion Hidx; subst. destruct (IH 0%nat f0 H0) as (_ & Hget & Hmin).
        repeat split; [lia | exact Hget |].
        intros [|k] _ Hk; simpl; [congruence | apply Hmin; lia].
    + destruct (index n (String c "") t) as [f0|] eqn:H0; [|discriminate].
      inversion Hidx; subst. destruct (IH n f0 H0) as (Hle & Hget & Hmin).
      repeat split; [lia | exact Hget |].
      intros [|k] Hnk Hk; [lia | simpl; apply Hmin; lia].
Qed.

Lemma index_unit_missing (c : ascii) (t : string) :
  forall n, index n (String c "") t = None ->
    forall k, (n <= k)%nat -> get k t <> Some c.
Proof.
  induction t as [|b t IH]; intros n Hidx k Hk; [discriminate|].
  destruct n as [|n]; simpl in Hidx.
  - destruct (ascii_dec c b) as [-> | Hne];
      [rewrite prefix_empty in Hidx; discriminate|].
    destruct (index 0 (String c "") t) as [f0|] eqn:H0; [discriminate|].
    destruct k as [|k]; simpl; [congruence | apply (IH 0%nat H0); lia].
  - destruct (index n (String c "") t) as [f0|] eqn:H0; [discriminate|].
    destruct k as [|k]; [lia | simpl; apply (IH n H0); lia].
Qed.

Lemma Subsequence_earlier (t q : string) (from from' : nat) :
  Subsequence t q from' -> (from <= from')%nat -> Subsequence t q from.
Proof.
  intros Hsub Hle. destruct Hsub as [|c rest from' p Hp Hget Hrest].
  - constructor.
  - apply subsequence_step with (p := p); [lia | assumption | assumption].
Qed.

Lemma subsequenceGaps_sound (t : string) (q : string) :
  forall ti gaps found,
    subsequenceGaps q t ti gaps = Some found -> Subsequence t q ti.
Proof.
  induction q as [|c rest IH]; intros ti gaps found Hrun; [constructor|].
  simpl in Hrun.
  destruct (index ti (String c "") t) as [f|] eqn:Hidx; [|discriminate].
  destruct (index_unit_found c t ti Hidx) as (Hle & Hget & _).
  apply subsequence_step with (p := f); [assumption | assumption |].
  rewrite Nat.add_1_r in Hrun. exact (IH _ _ _ Hrun).
Qed.

Lemma subsequenceGaps_complete (t : string) (q : string) :
  forall ti gaps,
    Subsequence t q ti -> exists found, subsequenceGaps q t ti gaps = Some found.
Proof.
  induction q as [|c rest IH]; intros ti gaps Hsub; [now exists gaps|].
  inversion Hsub as [|c' rest' from p Hp Hget Hrest]; subst.
  simpl. destruct (index ti (String c "") t) as [f|] eqn:Hidx.
  - destruct (index_unit_found c t ti Hidx) as (Hle & _ & Hmin).
    assert (Hfp : (f <= p)%nat).
    { destruct (Nat.le_gt_cases f p) as [H | H]; [exact H|].
      exfalso. exact (Hmin p Hp H Hget). }
    rewrite Nat.add_1_r. apply IH.
    apply (@Subsequence_earlier t rest (S f) (S p) Hrest). lia.
  - exfalso. exact (@index_unit_missing c t ti Hidx p Hp Hget).
Qed.

Lemma substring_first (t : string) :
  forall m l c rest,
    substring m (S l) t = String c rest ->
    get m t = Some c /\ substring (S m) l t = rest.
Proof.
  induction t as [|b t IH]; intros m l c rest Hsub.
  - destruct m; discriminate.
  - destruct m as [|m]; simpl in Hsub.
    + inversion Hsub; subst. split; [reflexivity|]. simpl. reflexivity.
    + destruct (IH m l c rest Hsub) as (Hget & Hrest). split; [exact Hget|].
      simpl. exact Hrest.
Qed.

Lemma occurrence_is_subsequence (t q : string) :
  forall m, substring m (String.length q) t = q -> Subsequence t q m.
Proof.
  induction q as [|c rest IH]; intros m Hsub; [constructor|].
  simpl in Hsub. destruct (substring_first t m _ Hsub) as (Hget & Hrest).
  apply subsequence_step with (p := m); [lia | exact Hget | now apply IH].
Qed.

(** A text matches a query exactly when the normalised query is not
    empty and can be read in the normalised text in order, with characters
    skipped in between; it is reported as a substring match exactly when the
    query occurs in the text as it stands.  Scores are not negative, and a
    subsequence match never scores below 2000. *)
Theorem search_matches_subsequences (queryRaw textRaw : string) :
  (scoreMatch queryRaw textRaw <> None <->
   normalizeText queryRaw <> "" /\ normalizeText textRaw <> "" /\
   Subsequence (normalizeText textRaw) (normalizeText queryRaw) 0) /\
  (forall r, scoreMatch queryRaw textRaw = Some r ->
     (0 <= score r)%Z /\
     (matchType r = subsequence_match -> (2000 <= score r)%Z) /\
     (matchType r = substring_match <->
      exists idx, index 0 (normalizeText queryRaw) (normalizeText textRaw) = Some idx)).
Proof.
  unfold scoreMatch, truthy.
  destruct (normalizeText queryRaw =? "")%string eqn:Hq; cbn [negb].
  { apply String.eqb_eq in Hq. split; [|discriminate].
    split; [congruence | intros (H & _); congruence]. }
  destruct (normalizeText textRaw =? "")%string eqn:Ht; cbn [negb].
  { apply String.eqb_eq in Ht. split; [|discriminate].
    split; [congruence | intros (_ & H & _); congruence]. }
  apply String.eqb_neq in Hq, Ht.
  destruct (index 0 (normalizeText queryRaw) (normalizeText textRaw)) as [idx|] eqn:Hidx.
  - split.
    + split; [|discriminate]. intros _. repeat split; try assumption.
      apply index_correct1 in Hidx.
      apply (@Subsequence_earlier _ _ 0%nat idx); [|lia].
      now apply occurrence_is_subsequence.
    + intros r Hr. apply (f_equal (fun o => match o with Some x => x | None => r end)) in Hr.
      cbv beta iota in Hr. rewrite <- Hr. unfold score, matchType.
      split; [lia|]. split; [discriminate|]. split; [eauto | reflexivity].
  - destruct (subsequenceGaps (normalizeText queryRaw) (normalizeText textRaw) 0 0)
      as [gaps|] eqn:Hgaps.
    + split.
      * split; [|discriminate]. intros _. repeat split; try assumption.
        exact (subsequenceGaps_sound _ _ _ _ Hgaps).
      * intros r Hr. apply (f_equal (fun o => match o with Some x => x | None => r end)) in Hr.
      cbv beta iota in Hr. rewrite <- Hr. unfold score, matchType.
        split; [lia|]. split; [intros _; lia|].
        split; [discriminate | intros (idx & H); discriminate].
    + split; [|discriminate]. split; [congruence|].
      intros (_ & _ & Hsub).
      destruct (subsequenceGaps_complete 0 Hsub) as (found & Hfound).
      congruence.
Qed.

Lemma byScore_key (a b : SearchResult) :
  byScore a b = (result_score a - result_score b)%Z.
Proof. reflexivity. Qed.

Lemma ranked_In (q : string) (ns : list ChatNode) (r : SearchResult) :
  In r (ranked q ns) ->
  In (result_node r) ns /\
  scoreMatch q (getNodeSearchText (result_node r))
  = Some (mkScore (result_score r) (result_matchType r)).
Proof.
  induction ns as [|n ns IH]; simpl; [intros []|].
  destruct (scoreMatch q (getNodeSearchText n)) as [[sc mt]|] eqn:Hm.
  - intros [<- | Hin]; [simpl; split; [now left | exact Hm]|].
    destruct (IH Hin). split; [now right | assumption].
  - intros Hin. destruct (IH Hin). split; [now right | assumption].
Qed.

Lemma ranked_complete (q : string) (ns : list ChatNode) (n : ChatNode)
    (scored : ScoreResult) :
  In n ns -> scoreMatch q (getNodeSearchText n) = Some scored ->
  In (mkResult n (score scored) (matchType scored)) (ranked q ns).
Proof.
  induction ns as [|m ns IH]; simpl; [intros []|].
  intros [-> | Hin] Hm.
  - rewrite Hm. now left.
  - destruct (scoreMatch q (getNodeSearchText m)); [right|]; now apply IH.
Qed.

Lemma sorted_front_cheaper (front back : list SearchResult) :
  StronglySorted cheaperFirst (front ++ back) ->
  StronglySorted cheaperFirst front /\
  forall a b, In a front -> In b back -> cheaperFirst a b.
Proof.
  induction front as [|x front IH]; simpl; intros Hs.
  - split; [constructor | intros a b []].
  - apply StronglySorted_inv in Hs. destruct Hs as (Hs & Hx).
    destruct (IH Hs) as (Hfront & Hcross). split.
    + constructor; [assumption|].
      rewrite Forall_forall in *. intros y Hy. apply Hx, in_or_app. now left.
    + intros a b [<- | Ha] Hb; [|now apply Hcross].
      rewrite Forall_forall in Hx. apply Hx, in_or_app. now right.
Qed.

Lemma searchResults_In (searchedNodes : list ChatNode) (query : string)
    (r : SearchResult) :
  In r (searchResults searchedNodes query) ->
  In (result_node r) searchedNodes /\
  scoreMatch (normalizeText query) (getNodeSearchText (result_node r))
  = Some (mkScore (result_score r) (result_matchType r)).
Proof.
  unfold searchResults. destruct (negb (truthy (normalizeText query))); [intros []|].
  intros Hin. apply ranked_In.
  apply (Permutation_in r (sortBy_perm byScore _)).
  rewrite <- (firstn_skipn 12 (sortBy byScore _)). apply in_or_app. now left.
Qed.

(** The list of results holds at most twelve entries in ascending order of
    score, each a node of the graph with the score of its match; a node
    that matches is listed, unless twelve nodes are listed that all score at
    least as well.  A query that is blank after normalisation has no
    results. *)
Theorem search_lists_best_matches (searchedNodes : list ChatNode) (query : string) :
  (List.length (searchResults searchedNodes query) <= 12)%nat /\
  StronglySorted cheaperFirst (searchResults searchedNodes query) /\
  (forall r, In r (searchResults searchedNodes query) ->
     In (result_node r) searchedNodes /\
     scoreMatch (normalizeText query) (getNodeSearchText (result_node r))
     = Some (mkScore (result_score r) (result_matchType r))) /\
  (forall n scored,
     In n searchedNodes -> normalizeText query <> "" ->
     scoreMatch (normalizeText query) (getNodeSearchText n) = Some scored ->
     In (mkResult n (score scored) (matchType scored))
        (searchResults searchedNodes query) \/
     (List.length (searchResults searchedNodes query) = 12%nat /\
      forall r, In r (searchResults searchedNodes query) ->
        (result_score r <= score scored)%Z)) /\
  (normalizeText query = "" -> searchResults searchedNodes query = []).
Proof.
  unfold searchResults, truthy.
  destruct (normalizeText query =? "")%string eqn:Hq; cbn [negb].
  { apply String.eqb_eq in Hq. split; [simpl; lia|]. split; [constructor|].
    split; [intros r []|]. split; [intros n scored _ Hne; contradiction|].
    reflexivity. }
  apply String.eqb_neq in Hq.
  set (sorted := sortBy byScore (ranked (normalizeText query) searchedNodes)).
  assert (Hsorted : StronglySorted cheaperFirst sorted).
  { apply (@sortBy_sorted SearchResult result_score byScore byScore_key). }
  assert (Hperm : Permutation sorted (ranked (normalizeText query) searchedNodes)).
  { apply sortBy_perm. }
  rewrite <- (firstn_skipn 12 sorted) in Hsorted.
  destruct (sorted_front_cheaper _ _ Hsorted) as (Hfront & Hcross).
  split; [apply firstn_le_length|]. split; [exact Hfront|].
  split; [|split; [|contradiction]].
  - intros r Hin. apply ranked_In.
    apply (Permutation_in r Hperm).
    rewrite <- (firstn_skipn 12 sorted). apply in_or_app. now left.
  - intros n scored Hn _ Hm.
    pose proof (@ranked_complete _ _ _ _ Hn Hm) as Hin.
    apply (Permutation_in _ (Permutation_sym Hperm)) in Hin.
    rewrite <- (firstn_skipn 12 sorted) in Hin. apply in_app_or in Hin.
    destruct Hin as [Hin | Hin]; [now left | right]. split.
    + apply firstn_length_le.
      destruct (Nat.le_gt_cases 12 (List.length sorted)) as [H | H]; [exact H|].
      rewrite skipn_all2 in Hin by lia. destruct Hin.
    + intros r Hr. exact (Hcross r _ Hr Hin).
Qed.

(** Enter in the overlay selects a listed result, hence a node of the
    graph, whatever value the selection index has been left with; with
    results listed it always selects one.  ArrowDown and ArrowUp keep the
    index within the list and undo each other on an index within the
    list. *)
Theorem overlay_selects_listed_node (searchedNodes : list ChatNode) (query : string)
    (pressed : string) (selectedIndex : Z) :
  (forall nodeId,
     In (CallOnSelectNode nodeId)
        (snd (Overlay_handleKeyDown pressed (searchResults searchedNodes query)
                selectedIndex)) ->
     pressed = "Enter" /\ In nodeId (map id searchedNodes)) /\
  (searchResults searchedNodes query <> [] ->
   exists r,
     In r (searchResults searchedNodes query) /\
     Overlay_handleKeyDown "Enter" (searchResults searchedNodes query) selectedIndex
     = (selectedIndex, [CallOnSelectNode (id (result_node r))])) /\
  (forall results,
     (0 <= selectedIndex < Z.of_nat (List.length results))%Z ->
     let down := fst (Overlay_handleKeyDown "ArrowDown" results selectedIndex) in
     let up := fst (Overlay_handleKeyDown "ArrowUp" results selectedIndex) in
     (0 <= down < Z.of_nat (List.length results))%Z /\
     (0 <= up < Z.of_nat (List.length results))%Z /\
     fst (Overlay_handleKeyDown "ArrowUp" results down) = selectedIndex /\
     fst (Overlay_handleKeyDown "ArrowDown" results up) = selectedIndex).
Proof.
  assert (Hsel : forall results r,
            selected results selectedIndex = Some r -> In r results).
  { intros results r. unfold selected, at_index.
    destruct (0 <=? safeSelectedIndex results selectedIndex)%Z; [|discriminate].
    destruct (safeSelectedIndex results selectedIndex <? 0)%Z; [discriminate|].
    apply nth_error_In. }
  split; [|split].
  - intros nodeId. unfold Overlay_handleKeyDown.
    destruct (pressed =? "Escape")%string;
      [intros [H | []]; discriminate H|].
    destruct (pressed =? "ArrowDown")%string.
    { destruct (_ =? 0)%Z; intros []. }
    destruct (pressed =? "ArrowUp")%string.
    { destruct (_ =? 0)%Z; intros []. }
    destruct (pressed =? "Enter")%string eqn:Henter; [|intros []].
    apply String.eqb_eq in Henter.
    destruct (selected _ selectedIndex) as [r|] eqn:Hr; [|intros []].
    intros [Heq | []]. injection Heq as <-. split; [exact Henter|].
    apply in_map.
    exact (proj1 (@searchResults_In searchedNodes query r (Hsel _ _ Hr))).
  - intros Hne.
    destruct (selected (searchResults searchedNodes query) selectedIndex) as [r|] eqn:Hr.
    + exists r. split; [exact (Hsel _ _ Hr)|].
      unfold Overlay_handleKeyDown. simpl (_ =? _)%string. cbn iota. now rewrite Hr.
    + exfalso. revert Hr. unfold selected, safeSelectedIndex, at_index.
      destruct (searchResults searchedNodes query) as [|r0 rs]; [contradiction|].
      set (count := Z.of_nat (List.length (r0 :: rs))).
      assert (Hcount : (0 < count)%Z) by (unfold count; simpl; lia).
      destruct (count =? 0)%Z eqn:Hz; [lia|].
      destruct (0 <=? Z.min (Z.max selectedIndex 0) (count - 1))%Z eqn:Hnn; [|lia].
      destruct (Z.min (Z.max selectedIndex 0) (count - 1) <? 0)%Z eqn:Hneg; [lia|].
      intros Hnone. apply nth_error_None in Hnone. unfold count in *. lia.
  - intros results Hrange. unfold Overlay_handleKeyDown.
    simpl (_ =? _)%string. cbn iota.
    destruct (Z.of_nat (List.length results) =? 0)%Z eqn:Hz; [lia|].
    cbn [fst].
    set (count := Z.of_nat (List.length results)) in *.
    assert (Hdown : Z.rem (selectedIndex + 1) count = (selectedIndex + 1) mod count)
      by (apply Z.rem_mod_nonneg; lia).
    assert (Hup : Z.rem (selectedIndex - 1 + count) count
                  = (selectedIndex - 1 + count) mod count)
      by (apply Z.rem_mod_nonneg; lia).
    rewrite Hdown, Hup.
    pose proof (Z.mod_pos_bound (selectedIndex + 1) count ltac:(lia)) as Hd.
    pose proof (Z.mod_pos_bound (selectedIndex - 1 + count) count ltac:(lia)) as Hu.
    split; [exact Hd|]. split; [exact Hu|]. split.
    + rewrite Z.rem_mod_nonneg by lia.
      destruct (Z.eq_dec (selectedIndex + 1) count) as [Heq | Hne].
      * rewrite Heq, Z.mod_same by lia.
        replace (0 - 1 + count)%Z with (count - 1)%Z by lia.
        rewrite Z.mod_small by lia. lia.
      * rewrite (Z.mod_small (selectedIndex + 1)) by lia.
        replace (selectedIndex + 1 - 1 + count)%Z
          with (selectedIndex + 1 * count)%Z by lia.
        rewrite Z.mod_add by lia. apply Z.mod_small. lia.
    + rewrite Z.rem_mod_nonneg by lia.
      destruct (Z.eq_dec selectedIndex 0) as [-> | Hne].
      * replace (0 - 1 + count)%Z with (count - 1)%Z by lia.
        rewrite (Z.mod_small (count - 1)) by lia.
        replace (count - 1 + 1)%Z with count by lia. apply Z.mod_same. lia.
      * replace (selectedIndex - 1 + count)%Z
          with (selectedIndex - 1 + 1 * count)%Z by lia.
        rewrite Z.mod_add by lia. rewrite (Z.mod_small (selectedIndex - 1)) by lia.
        replace (selectedIndex - 1 + 1)%Z with selectedIndex by lia.
        apply Z.mod_small. lia.
Qed.

Lemma overlay_select_listed (pressed : string) (results : list SearchResult)
    (selectedIndex : Z) (nodeId : string) :
  In (CallOnSelectNode nodeId)
     (snd (Overlay_handleKeyDown pressed results selectedIndex)) ->
  exists r, In r results /\ nodeId = id (result_node r).
Proof.
  unfold Overlay_handleKeyDown.
  destruct (pressed =? "Escape")%string; [intros [H | []]; discriminate H|].
  destruct (pressed =? "ArrowDown")%string.
  { destruct (_ =? 0)%Z; intros []. }
  destruct (pressed =? "ArrowUp")%string.
  { destruct (_ =? 0)%Z; intros []. }
  destruct (pressed =? "Enter")%string; [|intros []].
  destruct (selected results selectedIndex) as [r|] eqn:Hr; [|intros []].
  intros [Heq | []]. injection Heq as <-. exists r. split; [|reflexivity].
  revert Hr. unfold selected, at_index.
  destruct (0 <=? safeSelectedIndex results selectedIndex)%Z; [|discriminate].
  destruct (safeSelectedIndex results selectedIndex <? 0)%Z; [discriminate|].
  apply nth_error_In.
Qed.

(** The node that the overlay hands to the graph exists there, so the focus
    moves to it; and its text matches the query: the query, normalised, can
    be read in the normalised text of the node. *)
Theorem search_selection_moves_focus (searchedNodes : list ChatNode) (query : string)
    (pressed : string) (selectedIndex : Z) (focused : option string)
    (nodeId : string) :
  In (CallOnSelectNode nodeId)
     (snd (Overlay_handleKeyDown pressed (searchResults searchedNodes query)
             selectedIndex)) ->
  focusNode nodeId searchedNodes focused = Some nodeId /\
  exists n,
    In n searchedNodes /\ id n = nodeId /\
    Subsequence (normalizeText (getNodeSearchText n))
                (normalizeText (normalizeText query)) 0.
Proof.
  intros Hcall.
  destruct (@overlay_select_listed _ _ _ _ Hcall) as (r & Hin & ->).
  destruct (@searchResults_In _ _ _ Hin) as (Hnode & Hscore).
  split.
  - unfold focusNode.
    destruct (findNode_present (id (result_node r)) searchedNodes) as (n & -> & _);
      [now apply in_map | reflexivity].
  - exists (result_node r). split; [exact Hnode|]. split; [reflexivity|].
    revert Hscore. unfold scoreMatch.
    destruct (negb (truthy (normalizeText (normalizeText query)))); [discriminate|].
    destruct (negb (truthy (normalizeText (getNodeSearchText (result_node r)))));
      [discriminate|].
    destruct (index 0 _ _) as [idx|] eqn:Hidx.
    + intros _. apply index_correct1 in Hidx.
      apply (@Subsequence_earlier _ _ 0%nat idx); [|lia].
      now apply occurrence_is_subsequence.
    + destruct (subsequenceGaps _ _ 0 0) as [gaps|] eqn:Hgaps; [|discriminate].
      intros _. exact (@subsequenceGaps_sound _ _ _ _ _ Hgaps).
Qed.

Lemma search_selection_moves_focus_witness :
  focusNode "ai-2000" (nodes placeholderState) None = Some "ai-2000".
Proof.
  apply (@search_selection_moves_focus (nodes placeholderState) "  THINKing" "Enter" 0
           None "ai-2000").
  vm_compute. left. reflexivity.
Defined.
